(** * Beam calculator: the finite-element core of [src/App.jsx]

    A shallow embedding of the numerical engine of the beam calculator
    (mesh construction, element stiffness, assembly of the global system,
    boundary-condition reduction, the linear solver, recovery of the
    reactions and the extrema finder), with the properties of the design
    document stated and settled against it.  The solver is embedded twice:
    on values, as the assembler uses it, and on a store of arrays, where the
    copies it makes and the writes it performs are explicit; the second
    computes what the first computes.

    Numbers.  The source computes with IEEE doubles.  Here a number is an
    exact rational in canonical form ([Qc], with Leibniz equality), so that
    every definition evaluates and every statement is about exact
    arithmetic.  No division by zero is reachable in the embedded code (the
    solver replaces a zero pivot, an element has positive length, the other
    divisors are literals), so infinities and NaN never arise from finite
    inputs.

    Around the engine, the file embeds the rest of the computation of
    [App]: the normalisation of the entered supports and loads, the section
    property, the diagram builder, the change of units of the diagrams, the
    reactions shown at the supports, the detection of free ends and the
    coordinates of the plotted polylines.  The diagram builder divides by
    the number of samples and by the length of an element, the plot by the
    largest magnitude (at least [1e-6]) and by the abscissa of the last
    point; the statements that depend on such a quotient assume the divisor
    positive. *)

From Stdlib Require Import QArith Qcanon Lqa.
From Stdlib Require Qcabs.
From stdpp Require Import base numbers list sorting gmap.

Open Scope Qc_scope.

#[local] Set Warnings "-clear-no-such-hyp".

(** A numeric literal of the source. *)
Definition lit (z : Z) : Qc := Qc_of_Z z.
Arguments lit z%_Z.

(** [Math.abs]. *)
Definition abs (x : Qc) : Qc := Qcabs.Qcabs x.

(** ** Completions

    A call either returns a value or throws.  The only exception the core
    can raise is the [TypeError] of reading a property of [undefined]. *)

Inductive jsError : Type := TypeError.

Inductive completion (A : Type) : Type :=
  | Return (a : A)
  | Throw (e : jsError).
Arguments Return {A} a.
Arguments Throw {A} e.

Global Instance completion_bind : MBind completion := λ A B k c,
  match c with
  | Return a => k a
  | Throw e => Throw e
  end.

Global Instance jsError_eq_dec : EqDecision jsError.
Proof. solve_decision. Defined.

Global Instance completion_eq_dec `{EqDecision A} : EqDecision (completion A).
Proof. solve_decision. Defined.

(** ** Arrays of numbers

    [rd v i] is [v[i]] and [at2 a k i] is [a[k][i]].  Inside the assembler
    every index is in range by construction.  Reading past the end of an
    array of numbers yields [undefined] in the source, and NaN as soon as it
    is used in arithmetic; the model has no NaN and reads [0] there, so the
    statements about the solver are about rectangular systems, the only ones
    the assembler builds. *)

Abbreviation vec := (list Qc).
Abbreviation mat := (list (list Qc)).

Definition rd (v : vec) (i : nat) : Qc := default 0 (v !! i).
Definition row (a : mat) (k : nat) : vec := default [] (a !! k).
Definition at2 (a : mat) (k i : nat) : Qc := rd (row a k) i.

(** [a[k][j] = x]. *)
Definition set2 (a : mat) (k j : nat) (x : Qc) : mat :=
  <[k := <[j := x]> (row a k)]> a.

(** [[l[i], l[j]] = [l[j], l[i]]]: both right-hand sides are read first. *)
Definition swap {A} (l : list A) (i j : nat) : list A :=
  match l !! i, l !! j with
  | Some x, Some y => <[j := x]> (<[i := y]> l)
  | _, _ => l
  end.

(** ** Data model *)

(** [support.type], one of the four strings of [supportOptions].  Only
    ['fixed'], ['pinned'] and ['roller'] constrain a DOF. *)
Inductive supportType : Type := fixed | pinned | roller | free.

Global Instance supportType_eq_dec : EqDecision supportType.
Proof. solve_decision. Defined.

Module Support.
Record t : Type := make { position : Qc; type : supportType }.
End Support.

Module PointLoad.
Record t : Type := make { position : Qc; magnitude : Qc }.
End PointLoad.

(** [end_] is the field [end] of the source. *)
Module Udl.
Record t : Type := make { start : Qc; end_ : Qc; intensity : Qc }.
End Udl.

Module Input.
Record t : Type := make {
  span : Qc;
  E : Qc;
  I : Qc;
  supports : list Support.t;
  pointLoads : list PointLoad.t;
  udls : list Udl.t
}.
End Input.

(** The object returned by [assembleBeamModel]. *)
Module Model.
Record t : Type := make {
  nodePositions : vec;
  displacements : vec;
  reactions : vec;
  K : mat;
  F : vec
}.
End Model.

Global Instance Model_eq_dec : EqDecision Model.t.
Proof. solve_decision. Defined.

(** A point of a sampled diagram, and the keys [findExtrema] is called with. *)
Module Sample.
Record t : Type := make { x : Qc; deflection : Qc; moment : Qc; shear : Qc }.
End Sample.

Inductive sampleKey : Type := key_deflection | key_moment | key_shear.

Module Extrema.
Record t : Type := make { min : Qc; minX : Qc; max : Qc; maxX : Qc }.
End Extrema.

(** ** Mesh builder *)

(** [new Set(values)]: the distinct values in order of first insertion. *)
Definition setOf (values : vec) : vec :=
  fold_left (λ acc value, if decide (value ∈ acc) then acc else acc ++ [value])
            values [].

(** [uniqueSorted]: [[...new Set(values)].sort((a, b) => a - b)].  The
    comparator orders numbers increasingly; the sort is a merge sort. *)
Definition uniqueSorted (values : vec) : vec :=
  merge_sort Qcle (setOf values).

(** [Array.prototype.indexOf]; [None] is the source's [-1]. *)
Definition indexOf (l : vec) (x : Qc) : option nat :=
  fst <$> list_find (λ y, y = x) l.

(** ** Element stiffness provider *)

Definition beamElementStiffness (E I L : Qc) : mat :=
  let factor := (E * I) / L ^ 3 in
  [ [lit 12 * factor; lit 6 * L * factor; - lit 12 * factor; lit 6 * L * factor];
    [lit 6 * L * factor; lit 4 * L * L * factor; - lit 6 * L * factor; lit 2 * L * L * factor];
    [- lit 12 * factor; - lit 6 * L * factor; lit 12 * factor; - lit 6 * L * factor];
    [lit 6 * L * factor; lit 2 * L * L * factor; - lit 6 * L * factor; lit 4 * L * L * factor] ].

(** ** Linear solver *)

(** The value substituted for a zero pivot, [1e-12]. *)
Definition epsilon : Qc := 1 / lit 1000000000000.

(** The search for the row of largest magnitude in column [i], rows
    [i+1 .. size-1], starting from [maxRow = i]. *)
Definition selectPivotRow (size : nat) (a : mat) (i : nat) : nat :=
  fold_left
    (λ maxRow k, if decide (abs (at2 a maxRow i) < abs (at2 a k i)) then k else maxRow)
    (seq (i + 1) (size - (i + 1))) i.

(** [for (j = i; j < size; j += 1) a[i][j] /= pivot]. *)
Definition scaleRow (size i : nat) (pivot : Qc) (a : mat) : mat :=
  fold_left (λ a j, set2 a i j (at2 a i j / pivot)) (seq i (size - i)) a.

(** The body of the elimination loop for a row [k ≠ i]. *)
Definition eliminateRow (size i k : nat) (st : mat * vec) : mat * vec :=
  let '(a, b) := st in
  let factor := at2 a k i in
  let a := fold_left (λ a j, set2 a k j (at2 a k j - factor * at2 a i j))
                     (seq i (size - i)) a in
  let b := <[k := rd b k - factor * rd b i]> b in
  (a, b).

(** One iteration of the outer loop. *)
Definition pivotStep (size : nat) (st : mat * vec) (i : nat) : mat * vec :=
  let '(a, b) := st in
  let maxRow := selectPivotRow size a i in
  let '(a, b) :=
    if decide (maxRow ≠ i) then (swap a i maxRow, swap b i maxRow) else (a, b) in
  let pivot := if decide (at2 a i i = 0) then epsilon else at2 a i i in
  let a := scaleRow size i pivot a in
  let b := <[i := rd b i / pivot]> b in
  fold_left (λ st k, if decide (k = i) then st else eliminateRow size i k st)
            (seq 0 size) (a, b).

(** [solveLinearSystem].  The copies [a] and [b] are the values of the
    arguments.  With fewer rows than [vector.length] the first iteration
    reads [a[k][i]] on a missing row, before any other effect: a
    [TypeError]. *)
Definition solveLinearSystem (matrix : mat) (vector : vec) : completion vec :=
  let size := length vector in
  if decide (length matrix < size)%nat then Throw TypeError
  else
    let a := matrix in
    let b := vector in
    Return (snd (fold_left (pivotStep size) (seq 0 size) (a, b))).

(** ** System assembler *)

Definition dofMap (e : nat) : list nat :=
  [2 * e; 2 * e + 1; 2 * (e + 1); 2 * (e + 1) + 1]%nat.

(** [dofMap[i]]. *)
Definition dof (dm : list nat) (i : nat) : nat := default 0%nat (dm !! i).

(** The effective intensity on the element [[x1, x2]]:
    [udls.filter(load => load.start <= x1 && load.end >= x2)
         .reduce((sum, load) => sum + load.intensity, 0)]. *)
Definition udlForElement (udls : list Udl.t) (x1 x2 : Qc) : Qc :=
  fold_left (λ sum load, sum + Udl.intensity load)
            (filter (λ load, Udl.start load ≤ x1 ∧ x2 ≤ Udl.end_ load) udls) 0.

Definition eqForces (w L : Qc) : vec :=
  [ (w * L) / lit 2; (w * L * L) / lit 12; (w * L) / lit 2; (- w * L * L) / lit 12 ].

(** [K[dofMap[i]][dofMap[j]] += kLocal[i][j]] for [i, j < 4]. *)
Definition scatterStiffness (dm : list nat) (kLocal K : mat) : mat :=
  fold_left
    (λ K i,
       fold_left
         (λ K j, set2 K (dof dm i) (dof dm j)
                   (at2 K (dof dm i) (dof dm j) + at2 kLocal i j))
         (seq 0 4) K)
    (seq 0 4) K.

(** [F[dofMap[i]] += eqForces[i]] for [i < 4]. *)
Definition scatterLoad (dm : list nat) (eq F : vec) : vec :=
  fold_left (λ F i, <[dof dm i := rd F (dof dm i) + rd eq i]> F) (seq 0 4) F.

(** The body of the loop over the elements [e = 0 .. nodeCount - 2]. *)
Definition elementStep (E I : Qc) (udls : list Udl.t) (nodePositions : vec)
    (st : mat * vec) (e : nat) : mat * vec :=
  let '(K, F) := st in
  let x1 := rd nodePositions e in
  let x2 := rd nodePositions (e + 1) in
  let L := x2 - x1 in
  if decide (L ≤ 0) then (K, F)
  else
    let kLocal := beamElementStiffness E I L in
    let dm := dofMap e in
    let K := scatterStiffness dm kLocal K in
    let w := udlForElement udls x1 x2 in
    let F := if decide (w ≠ 0) then scatterLoad dm (eqForces w L) F else F in
    (K, F).

(** The body of [pointLoads.forEach]. *)
Definition addPointLoad (nodePositions : vec) (F : vec) (load : PointLoad.t) : vec :=
  match indexOf nodePositions (PointLoad.position load) with
  | Some nodeIndex =>
      <[(nodeIndex * 2)%nat := rd F (nodeIndex * 2) + PointLoad.magnitude load]> F
  | None => F
  end.

(** ** Boundary condition reducer *)

(** The body of [supports.forEach]. *)
Definition addSupport (nodePositions : vec) (constrained : gset nat)
    (support : Support.t) : gset nat :=
  match indexOf nodePositions (Support.position support) with
  | None => constrained
  | Some nodeIndex =>
      let constrained :=
        if decide (Support.type support = fixed)
        then {[ (nodeIndex * 2 + 1)%nat ]} ∪ ({[ (nodeIndex * 2)%nat ]} ∪ constrained)
        else constrained in
      if decide (Support.type support = pinned ∨ Support.type support = roller)
      then {[ (nodeIndex * 2)%nat ]} ∪ constrained
      else constrained
  end.

(** The loop that pushes every DOF on [fixedDofs] or on [freeDofs]. *)
Definition partitionDofs (constrained : gset nat) (dofCount : nat)
    : list nat * list nat :=
  fold_left
    (λ '(freeDofs, fixedDofs) i,
       if decide (i ∈ constrained) then (freeDofs, fixedDofs ++ [i])
       else (freeDofs ++ [i], fixedDofs))
    (seq 0 dofCount) ([], []).

(** ** Response recoverer *)

(** [row.reduce((sum, value, j) => sum + value * displacements[j], 0)]. *)
Definition rowTimes (displacements : vec) (row : vec) : Qc :=
  fold_left (λ sum '(j, value), sum + value * rd displacements j)
            (imap pair row) 0.

(** ** [assembleBeamModel], stage by stage *)

Section assemble.
Variable inp : Input.t.

Definition nodePositions : vec :=
  uniqueSorted
    (0 :: Input.span inp
       :: (Support.position <$> Input.supports inp)
       ++ (PointLoad.position <$> Input.pointLoads inp)
       ++ (Input.udls inp ≫= λ load, [Udl.start load; Udl.end_ load])).

Definition nodeCount : nat := length nodePositions.
Definition dofCount : nat := (nodeCount * 2)%nat.

(** [K] and [F] after the loop over the elements. *)
Definition elementLoop : mat * vec :=
  fold_left (elementStep (Input.E inp) (Input.I inp) (Input.udls inp) nodePositions)
            (seq 0 (nodeCount - 1))
            (replicate dofCount (replicate dofCount 0), replicate dofCount 0).

Definition K : mat := elementLoop.1.

(** [F] once the point loads are added. *)
Definition F : vec :=
  fold_left (addPointLoad nodePositions) (Input.pointLoads inp) elementLoop.2.

Definition constrained : gset nat :=
  fold_left (addSupport nodePositions) (Input.supports inp) ∅.

Definition freeDofs : list nat := (partitionDofs constrained dofCount).1.
Definition fixedDofs : list nat := (partitionDofs constrained dofCount).2.

Definition reducedK : mat := (λ row, (λ col, at2 K row col) <$> freeDofs) <$> freeDofs.
Definition reducedF : vec := (λ row, rd F row) <$> freeDofs.

Definition freeDisplacements : completion vec :=
  if decide (0 < length freeDofs)%nat then solveLinearSystem reducedK reducedF
  else Return [].

(** The scatter of the free displacements into [Array(dofCount).fill(0)]. *)
Definition displacements (freeDisplacements : vec) : vec :=
  fold_left (λ d '(index, dof), <[dof := rd freeDisplacements index]> d)
            (imap pair freeDofs) (replicate dofCount 0).

Definition reactions (displacements : vec) : vec :=
  imap (λ i row, rowTimes displacements row - rd F i) K.

Definition assembleBeamModel : completion Model.t :=
  fd ← freeDisplacements;
  let d := displacements fd in
  Return (Model.make nodePositions d (reactions d) K F).
End assemble.

(** ** Extrema finder *)

(** [point[key]]. *)
Definition field (point : Sample.t) (key : sampleKey) : Qc :=
  match key with
  | key_deflection => Sample.deflection point
  | key_moment => Sample.moment point
  | key_shear => Sample.shear point
  end.

(** The reducer of [findExtrema]. *)
Definition extremaStep (key : sampleKey) (acc : Extrema.t) (point : Sample.t)
    : Extrema.t :=
  let acc :=
    if decide (field point key < Extrema.min acc)
    then Extrema.make (field point key) (Sample.x point) (Extrema.max acc) (Extrema.maxX acc)
    else acc in
  if decide (Extrema.max acc < field point key)
  then Extrema.make (Extrema.min acc) (Extrema.minX acc) (field point key) (Sample.x point)
  else acc.

Definition findExtrema (data : list Sample.t) (key : sampleKey) : Extrema.t :=
  match data with
  | [] => Extrema.make 0 0 0 0
  | first :: _ =>
      fold_left (extremaStep key) data
        (Extrema.make (field first key) (Sample.x first) (field first key) (Sample.x first))
  end.

(** ** The solver on a store

    In the source the matrix is an array of references to row arrays, and
    the solver writes into arrays.  The store makes this explicit: an object
    is an array of numbers or an array of references, a reference is an
    index in the store, and an allocation appends to it.  A reference that
    does not hold the kind of array the code expects is a [TypeError]. *)

Module Heap.
Definition loc : Type := nat.

Inductive object : Type :=
  | Numbers (v : vec)
  | Rows (rs : list loc).

Abbreviation heap := (list object).

(** [new Array]: the fresh reference and the extended store. *)
Definition alloc (o : object) (h : heap) : loc * heap := (length h, h ++ [o]).

Definition numbers (h : heap) (l : loc) : option vec :=
  match h !! l with
  | Some (Numbers v) => Some v
  | _ => None
  end.

Definition rows (h : heap) (l : loc) : option (list loc) :=
  match h !! l with
  | Some (Rows rs) => Some rs
  | _ => None
  end.

Definition numbersAt (h : heap) (l : loc) : vec := default [] (numbers h l).
Definition rowsAt (h : heap) (l : loc) : list loc := default [] (rows h l).

(** [a[k][i]]. *)
Definition entry (h : heap) (a : loc) (k i : nat) : Qc :=
  match rowsAt h a !! k with
  | Some r => rd (numbersAt h r) i
  | None => 0
  end.

(** [a[k][j] = x]: a write into the row object that [a[k]] refers to. *)
Definition setEntry (a : loc) (k j : nat) (x : Qc) (h : heap) : heap :=
  match rowsAt h a !! k with
  | Some r => <[r := Numbers (<[j := x]> (numbersAt h r))]> h
  | None => h
  end.

(** [b[k]] and [b[k] = x]. *)
Definition item (h : heap) (b : loc) (k : nat) : Qc := rd (numbersAt h b) k.

Definition setItem (b : loc) (k : nat) (x : Qc) (h : heap) : heap :=
  <[b := Numbers (<[k := x]> (numbersAt h b))]> h.

(** [[a[i], a[m]] = [a[m], a[i]]]: the references are exchanged, the row
    objects are not touched. *)
Definition swapRows (a : loc) (i m : nat) (h : heap) : heap :=
  <[a := Rows (swap (rowsAt h a) i m)]> h.

(** [[b[i], b[m]] = [b[m], b[i]]]. *)
Definition swapItems (b : loc) (i m : nat) (h : heap) : heap :=
  <[b := Numbers (swap (numbersAt h b) i m)]> h.

Definition selectPivotRow (size : nat) (a : loc) (i : nat) (h : heap) : nat :=
  fold_left
    (λ maxRow k, if decide (abs (entry h a maxRow i) < abs (entry h a k i)) then k else maxRow)
    (seq (i + 1) (size - (i + 1))) i.

Definition scaleRow (size : nat) (a : loc) (i : nat) (pivot : Qc) (h : heap) : heap :=
  fold_left (λ h j, setEntry a i j (entry h a i j / pivot) h) (seq i (size - i)) h.

Definition eliminateRow (size : nat) (a b : loc) (i k : nat) (h : heap) : heap :=
  let factor := entry h a k i in
  let h := fold_left (λ h j, setEntry a k j (entry h a k j - factor * entry h a i j) h)
                     (seq i (size - i)) h in
  setItem b k (item h b k - factor * item h b i) h.

Definition pivotStep (size : nat) (a b : loc) (h : heap) (i : nat) : heap :=
  let maxRow := selectPivotRow size a i h in
  let h := if decide (maxRow ≠ i) then swapItems b i maxRow (swapRows a i maxRow h)
           else h in
  let pivot := if decide (entry h a i i = 0) then epsilon else entry h a i i in
  let h := scaleRow size a i pivot h in
  let h := setItem b i (item h b i / pivot) h in
  fold_left (λ h k, if decide (k = i) then h else eliminateRow size a b i k h)
            (seq 0 size) h.

(** [matrix.map((row) => row.slice())]: a fresh copy of every row, in
    order. *)
Fixpoint copyRows (rs : list loc) (h : heap) : heap * completion (list loc) :=
  match rs with
  | [] => (h, Return [])
  | r :: rs =>
      match numbers h r with
      | None => (h, Throw TypeError)
      | Some v =>
          let '(r', h) := alloc (Numbers v) h in
          match copyRows rs h with
          | (h, Return rs') => (h, Return (r' :: rs'))
          | (h, Throw e) => (h, Throw e)
          end
      end
  end.

(** [solveLinearSystem] called with references to the matrix and to the
    vector; the result is the final store and a reference to [b]. *)
Definition solveLinearSystem (matrix vector : loc) (h : heap) : heap * completion loc :=
  match numbers h vector with
  | None => (h, Throw TypeError)
  | Some v =>
      let size := length v in
      match rows h matrix with
      | None => (h, Throw TypeError)
      | Some rs =>
          match copyRows rs h with
          | (h, Throw e) => (h, Throw e)
          | (h, Return rs') =>
              let '(a, h) := alloc (Rows rs') h in
              let '(b, h) := alloc (Numbers v) h in
              if decide (length rs' < size)%nat then (h, Throw TypeError)
              else (fold_left (pivotStep size a b) (seq 0 size) h, Return b)
          end
      end
  end.

(** The matrix a reference denotes: its rows, dereferenced. *)
Definition matrixAt (h : heap) (l : loc) : option mat :=
  rs ← rows h l; mapM (numbers h) rs.

(** A store that holds the system [2x + y = 3, x + 3y = 5]: the vector at
    0, the rows at 1 and 2, the matrix at 3. *)
Definition sampleHeap : heap :=
  [ Numbers [lit 3; lit 5]; Numbers [lit 2; 1]; Numbers [1; lit 3]; Rows [1; 2]%nat ].
End Heap.

(** ** Vocabulary of the statements *)

(** The matrix of section 4.2 of the design document, before scaling. *)
Definition standardStiffness (L : Qc) : mat :=
  [ [lit 12; lit 6 * L; - lit 12; lit 6 * L];
    [lit 6 * L; lit 4 * L ^ 2; - lit 6 * L; lit 2 * L ^ 2];
    [- lit 12; - lit 6 * L; lit 12; - lit 6 * L];
    [lit 6 * L; lit 2 * L ^ 2; - lit 6 * L; lit 4 * L ^ 2] ].

Definition scaleMat (c : Qc) (m : mat) : mat := map (map (Qcmult c)) m.

Definition symmetric (m : mat) : Prop := ∀ i j, at2 m i j = at2 m j i.

(** [m] is the least value of the series for [key], and [mx] the position
    of the first sample that attains it. *)
Definition firstMin (data : list Sample.t) (key : sampleKey) (m mx : Qc) : Prop :=
  ∃ i p, data !! i = Some p ∧ field p key = m ∧ Sample.x p = mx ∧
    (∀ q, q ∈ data → m ≤ field q key) ∧
    (∀ j q, (j < i)%nat → data !! j = Some q → m < field q key).

Definition firstMax (data : list Sample.t) (key : sampleKey) (m mx : Qc) : Prop :=
  ∃ i p, data !! i = Some p ∧ field p key = m ∧ Sample.x p = mx ∧
    (∀ q, q ∈ data → field q key ≤ m) ∧
    (∀ j q, (j < i)%nat → data !! j = Some q → field q key < m).

(** A square system of [n] equations. *)
Definition square (n : nat) (a : mat) : Prop :=
  length a = n ∧ Forall (λ r, length r = n) a.

(** The index read at position [k] once [i] and [j] are exchanged. *)
Definition transpose (i j k : nat) : nat :=
  if decide (k = i) then j else if decide (k = j) then i else k.

(** [sumTo n f] is the sum of [f 0, ..., f (n - 1)]. *)
Fixpoint sumTo (n : nat) (f : nat → Qc) : Qc :=
  match n with
  | O => 0
  | S n => sumTo n f + f n
  end.

(** Row [r] of [a] applied to the vector [x]. *)
Definition rowDot (n : nat) (a : mat) (x : nat → Qc) (r : nat) : Qc :=
  sumTo n (λ c, at2 a r c * x c).

(** Every solution of [a·x = t·b] solves [a0·x = t·b0]. *)
Definition refines (n : nat) (a : mat) (b : vec) (a0 : mat) (b0 : vec) : Prop :=
  ∀ (x : nat → Qc) (t : Qc),
    (∀ r, (r < n)%nat → rowDot n a x r = t * rd b r) →
    (∀ r, (r < n)%nat → rowDot n a0 x r = t * rd b0 r).

(** Columns [0 .. i-1] of [a] are those of the identity. *)
Definition reducedTo (n i : nat) (a : mat) : Prop :=
  ∀ r c, (r < n)%nat → (c < i)%nat →
    at2 a r c = if decide (r = c) then 1 else 0.

(** [a] has a trivial kernel. *)
Definition regular (n : nat) (a : mat) : Prop :=
  ∀ x : nat → Qc,
    (∀ r, (r < n)%nat → rowDot n a x r = 0) → ∀ c, (c < n)%nat → x c = 0.

(** The state of the solver at the start of iteration [i], for the system
    [a0·x = b0]. *)
Definition solverInv (n : nat) (a0 : mat) (b0 : vec) (i : nat) (st : mat * vec) : Prop :=
  square n st.1 ∧ length st.2 = n ∧ reducedTo n i st.1 ∧ refines n st.1 st.2 a0 b0.

(** [a·x], each entry computed as the source computes the reactions. *)
Definition matVec (a : mat) (x : vec) : vec := rowTimes x <$> a.

(** [a·x = 0] only for [x = 0]. *)
Definition nonsingular (a : mat) : Prop :=
  ∀ x : vec, length x = length a →
    matVec a x = replicate (length a) 0 → x = replicate (length a) 0.

(** The intensity on [[x1, x2]] in the words of the design document: the sum
    of the intensities of the loads whose interval contains [[x1, x2]]. *)
Definition coveringIntensity (udls : list Udl.t) (x1 x2 : Qc) : Qc :=
  foldr (λ load acc,
           if decide (Udl.start load ≤ x1 ∧ x2 ≤ Udl.end_ load)
           then Udl.intensity load + acc else acc)
        0 udls.

(** The equivalent nodal loads [[wL/2, wL²/12, wL/2, −wL²/12]]. *)
Definition equivalentLoads (w L : Qc) : vec :=
  [ w * L / lit 2; w * L ^ 2 / lit 12; w * L / lit 2; - (w * L ^ 2 / lit 12) ].

(** What element [e] adds to [F[r]]. *)
Definition elementLoad (udls : list Udl.t) (nodes : vec) (e r : nat) : Qc :=
  let x1 := rd nodes e in
  let x2 := rd nodes (e + 1) in
  if decide (2 * e ≤ r < 2 * e + 4)%nat
  then rd (equivalentLoads (coveringIntensity udls x1 x2) (x2 - x1)) (r - 2 * e)
  else 0.

(** What element [e] adds to [K[r][c]]. *)
Definition elementStiffness (E I : Qc) (nodes : vec) (e r c : nat) : Qc :=
  let L := rd nodes (e + 1) - rd nodes e in
  if decide ((2 * e ≤ r < 2 * e + 4)%nat ∧ (2 * e ≤ c < 2 * e + 4)%nat)
  then at2 (beamElementStiffness E I L) (r - 2 * e) (c - 2 * e)
  else 0.

(** What the point loads add to [F[r]]. *)
Definition pointLoadAt (nodes : vec) (loads : list PointLoad.t) (r : nat) : Qc :=
  foldr (λ load acc,
           if decide ((λ k, (k * 2)%nat) <$> indexOf nodes (PointLoad.position load)
                      = Some r)
           then PointLoad.magnitude load + acc else acc)
        0 loads.

(** The objects below [n0] are those of [h0], and the rows of [a] are
    references at or above [n0]. *)
Definition framed (n0 : nat) (h0 h : Heap.heap) (a : Heap.loc) : Prop :=
  (n0 ≤ length h)%nat
  ∧ (∀ l, (l < n0)%nat → h !! l = h0 !! l)
  ∧ Forall (λ r, n0 ≤ r)%nat (Heap.rowsAt h a).

(** The store [h] holds the matrix [A] at [a] and the vector [B] at [b],
    in objects that are all distinct. *)
Definition represents (h : Heap.heap) (a b : Heap.loc) (A : mat) (B : vec) : Prop :=
  ∃ rs, Heap.rows h a = Some rs
    ∧ NoDup rs ∧ a ∉ rs ∧ b ∉ rs ∧ a ≠ b
    ∧ Forall2 (λ r v, Heap.numbers h r = Some v) rs A
    ∧ Heap.numbers h b = Some B.

(** ** Sample beams *)

(** A cantilever of unit length and unit rigidity, fixed at [0], with a tip
    load and a full-span distributed load. *)
Definition cantilever : Input.t :=
  Input.make 1 1 1 [Support.make 0 fixed]
             [PointLoad.make 1 (lit 3)] [Udl.make 0 1 (lit 2)].


(** A beam without any support or load. *)
Definition unsupported : Input.t := Input.make 1 1 1 [] [] [].

(** A beam fixed at both ends: no DOF is free. *)
Definition clamped : Input.t :=
  Input.make 1 1 1 [Support.make 0 fixed; Support.make 1 fixed] [] [].

(** A beam of span zero. *)
Definition zeroSpan : Input.t := Input.make 0 1 1 [] [] [].

(** ** Input normalisation *)

(** [Math.max] and [Math.min] of two numbers. *)
Module Math.
Definition max (a b : Qc) : Qc := if decide (a < b) then b else a.
Definition min (a b : Qc) : Qc := if decide (b < a) then b else a.
End Math.

(** [clamp]: [Math.min(Math.max(value, min), max)]. *)
Definition clamp (value min max : Qc) : Qc := Math.min (Math.max value min) max.

(** [Array.prototype.sort] with the comparator [(a, b) => key(a) - key(b)]:
    increasing in the key, and stable: elements of equal key keep their
    order.  The model is the insertion sort with these two properties. *)
Fixpoint insertBy {A} (key : A → Qc) (x : A) (l : list A) : list A :=
  match l with
  | [] => [x]
  | y :: l' => if decide (key y < key x) then y :: insertBy key x l' else x :: l
  end.

Definition sortBy {A} (key : A → Qc) (l : list A) : list A :=
  foldr (insertBy key) [] l.

(** The order of the sorted array. *)
Definition keyLe {A} (key : A → Qc) (a b : A) : Prop := key a ≤ key b.

(** The support with its position clamped to the span. *)
Definition clampSupport (span : Qc) (support : Support.t) : Support.t :=
  Support.make (clamp (Support.position support) 0 span) (Support.type support).

(** [normalizeSupports].  The positions are numbers here, so that
    [Number(support.position)] is the position itself. *)
Definition normalizeSupports (supports : list Support.t) (span : Qc)
    : list Support.t :=
  sortBy Support.position (clampSupport span <$> supports).

(** [normalizeLoads], at the key ['position'] with which the source calls
    it. *)
Definition normalizeLoads (loads : list PointLoad.t) (span : Qc)
    : list PointLoad.t :=
  sortBy PointLoad.position
    ((λ load, PointLoad.make (clamp (PointLoad.position load) 0 span)
                             (PointLoad.magnitude load)) <$> loads).

Definition normalizeUdls (udls : list Udl.t) (span : Qc) : list Udl.t :=
  sortBy Udl.start
    ((λ load,
        let start := clamp (Udl.start load) 0 span in
        let end_ := clamp (Udl.end_ load) 0 span in
        Udl.make (Math.min start end_) (Math.max start end_) (Udl.intensity load))
       <$> udls).

(** [buildSectionI]: [(width * Math.pow(depth, 3)) / 12]. *)
Definition buildSectionI (width depth : Qc) : Qc := (width * depth ^ 3) / lit 12.

(** ** Diagram builder *)

(** The counter [i] of a loop as a number. *)
Definition num (i : nat) : Qc := lit (Z.of_nat i).

(** [kLocal.map((row, i) =>
       row.reduce((sum, value, j) => sum + value * localDisp[j], 0) - fixedEnd[i])]. *)
Definition localForces (kLocal : mat) (localDisp fixedEnd : vec) : vec :=
  imap (λ i row, rowTimes localDisp row - rd fixedEnd i) kLocal.

(** The sample [i] of the element that starts at [x1] with length [L]. *)
Definition samplePoint (x1 L v1 t1 v2 t2 udlForElement V1 M1 : Qc)
    (sample i : nat) : Sample.t :=
  let x := (num i / num sample) * L in
  let xi := x / L in
  let N1 := 1 - lit 3 * xi * xi + lit 2 * xi * xi * xi in
  let N2 := L * (xi - lit 2 * xi * xi + xi * xi * xi) in
  let N3 := lit 3 * xi * xi - lit 2 * xi * xi * xi in
  let N4 := L * (- xi * xi + xi * xi * xi) in
  let deflection := N1 * v1 + N2 * t1 + N3 * v2 + N4 * t2 in
  let shear := V1 - udlForElement * x in
  let moment := M1 + V1 * x - (udlForElement * x * x) / lit 2 in
  Sample.make (x1 + x) deflection moment shear.

(** The samples [i = 0 .. sample] of the element [e]. *)
Definition elementSamples (E I : Qc) (udls : list Udl.t)
    (nodePositions displacements : vec) (sample e : nat) : list Sample.t :=
  let x1 := rd nodePositions e in
  let x2 := rd nodePositions (e + 1) in
  let L := x2 - x1 in
  let v1 := rd displacements (2 * e) in
  let t1 := rd displacements (2 * e + 1) in
  let v2 := rd displacements (2 * (e + 1)) in
  let t2 := rd displacements (2 * (e + 1) + 1) in
  let udlForElement := udlForElement udls x1 x2 in
  let kLocal := beamElementStiffness E I L in
  let localDisp := [v1; t1; v2; t2] in
  let fixedEnd := eqForces udlForElement L in
  let localForces := localForces kLocal localDisp fixedEnd in
  let V1 := rd localForces 0 in
  let M1 := rd localForces 1 in
  samplePoint x1 L v1 t1 v2 t2 udlForElement V1 M1 sample <$> seq 0 (sample + 1).

(** The body of the loop over the elements: an element of no length is
    skipped, the samples of another are pushed. *)
Definition diagramStep (E I : Qc) (udls : list Udl.t)
    (nodePositions displacements : vec) (sample : nat)
    (results : list Sample.t) (e : nat) : list Sample.t :=
  if decide (rd nodePositions (e + 1) - rd nodePositions e ≤ 0) then results
  else results ++ elementSamples E I udls nodePositions displacements sample e.

(** [results] after the loop over the elements. *)
Definition diagramLoop (nodePositions displacements : vec) (E I : Qc)
    (udls : list Udl.t) (sample : nat) : list Sample.t :=
  fold_left (diagramStep E I udls nodePositions displacements sample)
            (seq 0 (length nodePositions - 1)) [].

(** [results[results.length - 1].x = span]. *)
Definition setLastX (span : Qc) (results : list Sample.t) : list Sample.t :=
  if decide (0 < length results)%nat
  then alter (λ point, Sample.make span (Sample.deflection point)
                         (Sample.moment point) (Sample.shear point))
             (length results - 1)%nat results
  else results.

(** [buildDiagram]; [sample] is [80] unless the caller gives it.  The
    model is of a positive [sample]: with [sample = 0] the source divides
    zero by zero. *)
Definition buildDiagram (span : Qc) (nodePositions displacements : vec)
    (E I : Qc) (udls : list Udl.t) (sample : nat) : list Sample.t :=
  setLastX span (diagramLoop nodePositions displacements E I udls sample).

Definition defaultSample : nat := 80.

(** ** The pipeline of [App] *)

Section app.
Variables (span E width depth : Qc).
Variables (supports : list Support.t) (pointLoads : list PointLoad.t)
          (udls : list Udl.t).

Definition normalizedSupports : list Support.t := normalizeSupports supports span.
Definition normalizedPointLoads : list PointLoad.t := normalizeLoads pointLoads span.
Definition normalizedUdls : list Udl.t := normalizeUdls udls span.
Definition sectionI : Qc := buildSectionI width depth.

(** The argument of [assembleBeamModel]: the point loads come in kN and
    go on in N. *)
Definition modelInput : Input.t :=
  Input.make span E sectionI normalizedSupports
    ((λ load, PointLoad.make (PointLoad.position load)
                             (PointLoad.magnitude load * lit 1000))
       <$> normalizedPointLoads)
    ((λ load, Udl.make (Udl.start load) (Udl.end_ load) (Udl.intensity load))
       <$> normalizedUdls).

(** [beamResults]: the model and its diagrams. *)
Definition beamResults : completion (Model.t * list Sample.t) :=
  model ← assembleBeamModel modelInput;
  let diagrams :=
    buildDiagram span (Model.nodePositions model) (Model.displacements model)
      E sectionI
      ((λ load, Udl.make (Udl.start load) (Udl.end_ load) (Udl.intensity load))
         <$> normalizedUdls)
      defaultSample in
  Return (model, diagrams).


(** One entry of [supportReactions]: the support, its reaction and its
    moment. *)
Definition supportReaction (model : Model.t) (support : Support.t)
    : Support.t * Qc * Qc :=
  let nodeIndex := indexOf (Model.nodePositions model) (Support.position support) in
  let reaction :=
    match nodeIndex with
    | Some nodeIndex => rd (Model.reactions model) (nodeIndex * 2) / lit 1000
    | None => 0
    end in
  let moment :=
    match nodeIndex with
    | Some nodeIndex =>
        if decide (Support.type support = fixed)
        then rd (Model.reactions model) (nodeIndex * 2 + 1) / lit 1000000
        else 0
    | None => 0
    end in
  (support, reaction, moment).

Definition supportReactions (model : Model.t) : list (Support.t * Qc * Qc) :=
  supportReaction model <$> normalizedSupports.

(** [isCantileverStart] and [isCantileverEnd]. *)
Definition isCantileverStart : bool :=
  match normalizedSupports with
  | [] => true
  | first :: _ => bool_decide (0 < Support.position first)
  end.

Definition isCantileverEnd : bool :=
  match last normalizedSupports with
  | None => true
  | Some final => bool_decide (Support.position final < span)
  end.
End app.

(** ** The polyline of [Diagram] *)

Module Point.
Record t : Type := make { x : Qc; value : Qc }.
End Point.

Module Plot.
Definition width : Qc := lit 560.
Definition height : Qc := lit 160.
Definition padding : Qc := lit 20.

(** [Math.max(...values.map((value) => Math.abs(value)), 1e-6)]. *)
Definition maxAbs (data : list Point.t) : Qc :=
  foldr Math.max (1 / lit 1000000) (abs ∘ Point.value <$> data).

(** The coordinates of one point of the polyline, before they are
    written as text. *)
Definition point (data : list Point.t) (point : Point.t) : Qc * Qc :=
  let x := padding + (Point.x point / default 0 (Point.x <$> last data))
                     * (width - lit 2 * padding) in
  let y := height / lit 2
           - (Point.value point / maxAbs data) * (height / lit 2 - padding) in
  (x, y).

Definition points (data : list Point.t) : list (Qc * Qc) := point data <$> data.
End Plot.





(** ** Vocabulary of the further properties *)

(** The support [s], at node [k], constrains the DOF [i]. *)
Definition constrains (s : Support.t) (k i : nat) : Prop :=
  (Support.type s = fixed ∧ (i = (k * 2)%nat ∨ i = (k * 2 + 1)%nat))
  ∨ ((Support.type s = pinned ∨ Support.type s = roller) ∧ i = (k * 2)%nat).

(** The breakpoints of an input: the values the mesh is built from. *)
Definition breakpoints (inp : Input.t) : vec :=
  0 :: Input.span inp
    :: (Support.position <$> Input.supports inp)
    ++ (PointLoad.position <$> Input.pointLoads inp)
    ++ (Input.udls inp ≫= λ load, [Udl.start load; Udl.end_ load]).


(** The rigid motion of the beam with vertical displacement [α + β·x] and
    rotation [β] at the position [x], read at the DOF [i]: the vertical
    DOF of node [k] is [2k], its rotation [2k + 1]. *)
Definition rigid (α β : Qc) (nodes : vec) (i : nat) : Qc :=
  if Nat.even i then α + β * rd nodes (i / 2) else β.

(** The work of the nodal forces [v] in that rigid motion: the sum over the
    nodes of [(α + β·x)·v[2k] + β·v[2k+1]].  With [α = 1, β = 0] it is the
    sum of the vertical forces, with [α = 0, β = 1] the sum of their moments
    about the origin and of the nodal moments. *)
Definition rigidWork (α β : Qc) (nodes : vec) (v : vec) : Qc :=
  sumTo (length nodes)
    (λ k, (α + β * rd nodes k) * rd v (2 * k) + β * rd v (2 * k + 1)).

(** The resultant of the applied loads: the point loads, and every
    distributed load over its length (nothing when its end is before its
    start). *)
Definition distributedResultant (load : Udl.t) : Qc :=
  if decide (Udl.start load ≤ Udl.end_ load)
  then Udl.intensity load * (Udl.end_ load - Udl.start load) else 0.

Definition totalLoad (inp : Input.t) : Qc :=
  foldr (λ load acc, PointLoad.magnitude load + acc) 0 (Input.pointLoads inp)
  + foldr (λ load acc, distributedResultant load + acc) 0 (Input.udls inp).

(** The moment of the applied loads about the origin. *)
Definition distributedMoment (load : Udl.t) : Qc :=
  if decide (Udl.start load ≤ Udl.end_ load)
  then Udl.intensity load
       * ((Udl.end_ load * Udl.end_ load - Udl.start load * Udl.start load) / lit 2)
  else 0.

Definition totalMoment (inp : Input.t) : Qc :=
  foldr (λ load acc, PointLoad.position load * PointLoad.magnitude load + acc) 0
        (Input.pointLoads inp)
  + foldr (λ load acc, distributedMoment load + acc) 0 (Input.udls inp).

(** The work of a rigid motion against a unit load spread from the origin
    to the abscissa [x]: the work against a uniform load between two
    abscissae is its intensity times the difference of the values there. *)
Definition rigidPotential (α β x : Qc) : Qc := α * x + β * (x * x / lit 2).

(** * Properties *)

(** ** Element stiffness *)

Lemma symmetric_beamElementStiffness E I L : symmetric (beamElementStiffness E I L).
Proof.
  intros i j.
  destruct i as [|[|[|[|i]]]]; destruct j as [|[|[|[|j]]]]; reflexivity.
Qed.

(** C7: for a length [L > 0] the element stiffness matrix is exactly
    [E·I / L³] times the standard Euler-Bernoulli matrix, and it is
    symmetric. *)
Theorem beamElementStiffness_standard (E I L : Qc) :
  0 < L →
  beamElementStiffness E I L = scaleMat (E * I / L ^ 3) (standardStiffness L)
  ∧ symmetric (beamElementStiffness E I L).
Proof.
  intros _. split; [|apply symmetric_beamElementStiffness].
  unfold beamElementStiffness, scaleMat, standardStiffness; simpl.
  repeat match goal with |- _ :: _ = _ :: _ => f_equal end; ring.
Qed.

Lemma beamElementStiffness_standard_witness :
  0 < lit 2 ∧
  beamElementStiffness (lit 3) (lit 5) (lit 2)
    = scaleMat (lit 3 * lit 5 / lit 2 ^ 3) (standardStiffness (lit 2))
  ∧ symmetric (beamElementStiffness (lit 3) (lit 5) (lit 2)).
Proof.
  split; [compute_done|].
  apply (beamElementStiffness_standard (lit 3) (lit 5) (lit 2)). compute_done.
Defined.

(** ** Extrema finder *)

Section extrema.
Variable key : sampleKey.

Lemma extremaStep_min acc p :
  Extrema.min (extremaStep key acc p)
    = (if decide (field p key < Extrema.min acc) then field p key else Extrema.min acc)
  ∧ Extrema.minX (extremaStep key acc p)
    = (if decide (field p key < Extrema.min acc) then Sample.x p else Extrema.minX acc).
Proof. unfold extremaStep. repeat case_decide; done. Qed.

Lemma extremaStep_max acc p :
  Extrema.max (extremaStep key acc p)
    = (if decide (Extrema.max acc < field p key) then field p key else Extrema.max acc)
  ∧ Extrema.maxX (extremaStep key acc p)
    = (if decide (Extrema.max acc < field p key) then Sample.x p else Extrema.maxX acc).
Proof. unfold extremaStep. repeat case_decide; done. Qed.

(** One more sample keeps the running minimum a first minimum. *)
Lemma firstMin_snoc pre acc p :
  firstMin pre key (Extrema.min acc) (Extrema.minX acc) →
  firstMin (pre ++ [p]) key (Extrema.min (extremaStep key acc p))
                            (Extrema.minX (extremaStep key acc p)).
Proof.
  intros (i & p0 & Hi & Hv & Hx & Hlow & Hfirst).
  destruct (extremaStep_min acc p) as [-> ->].
  case_decide as Hlt.
  - exists (length pre), p. repeat split.
    + by rewrite lookup_app_r, Nat.sub_diag.
    + intros q [Hq | ->%list_elem_of_singleton]%elem_of_app; [|apply Qcle_refl].
      apply Qclt_le_weak, Qclt_le_trans with (Extrema.min acc); auto.
    + intros j q Hj Hq. rewrite lookup_app_l in Hq by done.
      apply Qclt_le_trans with (Extrema.min acc); [done|].
      apply Hlow. by eapply list_elem_of_lookup_2.
  - exists i, p0. repeat split; try done.
    + apply lookup_app_l_Some, Hi.
    + intros q [Hq | ->%list_elem_of_singleton]%elem_of_app; [by apply Hlow|].
      by apply Qcnot_lt_le.
    + intros j q Hj Hq. apply (Hfirst j); [done|].
      apply lookup_lt_Some in Hi. rewrite lookup_app_l in Hq by lia. done.
Qed.

Lemma firstMax_snoc pre acc p :
  firstMax pre key (Extrema.max acc) (Extrema.maxX acc) →
  firstMax (pre ++ [p]) key (Extrema.max (extremaStep key acc p))
                            (Extrema.maxX (extremaStep key acc p)).
Proof.
  intros (i & p0 & Hi & Hv & Hx & Hup & Hfirst).
  destruct (extremaStep_max acc p) as [-> ->].
  case_decide as Hlt.
  - exists (length pre), p. repeat split.
    + by rewrite lookup_app_r, Nat.sub_diag.
    + intros q [Hq | ->%list_elem_of_singleton]%elem_of_app; [|apply Qcle_refl].
      apply Qclt_le_weak, Qcle_lt_trans with (Extrema.max acc); auto.
    + intros j q Hj Hq. rewrite lookup_app_l in Hq by done.
      apply Qcle_lt_trans with (Extrema.max acc); [|done].
      apply Hup. by eapply list_elem_of_lookup_2.
  - exists i, p0. repeat split; try done.
    + apply lookup_app_l_Some, Hi.
    + intros q [Hq | ->%list_elem_of_singleton]%elem_of_app; [by apply Hup|].
      by apply Qcnot_lt_le.
    + intros j q Hj Hq. apply (Hfirst j); [done|].
      apply lookup_lt_Some in Hi. rewrite lookup_app_l in Hq by lia. done.
Qed.

Lemma extrema_fold rest : ∀ pre acc,
  firstMin pre key (Extrema.min acc) (Extrema.minX acc) →
  firstMax pre key (Extrema.max acc) (Extrema.maxX acc) →
  let r := fold_left (extremaStep key) rest acc in
  firstMin (pre ++ rest) key (Extrema.min r) (Extrema.minX r)
  ∧ firstMax (pre ++ rest) key (Extrema.max r) (Extrema.maxX r).
Proof.
  induction rest as [|p rest IH]; intros pre acc Hmin Hmax; simpl.
  - by rewrite app_nil_r.
  - rewrite (assoc_L (++) pre [p] rest : pre ++ p :: rest = (pre ++ [p]) ++ rest).
    apply IH; [by apply firstMin_snoc | by apply firstMax_snoc].
Qed.

(** The reducer visits [data[0]] again, which changes nothing: the
    comparisons are strict. *)
Lemma extremaStep_first first :
  let acc := Extrema.make (field first key) (Sample.x first)
                          (field first key) (Sample.x first) in
  extremaStep key acc first = acc.
Proof.
  simpl. unfold extremaStep; simpl.
  destruct (decide (field first key < field first key)) as [H|_];
    [by destruct (Qclt_not_eq _ _ H)|]; simpl.
  destruct (decide (field first key < field first key)) as [H|_];
    [by destruct (Qclt_not_eq _ _ H)|]. done.
Qed.
End extrema.

(** C9: the extrema finder returns the least and the greatest value of the
    series, each with the position of the first sample that attains it, and
    the record of zeros on the empty series. *)
Theorem findExtrema_first_extrema (key : sampleKey) :
  findExtrema [] key = Extrema.make 0 0 0 0
  ∧ ∀ first rest,
      let data := first :: rest in
      let r := findExtrema data key in
      firstMin data key (Extrema.min r) (Extrema.minX r)
      ∧ firstMax data key (Extrema.max r) (Extrema.maxX r).
Proof.
  split; [done|]. intros first rest. simpl.
  rewrite extremaStep_first.
  apply (extrema_fold key rest [first]); simpl.
  - exists 0%nat, first. repeat split; try done.
    + intros q ->%list_elem_of_singleton. apply Qcle_refl.
    + lia.
  - exists 0%nat, first. repeat split; try done.
    + intros q ->%list_elem_of_singleton. apply Qcle_refl.
    + lia.
Qed.

(** ** Mesh builder *)

Lemma setOf_fold (values : vec) : ∀ acc : vec,
  NoDup acc →
  let s := fold_left (λ acc value, if decide (value ∈ acc) then acc else acc ++ [value])
                     values acc in
  NoDup s ∧ ∀ x, x ∈ s ↔ x ∈ acc ∨ x ∈ values.
Proof.
  induction values as [|v values IH]; intros acc Hacc; simpl.
  - split; [done|]. intros x. rewrite elem_of_nil. tauto.
  - case_decide as Hv.
    + destruct (IH acc Hacc) as [Hnd Hin]. split; [done|].
      intros x. rewrite Hin, elem_of_cons. split; [tauto|].
      intros [?|[->|?]]; auto.
    + destruct (IH (acc ++ [v])) as [Hnd Hin].
      { apply NoDup_app. repeat split; [done| |apply NoDup_singleton].
        intros x Hx ->%list_elem_of_singleton. done. }
      split; [done|]. intros x.
      rewrite Hin, elem_of_app, list_elem_of_singleton, elem_of_cons. tauto.
Qed.

Lemma NoDup_setOf values : NoDup (setOf values).
Proof. apply (setOf_fold values []), NoDup_nil_2. Qed.

Lemma elem_of_setOf values x : x ∈ setOf values ↔ x ∈ values.
Proof.
  unfold setOf. destruct (setOf_fold values [] (NoDup_nil_2)) as [_ ->].
  rewrite elem_of_nil. tauto.
Qed.

Lemma uniqueSorted_Permutation values : uniqueSorted values ≡ₚ setOf values.
Proof. apply merge_sort_Permutation. Qed.

Lemma elem_of_uniqueSorted values x : x ∈ uniqueSorted values ↔ x ∈ values.
Proof. by rewrite uniqueSorted_Permutation, elem_of_setOf. Qed.

Lemma NoDup_uniqueSorted values : NoDup (uniqueSorted values).
Proof. rewrite uniqueSorted_Permutation. apply NoDup_setOf. Qed.

(** A duplicate-free list in increasing order is in strictly increasing
    order. *)
Lemma StronglySorted_le_lt (l : vec) :
  NoDup l → StronglySorted Qcle l → StronglySorted Qclt l.
Proof.
  induction 2 as [|x l Hl IH Hx]; constructor.
  - apply IH. by eapply NoDup_cons_1_2.
  - apply NoDup_cons in H as [Hnotin _].
    rewrite Forall_forall in Hx |- *. intros y Hy.
    destruct (Qcle_lt_or_eq _ _ (Hx y Hy)) as [?| ->]; done.
Qed.

Lemma StronglySorted_uniqueSorted values : StronglySorted Qclt (uniqueSorted values).
Proof.
  apply StronglySorted_le_lt; [apply NoDup_uniqueSorted|].
  apply (StronglySorted_merge_sort Qcle).
Qed.

(** C4: the node positions are strictly increasing, without duplicates, and
    contain 0, the span and every support and load breakpoint. *)
Theorem nodePositions_breakpoints (inp : Input.t) :
  StronglySorted Qclt (nodePositions inp)
  ∧ NoDup (nodePositions inp)
  ∧ 0 ∈ nodePositions inp
  ∧ Input.span inp ∈ nodePositions inp
  ∧ (∀ s, s ∈ Input.supports inp → Support.position s ∈ nodePositions inp)
  ∧ (∀ p, p ∈ Input.pointLoads inp → PointLoad.position p ∈ nodePositions inp)
  ∧ (∀ u, u ∈ Input.udls inp →
       Udl.start u ∈ nodePositions inp ∧ Udl.end_ u ∈ nodePositions inp).
Proof.
  unfold nodePositions.
  split; [apply StronglySorted_uniqueSorted|].
  split; [apply NoDup_uniqueSorted|].
  repeat split; intros; rewrite elem_of_uniqueSorted, !elem_of_cons, !elem_of_app;
    auto.
  - do 2 right. left. by apply list_elem_of_fmap_2.
  - do 3 right. left. by apply list_elem_of_fmap_2.
  - do 3 right. right. apply list_elem_of_bind. exists u. split; [|done].
    apply elem_of_cons. by left.
  - do 3 right. right. apply list_elem_of_bind. exists u. split; [|done].
    apply elem_of_cons. right. apply elem_of_cons. by left.
Qed.

(** ** Arrays: reads after writes *)

Lemma rd_insert (v : vec) i j x :
  (i < length v)%nat → rd (<[i := x]> v) j = if decide (j = i) then x else rd v j.
Proof.
  intros Hi. unfold rd. case_decide as Hj.
  - subst. by rewrite list_lookup_insert_eq.
  - by rewrite list_lookup_insert_ne.
Qed.

Lemma rd_ge (v : vec) i : (length v ≤ i)%nat → rd v i = 0.
Proof. intros Hi. unfold rd. by rewrite lookup_ge_None_2. Qed.

Lemma rd_replicate n i : rd (replicate n 0) i = 0.
Proof.
  unfold rd. destruct (replicate n 0 !! i) as [x|] eqn:Hx; [|done].
  by apply lookup_replicate in Hx as [-> _].
Qed.

Lemma row_length n a k : square n a → (k < n)%nat → length (row a k) = n.
Proof.
  intros [Hlen Hrows] Hk. unfold row.
  destruct (lookup_lt_is_Some_2 a k) as [r Hr]; [lia|]. rewrite Hr; simpl.
  by eapply (Forall_lookup_1 _ _ _ _ Hrows).
Qed.

Lemma at2_ge_col n a k i : square n a → (n ≤ i)%nat → at2 a k i = 0.
Proof.
  intros Ha Hi. unfold at2. destruct (decide (k < n)%nat).
  - apply rd_ge. by rewrite (row_length n).
  - unfold row. destruct Ha as [Hlen _]. by rewrite lookup_ge_None_2 by lia.
Qed.

Lemma at2_ge_row n a k i : square n a → (n ≤ k)%nat → at2 a k i = 0.
Proof.
  intros [Hlen _] Hk. unfold at2, row. by rewrite lookup_ge_None_2 by lia.
Qed.

Lemma square_set2 n a k j x : square n a → square n (set2 a k j x).
Proof.
  intros Ha. pose proof Ha as [Hlen Hrows]. unfold set2. split.
  - by rewrite length_insert.
  - destruct (decide (k < n)%nat) as [Hk|Hk].
    + apply Forall_insert; [done|]. rewrite length_insert. by apply row_length.
    + by rewrite list_insert_ge by lia.
Qed.

Lemma at2_set2 n a k j x r c :
  square n a → (k < n)%nat → (j < n)%nat →
  at2 (set2 a k j x) r c = if decide (r = k ∧ c = j) then x else at2 a r c.
Proof.
  intros Ha Hk Hj. pose proof Ha as [Hlen _]. unfold at2 at 1, set2, row at 1.
  destruct (decide (r = k)) as [->|Hr].
  - rewrite list_lookup_insert_eq by lia. simpl.
    rewrite rd_insert by (by rewrite (row_length n)).
    repeat case_decide; naive_solver.
  - rewrite list_lookup_insert_ne by done.
    case_decide; [naive_solver|done].
Qed.

Lemma length_swap {A} (l : list A) i j : length (swap l i j) = length l.
Proof.
  unfold swap. destruct (l !! i), (l !! j); try done. by rewrite !length_insert.
Qed.

Lemma lookup_swap {A} (l : list A) i j k :
  (i < length l)%nat → (j < length l)%nat →
  swap l i j !! k = l !! transpose i j k.
Proof.
  intros Hi Hj. unfold swap, transpose.
  destruct (lookup_lt_is_Some_2 l i Hi) as [x Hx].
  destruct (lookup_lt_is_Some_2 l j Hj) as [y Hy]. rewrite Hx, Hy.
  destruct (decide (k = j)) as [->|Hkj].
  - rewrite list_lookup_insert_eq by (by rewrite length_insert).
    case_decide; congruence.
  - rewrite list_lookup_insert_ne by done.
    destruct (decide (k = i)) as [->|Hki].
    + by rewrite list_lookup_insert_eq.
    + by rewrite list_lookup_insert_ne.
Qed.

Lemma transpose_lt i j k n :
  (i < n)%nat → (j < n)%nat → (k < n)%nat → (transpose i j k < n)%nat.
Proof. unfold transpose. intros. repeat case_decide; lia. Qed.

Lemma transpose_involutive i j k : transpose i j (transpose i j k) = k.
Proof. unfold transpose. repeat case_decide; congruence. Qed.

Lemma square_swap n a i j : square n a → square n (swap a i j).
Proof.
  intros [Hlen Hrows]. split; [by rewrite length_swap|].
  unfold swap. destruct (a !! i) as [x|] eqn:Hx, (a !! j) as [y|] eqn:Hy; try done.
  apply Forall_insert; [apply Forall_insert; [done|]|].
  - by eapply (Forall_lookup_1 _ _ _ _ Hrows).
  - by eapply (Forall_lookup_1 _ _ _ _ Hrows).
Qed.

Lemma at2_swap n a i j r c :
  square n a → (i < n)%nat → (j < n)%nat →
  at2 (swap a i j) r c = at2 a (transpose i j r) c.
Proof.
  intros [Hlen _] Hi Hj. unfold at2, row. by rewrite lookup_swap by lia.
Qed.

Lemma rd_swap (v : vec) i j r :
  (i < length v)%nat → (j < length v)%nat →
  rd (swap v i j) r = rd v (transpose i j r).
Proof. intros Hi Hj. unfold rd. by rewrite lookup_swap. Qed.

(** A loop that rewrites the entries of row [k] column by column, each new
    entry computed from the entries of its own column. *)
Lemma fold_row_update n k (g : mat → nat → Qc) (js : list nat) : ∀ a,
  square n a → (k < n)%nat → NoDup js → Forall (λ j, j < n)%nat js →
  (∀ a' a'' j, (∀ r, at2 a' r j = at2 a'' r j) → g a' j = g a'' j) →
  let res := fold_left (λ a j, set2 a k j (g a j)) js a in
  square n res
  ∧ ∀ r c, at2 res r c = if decide (r = k ∧ c ∈ js) then g a c else at2 a r c.
Proof.
  induction js as [|j js IH]; intros a Ha Hk Hnd Hjs Hg; simpl.
  - split; [done|]. intros r c. case_decide as H; [|done].
    destruct H as [_ H]. by apply elem_of_nil in H.
  - apply NoDup_cons in Hnd as [Hj Hnd]. apply Forall_cons in Hjs as [Hjn Hjs].
    destruct (IH (set2 a k j (g a j))) as [Hsq Hat]; auto using square_set2.
    split; [done|]. intros r c. rewrite Hat.
    destruct (decide (r = k ∧ c ∈ js)) as [[-> Hc]|Hn].
    + rewrite decide_True by (split; [done|by right]).
      apply Hg. intros r. rewrite (at2_set2 n) by done.
      case_decide as H; [|done]. destruct H as [_ ->]. done.
    + rewrite (at2_set2 n) by done.
      destruct (decide (r = k ∧ c = j)) as [[-> ->]|Hn'].
      * rewrite decide_True; [done|]. split; [done|by left].
      * rewrite decide_False; [done|].
        intros [-> [->|?]%elem_of_cons]; naive_solver.
Qed.

(** ** Finite sums *)

Lemma sumTo_ext n f g :
  (∀ j, (j < n)%nat → f j = g j) → sumTo n f = sumTo n g.
Proof.
  induction n as [|n IH]; intros H; simpl; [done|].
  rewrite IH, H by auto with lia. done.
Qed.

Lemma sumTo_zero n : sumTo n (λ _, 0) = 0.
Proof. induction n as [|n IH]; simpl; [done|]. rewrite IH. ring. Qed.

Lemma sumTo_plus n f g : sumTo n (λ j, f j + g j) = sumTo n f + sumTo n g.
Proof. induction n as [|n IH]; simpl; [ring|]. rewrite IH. ring. Qed.

Lemma sumTo_scale n c f : sumTo n (λ j, c * f j) = c * sumTo n f.
Proof. induction n as [|n IH]; simpl; [ring|]. rewrite IH. ring. Qed.

(** A sum with a single non-zero term. *)
Lemma sumTo_single n k f :
  sumTo n (λ j, if decide (j = k) then f j else 0)
    = if decide (k < n)%nat then f k else 0.
Proof.
  induction n as [|n IH].
  - cbn [sumTo]. case_decide; [lia|done].
  - cbn [sumTo]. rewrite IH. repeat case_decide; subst; try lia; ring.
Qed.

(** The term of index [k] taken out of a sum. *)
Lemma sumTo_split n k f :
  (k < n)%nat →
  sumTo n f = sumTo n (λ j, if decide (j = k) then 0 else f j) + f k.
Proof.
  intros Hk.
  rewrite (sumTo_ext n f (λ j, (if decide (j = k) then 0 else f j)
                               + (if decide (j = k) then f j else 0))).
  - rewrite sumTo_plus, sumTo_single, decide_True by done. done.
  - intros j _. case_decide; ring.
Qed.

(** The reduction of [rowTimes] computes the dot product. *)
Lemma rowTimes_sumTo (d row : vec) :
  rowTimes d row = sumTo (length row) (λ j, rd row j * rd d j).
Proof.
  unfold rowTimes. induction row as [|x row IH] using rev_ind; [done|].
  rewrite imap_app, fold_left_app, IH, length_app, Nat.add_comm. simpl.
  rewrite Nat.add_0_r. f_equal.
  - apply sumTo_ext. intros j Hj. unfold rd at 1 3. by rewrite lookup_app_l.
  - unfold rd at 2. by rewrite lookup_app_r, Nat.sub_diag.
Qed.

(** ** The linear solver on a square system *)

Section solver.
Variable n : nat.

Lemma refines_refl a b : refines n a b a b.
Proof. by intros x t H. Qed.

Lemma refines_trans a b a1 b1 a0 b0 :
  refines n a b a1 b1 → refines n a1 b1 a0 b0 → refines n a b a0 b0.
Proof. intros H1 H2 x t H. by apply H2, H1. Qed.

(** *** Pivot search *)

Lemma selectPivotRow_fold a i ks : ∀ m,
  let m' := fold_left
    (λ maxRow k, if decide (abs (at2 a maxRow i) < abs (at2 a k i)) then k else maxRow)
    ks m in
  (m' = m ∨ m' ∈ ks)
  ∧ abs (at2 a m i) ≤ abs (at2 a m' i)
  ∧ ∀ k, k ∈ ks → abs (at2 a k i) ≤ abs (at2 a m' i).
Proof.
  induction ks as [|k ks IH]; intros m; simpl.
  - split; [by left|]. split; [apply Qcle_refl|]. by intros k ?%elem_of_nil.
  - case_decide as Hlt.
    + destruct (IH k) as (Hm & Hge & Hall). split; [|split].
      * destruct Hm as [->|?]; right; [by left|by right].
      * eapply Qcle_trans; [apply Qclt_le_weak, Hlt|done].
      * intros k' [->|?]%elem_of_cons; auto.
    + destruct (IH m) as (Hm & Hge & Hall). split; [|split].
      * destruct Hm as [->|?]; [by left|right; by right].
      * done.
      * intros k' [->|?]%elem_of_cons; [|auto].
        eapply Qcle_trans; [apply Qcnot_lt_le, Hlt|done].
Qed.

Lemma selectPivotRow_spec a i :
  (i < n)%nat →
  let m := selectPivotRow n a i in
  (i ≤ m < n)%nat
  ∧ ∀ k, (i ≤ k < n)%nat → abs (at2 a k i) ≤ abs (at2 a m i).
Proof.
  intros Hi. unfold selectPivotRow.
  destruct (selectPivotRow_fold a i (seq (i + 1) (n - (i + 1))) i) as (Hm & Hge & Hall).
  split.
  - destruct Hm as [->|Hm%elem_of_seq]; lia.
  - intros k Hk. destruct (decide (k = i)) as [->|Hne]; [done|].
    apply Hall, elem_of_seq. lia.
Qed.
(** *** The three row operations, entry by entry *)

Lemma elem_of_seq_from i c : c ∈ seq i (n - i) ↔ (i ≤ c < n)%nat.
Proof. rewrite elem_of_seq. lia. Qed.

Lemma Forall_seq_lt i : Forall (λ j, j < n)%nat (seq i (n - i)).
Proof. apply Forall_forall. intros j Hj%elem_of_seq_from. lia. Qed.

Lemma scaleRow_spec a i p :
  square n a → (i < n)%nat →
  square n (scaleRow n i p a)
  ∧ ∀ r c, at2 (scaleRow n i p a) r c
           = if decide (r = i ∧ (i ≤ c < n)%nat) then at2 a i c / p else at2 a r c.
Proof.
  intros Ha Hi.
  destruct (fold_row_update n i (λ a j, at2 a i j / p) (seq i (n - i)) a)
    as [Hsq Hat]; auto using NoDup_seq, Forall_seq_lt.
  { intros a' a'' j H. by rewrite H. }
  split; [done|]. intros r c. unfold scaleRow. rewrite Hat.
  apply decide_ext. by rewrite elem_of_seq_from.
Qed.

Lemma eliminateRow_spec a b i k a' b' :
  square n a → length b = n → (i < n)%nat → (k < n)%nat → k ≠ i →
  eliminateRow n i k (a, b) = (a', b') →
  square n a' ∧ length b' = n
  ∧ (∀ r c, at2 a' r c
            = if decide (r = k ∧ (i ≤ c < n)%nat)
              then at2 a k c - at2 a k i * at2 a i c else at2 a r c)
  ∧ (∀ r, rd b' r = if decide (r = k) then rd b k - at2 a k i * rd b i else rd b r).
Proof.
  intros Ha Hb Hi Hk Hne [= <- <-].
  destruct (fold_row_update n k (λ a' j, at2 a' k j - at2 a k i * at2 a' i j)
              (seq i (n - i)) a) as [Hsq Hat]; auto using NoDup_seq, Forall_seq_lt.
  { intros a1 a2 j H. by rewrite !H. }
  split; [done|]. split; [by rewrite length_insert|]. split.
  - intros r c. rewrite Hat. apply decide_ext. by rewrite elem_of_seq_from.
  - intros r. by rewrite rd_insert by lia.
Qed.

Lemma eliminate_fold i ks : ∀ a b a' b',
  square n a → length b = n → (i < n)%nat →
  NoDup ks → Forall (λ k, k < n)%nat ks →
  fold_left (λ st k, if decide (k = i) then st else eliminateRow n i k st) ks (a, b)
    = (a', b') →
  square n a' ∧ length b' = n
  ∧ (∀ r c, at2 a' r c
            = if decide (r ∈ ks ∧ r ≠ i ∧ (i ≤ c < n)%nat)
              then at2 a r c - at2 a r i * at2 a i c else at2 a r c)
  ∧ (∀ r, rd b' r
          = if decide (r ∈ ks ∧ r ≠ i) then rd b r - at2 a r i * rd b i else rd b r).
Proof.
  induction ks as [|k ks IH]; intros a b a' b' Ha Hb Hi Hnd Hks; cbn [fold_left].
  - intros [= <- <-]. by split_and!.
  - apply NoDup_cons in Hnd as [Hk Hnd]. apply Forall_cons in Hks as [Hkn Hks].
    destruct (decide (k = i)) as [->|Hne].
    + intros Hfold. destruct (IH _ _ _ _ Ha Hb Hi Hnd Hks Hfold) as (? & ? & Hat & Hrd).
      split_and!; try done.
      * intros r c. rewrite Hat. apply decide_ext. rewrite elem_of_cons. clear IH. intuition (auto; congruence).
      * intros r. rewrite Hrd. apply decide_ext. rewrite elem_of_cons. clear IH. intuition (auto; congruence).
    + destruct (eliminateRow n i k (a, b)) as [a1 b1] eqn:Hstep.
      destruct (eliminateRow_spec _ _ _ _ _ _ Ha Hb Hi Hkn Hne Hstep)
        as (Ha1 & Hb1 & Hat1 & Hrd1).
      intros Hfold. destruct (IH _ _ _ _ Ha1 Hb1 Hi Hnd Hks Hfold) as (? & ? & Hat & Hrd).
      split_and!; try done.
      * intros r c. rewrite Hat, !Hat1.
        rewrite (decide_False (P := i = k ∧ _)) by (clear -Hne; intuition congruence).
        destruct (decide (r = k)) as [->|Hrk].
        -- rewrite (decide_False (P := k ∈ ks ∧ _)) by (clear -Hk; intuition congruence).
           apply decide_ext. rewrite elem_of_cons. clear IH. intuition (auto; congruence).
        -- rewrite !(decide_False (P := r = k ∧ _)) by (clear -Hrk; intuition congruence).
           apply decide_ext. rewrite elem_of_cons. clear IH. intuition (auto; congruence).
      * intros r. rewrite Hrd, !Hrd1, !Hat1.
        rewrite (decide_False (P := i = k)) by done.
        destruct (decide (r = k)) as [->|Hrk].
        -- rewrite (decide_False (P := k ∈ ks ∧ _)) by (clear -Hk; intuition congruence).
           rewrite decide_True; [done|]. split; [by left|done].
        -- rewrite !(decide_False (P := r = k ∧ _)) by (clear -Hrk; intuition congruence).
           apply decide_ext. rewrite elem_of_cons. clear IH. intuition (auto; congruence).
Qed.
(** *** The row operations keep the solutions *)

Lemma rowDot_ext a a' x r :
  (∀ c, (c < n)%nat → at2 a r c = at2 a' r c) → rowDot n a x r = rowDot n a' x r.
Proof. intros H. apply sumTo_ext. intros c Hc. by rewrite H. Qed.

(** The state after the exchange of the rows [i] and [m] (none if [m = i]). *)
Lemma exchange_spec a b i m a1 b1 :
  square n a → length b = n → (i < n)%nat → (m < n)%nat →
  (if decide (m ≠ i) then (swap a i m, swap b i m) else (a, b)) = (a1, b1) →
  square n a1 ∧ length b1 = n
  ∧ (∀ r c, at2 a1 r c = at2 a (transpose i m r) c)
  ∧ (∀ r, rd b1 r = rd b (transpose i m r)).
Proof.
  intros Ha Hb Hi Hm. case_decide as Hne; intros [= <- <-].
  - split_and!.
    + by apply square_swap.
    + by rewrite length_swap.
    + intros r c. by apply (at2_swap n).
    + intros r. apply rd_swap; lia.
  - subst m. split_and!; try done.
    + intros r c. f_equal. unfold transpose. repeat case_decide; congruence.
    + intros r. f_equal. unfold transpose. repeat case_decide; congruence.
Qed.

Lemma refines_exchange a b i m a1 b1 :
  (i < n)%nat → (m < n)%nat →
  (∀ r c, at2 a1 r c = at2 a (transpose i m r) c) →
  (∀ r, rd b1 r = rd b (transpose i m r)) →
  refines n a1 b1 a b.
Proof.
  intros Hi Hm Hat Hrd x t H r Hr.
  specialize (H (transpose i m r) (transpose_lt _ _ _ _ Hi Hm Hr)).
  rewrite Hrd, transpose_involutive in H. rewrite <- H.
  apply sumTo_ext. intros c _. by rewrite Hat, transpose_involutive.
Qed.

(** Row [i] divided by [p ≠ 0], together with [b[i]]. *)
Lemma refines_scale a b i p a2 :
  length b = n → (i < n)%nat → p ≠ 0 →
  (∀ r c, at2 a2 r c = if decide (r = i) then at2 a i c / p else at2 a r c) →
  refines n a2 (<[i := rd b i / p]> b) a b.
Proof.
  intros Hb Hi Hp Hat x t H r Hr. specialize (H r Hr).
  rewrite rd_insert in H by lia.
  destruct (decide (r = i)) as [->|Hne].
  - unfold rowDot in H |- *.
    rewrite (sumTo_ext _ _ (λ c, / p * (at2 a i c * x c))) in H.
    2:{ intros c _. rewrite Hat, decide_True by done. unfold Qcdiv. ring. }
    rewrite sumTo_scale in H.
    replace (sumTo n (λ c, at2 a i c * x c))
      with (p * (/ p * sumTo n (λ c, at2 a i c * x c))) by (field; done).
    rewrite H. field. done.
  - rewrite <- H. apply rowDot_ext. intros c _.
    by rewrite Hat, decide_False.
Qed.

(** Each row [r ≠ i] less [a[r][i]] times row [i], together with [b]. *)
Lemma refines_eliminate a b i a3 b3 :
  (i < n)%nat →
  (∀ r c, (r < n)%nat →
     at2 a3 r c = if decide (r = i) then at2 a i c
                  else at2 a r c - at2 a r i * at2 a i c) →
  (∀ r, (r < n)%nat →
     rd b3 r = if decide (r = i) then rd b i else rd b r - at2 a r i * rd b i) →
  refines n a3 b3 a b.
Proof.
  intros Hi Hat Hrd x t H r Hr.
  pose proof (H i Hi) as Hrow. rewrite Hrd, decide_True in Hrow by done.
  rewrite (rowDot_ext a3 a x i) in Hrow.
  2:{ intros c _. by rewrite Hat, decide_True. }
  destruct (decide (r = i)) as [->|Hne]; [done|].
  specialize (H r Hr). rewrite Hrd, decide_False in H by done.
  unfold rowDot in H, Hrow |- *.
  rewrite (sumTo_ext _ _ (λ c, at2 a r c * x c + - at2 a r i * (at2 a i c * x c))) in H.
  2:{ intros c _. rewrite Hat, decide_False by done. ring. }
  rewrite sumTo_plus, sumTo_scale, Hrow in H.
  replace (sumTo n (λ c, at2 a r c * x c))
    with (sumTo n (λ c, at2 a r c * x c) + - at2 a r i * (t * rd b i)
          + at2 a r i * (t * rd b i)) by ring.
  rewrite H. ring.
Qed.
(** *** One iteration of the elimination *)

Section iteration.
Variables (a0 : mat) (b0 : vec).
Hypothesis a0_regular : regular n a0.

Lemma abs_zero x : abs x ≤ abs 0 → x = 0.
Proof.
  intros H. apply Qcabs.Qcabs_null, Qcle_antisym; [|apply Qcabs.Qcabs_nonneg].
  unfold abs in H. by rewrite (Qcabs.Qcabs_pos 0) in H.
Qed.

(** If column [i] is zero from row [i] on, a non-zero vector is in the
    kernel: the selected pivot of a regular system is not zero. *)
Lemma pivot_nonzero a b i :
  solverInv n a0 b0 i (a, b) → (i < n)%nat → at2 a (selectPivotRow n a i) i ≠ 0.
Proof.
  intros (Ha & Hb & Hred & Href) Hi Hzero. simpl in *.
  destruct (selectPivotRow_spec a i Hi) as [_ Hmax]. simpl in Hmax.
  rewrite Hzero in Hmax.
  assert (Hcol : ∀ k, (i ≤ k < n)%nat → at2 a k i = 0)
    by (intros k Hk; by apply abs_zero, Hmax).
  set (x := λ c : nat, if decide (c = i) then 1
                       else if decide (c < i)%nat then - at2 a c i else 0).
  assert (Hker : ∀ r, (r < n)%nat → rowDot n a x r = 0 * rd b r).
  { intros r Hr. unfold rowDot.
    rewrite (sumTo_ext _ _
      (λ c, (if decide (c = i) then at2 a r i else 0)
            + (if decide (c = r)
               then (if decide (r < i)%nat then - at2 a r i else 0) else 0))).
    - rewrite sumTo_plus, (sumTo_single n i (λ _, at2 a r i)),
        (sumTo_single n r (λ _, if decide (r < i)%nat then - at2 a r i else 0)).
      rewrite !decide_True by done.
      case_decide; [ring|]. rewrite Hcol by lia. ring.
    - intros c Hc. unfold x.
      destruct (decide (c = i)) as [->|Hci].
      + case_decide; [|ring]. subst. rewrite decide_False by lia. ring.
      + destruct (decide (c < i)%nat) as [Hlt|Hge].
        * rewrite Hred by done. repeat case_decide; subst; try lia; ring.
        * repeat case_decide; subst; try lia; ring. }
  assert (Hx : x i = 0).
  { apply a0_regular; [|done]. intros r Hr.
    rewrite (Href x 0 Hker r Hr). ring. }
  unfold x in Hx. rewrite decide_True in Hx by done. discriminate.
Qed.

Lemma pivotStep_inv a b i :
  (i < n)%nat → solverInv n a0 b0 i (a, b) → solverInv n a0 b0 (S i) (pivotStep n (a, b) i).
Proof.
  intros Hi Hinv. pose proof (pivot_nonzero a b i Hinv Hi) as Hpiv.
  destruct Hinv as (Ha & Hb & Hred & Href). simpl in *.
  destruct (selectPivotRow_spec a i Hi) as [Hm _]. simpl in Hm.
  unfold pivotStep. set (m := selectPivotRow n a i) in *.
  destruct (if decide (m ≠ i) then _ else _) as [a1 b1] eqn:Hex.
  destruct (exchange_spec a b i m a1 b1) as (Ha1 & Hb1 & Hat1 & Hrd1);
    [done|done|done|lia|done|].
  clear Hex.
  assert (Hp : at2 a1 i i ≠ 0).
  { rewrite Hat1. unfold transpose. by rewrite decide_True. }
  assert (Hred1 : reducedTo n i a1).
  { intros r c Hr Hc. rewrite Hat1, Hred; [|apply transpose_lt; lia|done].
    unfold transpose. repeat case_decide; lia || done. }
  rewrite (decide_False (P := at2 a1 i i = 0)) by done.
  set (p := at2 a1 i i) in *.
  destruct (scaleRow_spec a1 i p Ha1 Hi) as [Ha2 Hat2].
  set (a2 := scaleRow n i p a1) in *.
  set (b2 := <[i := rd b1 i / p]> b1).
  assert (Hb2 : length b2 = n) by (unfold b2; by rewrite length_insert).
  assert (Hat2' : ∀ r c,
    at2 a2 r c = if decide (r = i) then at2 a1 i c / p else at2 a1 r c).
  { intros r c. rewrite Hat2. destruct (decide (r = i)) as [->|Hr].
    - case_decide as Hc; [done|].
      destruct (decide (c < i)%nat).
      + rewrite Hred1, decide_False by lia. unfold Qcdiv. ring.
      + rewrite (at2_ge_col n) by (done || lia). unfold Qcdiv. ring.
    - rewrite decide_False; [done|]. by intros [? _]. }
  assert (Hrow2 : ∀ c, (c < i)%nat → at2 a2 i c = 0).
  { intros c Hc. rewrite Hat2', decide_True, Hred1, decide_False by lia.
    unfold Qcdiv. ring. }
  destruct (fold_left _ (seq 0 n) (a2, b2)) as [a3 b3] eqn:Hel.
  destruct (eliminate_fold i (seq 0 n) a2 b2 a3 b3) as (Ha3 & Hb3 & Hat3 & Hrd3);
    [done|done|done|apply NoDup_seq| |done|].
  { apply Forall_forall. intros k Hk%elem_of_seq. lia. }
  assert (Hat3' : ∀ r c, (r < n)%nat →
    at2 a3 r c = if decide (r = i) then at2 a2 i c
                 else at2 a2 r c - at2 a2 r i * at2 a2 i c).
  { intros r c Hr. rewrite Hat3. destruct (decide (r = i)) as [->|Hne].
    - rewrite decide_False; [done|]. by intros (_ & ? & _).
    - case_decide as Hc; [done|].
      assert (at2 a2 i c = 0) as ->; [|ring].
      destruct (decide (c < i)%nat); [by apply Hrow2|].
      apply (at2_ge_col n); [done|].
      destruct (decide (n ≤ c)%nat); [done|]. exfalso. apply Hc.
      split; [apply elem_of_seq; lia|]. split; [done|lia]. }
  assert (Hrd3' : ∀ r, (r < n)%nat →
    rd b3 r = if decide (r = i) then rd b2 i else rd b2 r - at2 a2 r i * rd b2 i).
  { intros r Hr. rewrite Hrd3. destruct (decide (r = i)) as [->|Hne].
    - rewrite decide_False; [done|]. by intros [_ ?].
    - rewrite decide_True; [done|]. split; [apply elem_of_seq; lia|done]. }
  split_and!; simpl; try done.
  - intros r c Hr Hc. rewrite Hat3' by done.
    destruct (decide (c = i)) as [->|Hci].
    + destruct (decide (r = i)) as [->|Hri].
      * rewrite Hat2', decide_True by done. unfold p. field. done.
      * rewrite (Hat2' i i), decide_True by done. unfold p. field. done.
    + assert (c < i)%nat as Hlt by lia.
      rewrite (Hrow2 c Hlt).
      destruct (decide (r = i)) as [->|Hri].
      * by rewrite decide_False by lia.
      * rewrite Hat2', decide_False, Hred1 by done. ring.
  - eapply refines_trans; [by apply (refines_eliminate a2 b2 i)|].
    eapply refines_trans; [by apply (refines_scale a1 b1 i p)|].
    eapply refines_trans; [|done].
    apply (refines_exchange a b i m); (done || lia).
Qed.
End iteration.
(** *** The whole elimination *)

Lemma solver_fold a0 b0 k : ∀ i st,
  regular n a0 → (i + k ≤ n)%nat → solverInv n a0 b0 i st →
  solverInv n a0 b0 (i + k) (fold_left (pivotStep n) (seq i k) st).
Proof.
  induction k as [|k IH]; intros i [a b] Hreg Hik Hinv; simpl.
  - by rewrite Nat.add_0_r.
  - rewrite <- Nat.add_succ_comm. apply IH; [done|lia|].
    apply pivotStep_inv; [done|lia|done].
Qed.

(** On a regular square system the solver returns the solution. *)
Lemma solveLinearSystem_regular a0 b0 :
  square n a0 → length b0 = n → regular n a0 →
  ∃ b, solveLinearSystem a0 b0 = Return b ∧ length b = n
       ∧ ∀ r, (r < n)%nat → rowDot n a0 (rd b) r = rd b0 r.
Proof.
  intros Ha Hb Hreg. unfold solveLinearSystem.
  rewrite decide_False by (destruct Ha; lia). rewrite Hb.
  destruct (solver_fold a0 b0 n 0 (a0, b0) Hreg) as (Hsq & Hlen & Hred & Href).
  { lia. }
  { split_and!; simpl; try done; [|apply refines_refl]. intros r c _ Hc. lia. }
  destruct (fold_left _ _ _) as [a b]; simpl in *.
  exists b. split; [done|]. split; [done|]. intros r Hr.
  rewrite (Href (rd b) 1); [ring| |done].
  clear r Hr. intros r Hr. unfold rowDot.
  rewrite (sumTo_ext _ _ (λ c, if decide (c = r) then rd b c else 0)).
  - rewrite sumTo_single, decide_True by done. ring.
  - intros c Hc. rewrite Hred by done. repeat case_decide; subst; done || ring.
Qed.
End solver.

(** The solver never changes the number of unknowns. *)
Lemma length_eliminate_fold size i ks : ∀ a b,
  length (fold_left (λ st k, if decide (k = i) then st else eliminateRow size i k st)
                    ks (a, b)).2 = length b.
Proof.
  induction ks as [|k ks IH]; intros a b; cbn [fold_left]; [done|].
  case_decide; [apply IH|]. unfold eliminateRow. by rewrite IH, length_insert.
Qed.

Lemma length_pivotStep size a b i : length (pivotStep size (a, b) i).2 = length b.
Proof.
  unfold pivotStep. case_decide.
  - by rewrite length_eliminate_fold, length_insert, length_swap.
  - by rewrite length_eliminate_fold, length_insert.
Qed.

Lemma length_solver_fold size is_ : ∀ st,
  length (fold_left (pivotStep size) is_ st).2 = length st.2.
Proof.
  induction is_ as [|i is_ IH]; intros [a b]; cbn [fold_left]; [done|].
  by rewrite IH, length_pivotStep.
Qed.

Lemma solveLinearSystem_returns (matrix : mat) (vector : vec) :
  (length vector ≤ length matrix)%nat →
  ∃ b, solveLinearSystem matrix vector = Return b ∧ length b = length vector.
Proof.
  intros Hlen. unfold solveLinearSystem. rewrite decide_False by lia.
  eexists. split; [done|]. by rewrite length_solver_fold.
Qed.

(** ** Matrix-vector products on arrays *)

Lemma rd_fmap_seq (f : nat → Qc) n c : (c < n)%nat → rd (f <$> seq 0 n) c = f c.
Proof.
  intros Hc. unfold rd. by rewrite list_lookup_fmap, lookup_seq_lt.
Qed.

Lemma rd_matVec n a x r :
  square n a → (r < n)%nat → rd (matVec a x) r = rowDot n a (rd x) r.
Proof.
  intros Ha Hr. pose proof (row_length n a r Ha Hr) as Hrow.
  unfold rd at 1. unfold matVec, rowDot, at2, row in *. rewrite list_lookup_fmap.
  destruct Ha as [Hlen _].
  destruct (lookup_lt_is_Some_2 a r) as [v Hv]; [lia|]. rewrite Hv in *. simpl in *.
  by rewrite rowTimes_sumTo, Hrow.
Qed.

Lemma length_matVec a x : length (matVec a x) = length a.
Proof. unfold matVec. by rewrite length_fmap. Qed.

(** Equality of arrays of numbers, entry by entry. *)
Lemma vec_eq (v w : vec) :
  length v = length w → (∀ i, (i < length v)%nat → rd v i = rd w i) → v = w.
Proof.
  intros Hlen H. apply list_eq_same_length with (length v); [done|done|].
  intros i x y Hi Hx Hy. specialize (H i Hi). unfold rd in H.
  rewrite Hx, Hy in H. done.
Qed.

Lemma nonsingular_regular n a : square n a → nonsingular a → regular n a.
Proof.
  intros Ha Hns x Hx c Hc. pose proof Ha as [Hlen _].
  specialize (Hns (x <$> seq 0 n)). rewrite length_fmap, length_seq, Hlen in Hns.
  rewrite <- (rd_fmap_seq x n c Hc), Hns; [apply rd_replicate|done|].
  apply vec_eq; [by rewrite length_matVec, length_replicate|].
  rewrite length_matVec, Hlen. intros r Hr.
  rewrite (rd_matVec n), rd_replicate, <- (Hx r Hr) by done.
  apply sumTo_ext. intros j Hj. by rewrite rd_fmap_seq.
Qed.

(** The solver solves every nonsingular square system. *)
Lemma solveLinearSystem_solves n (matrix : mat) (vector : vec) :
  square n matrix → length vector = n → nonsingular matrix →
  ∃ b, solveLinearSystem matrix vector = Return b ∧ length b = n
       ∧ matVec matrix b = vector.
Proof.
  intros Ha Hv Hns.
  destruct (solveLinearSystem_regular n matrix vector Ha Hv
              (nonsingular_regular n matrix Ha Hns)) as (b & Hb & Hlen & Hsol).
  exists b. split; [done|]. split; [done|].
  apply vec_eq; [rewrite length_matVec; destruct Ha; lia|].
  rewrite length_matVec. destruct Ha as [Ha1 Ha2]. rewrite Ha1. intros r Hr.
  rewrite (rd_matVec n) by done. by apply Hsol.
Qed.

(** ** System assembler *)

(** A loop read through a change of index. *)
Lemma fold_left_reindex {A} (f g : A → nat → A) (φ : nat → nat) js : ∀ a,
  (∀ a j, j ∈ js → f a j = g a (φ j)) →
  fold_left f js a = fold_left g (φ <$> js) a.
Proof.
  induction js as [|j js IH]; intros a H; simpl; [done|].
  rewrite H by (by left). apply IH. intros a' j' Hj'. apply H. by right.
Qed.

(** A loop that rewrites the entries [rs] of an array, each from its own
    old value. *)
Lemma fold_vec_update (g : vec → nat → Qc) (rs : list nat) : ∀ v : vec,
  NoDup rs → Forall (λ r, r < length v)%nat rs →
  (∀ v' v'' r, rd v' r = rd v'' r → g v' r = g v'' r) →
  let res := fold_left (λ v r, <[r := g v r]> v) rs v in
  length res = length v
  ∧ ∀ r, rd res r = if decide (r ∈ rs) then g v r else rd v r.
Proof.
  induction rs as [|r0 rs IH]; intros v Hnd Hrs Hg; cbn [fold_left].
  - split; [done|]. intros r. rewrite decide_False; [done|]. apply not_elem_of_nil.
  - apply NoDup_cons in Hnd as [Hr0 Hnd]. apply Forall_cons in Hrs as [Hr0v Hrs].
    destruct (IH (<[r0 := g v r0]> v)) as [Hlen Hrd]; [done| |done|].
    { by rewrite length_insert. }
    split; [by rewrite Hlen, length_insert|]. intros r. rewrite Hrd.
    destruct (decide (r ∈ rs)) as [Hr|Hr].
    + rewrite decide_True by (by right). apply Hg.
      rewrite rd_insert by done. rewrite decide_False; [done|]. by intros ->.
    + rewrite rd_insert by done. destruct (decide (r = r0)) as [->|Hne].
      * by rewrite decide_True by (by left).
      * rewrite decide_False; [done|]. by intros [->|?]%elem_of_cons.
Qed.

Lemma dof_dofMap e i : (i < 4)%nat → dof (dofMap e) i = (2 * e + i)%nat.
Proof.
  intros Hi. destruct i as [|[|[|[|i]]]]; unfold dof, dofMap; simpl; lia.
Qed.

(** The entries of [K] after the scatter of a local matrix on element [e]. *)
Lemma scatterStiffness_spec n e (kLocal K : mat) :
  square n K → (2 * e + 4 ≤ n)%nat →
  square n (scatterStiffness (dofMap e) kLocal K)
  ∧ ∀ r c, at2 (scatterStiffness (dofMap e) kLocal K) r c
           = if decide (r ∈ seq (2 * e) 4 ∧ c ∈ seq (2 * e) 4)
             then at2 K r c + at2 kLocal (r - 2 * e) (c - 2 * e)
             else at2 K r c.
Proof.
  intros HK He. unfold scatterStiffness.
  pose (inner := λ (K : mat) (r : nat),
    fold_left (λ K c, set2 K r c (at2 K r c + at2 kLocal (r - 2 * e) (c - 2 * e)))
              (seq (2 * e) 4) K).
  assert (Hinner : ∀ K r, square n K → (r < n)%nat →
    square n (inner K r)
    ∧ ∀ r' c, at2 (inner K r) r' c
              = if decide (r' = r ∧ c ∈ seq (2 * e) 4)
                then at2 K r c + at2 kLocal (r - 2 * e) (c - 2 * e)
                else at2 K r' c).
  { intros K0 r HK0 Hr.
    apply (fold_row_update n r
             (λ K c, at2 K r c + at2 kLocal (r - 2 * e) (c - 2 * e))); auto.
    - apply NoDup_seq.
    - apply Forall_forall. intros c Hc%elem_of_seq. lia.
    - intros a' a'' j H. by rewrite H. }
  rewrite (fold_left_reindex _ inner (Nat.add (2 * e))).
  2:{ intros K0 i Hi%elem_of_seq. unfold inner.
      replace (seq (2 * e) 4) with (Nat.add (2 * e) <$> seq 0 4)
        by (by rewrite fmap_add_seq, Nat.add_0_r).
      rewrite <- (fold_left_reindex
        (λ K j, set2 K (dof (dofMap e) i) (dof (dofMap e) j)
                  (at2 K (dof (dofMap e) i) (dof (dofMap e) j) + at2 kLocal i j))); [done|].
      intros K1 j Hj%elem_of_seq. rewrite !dof_dofMap by lia.
      by replace (2 * e + i - 2 * e)%nat with i by lia;
         replace (2 * e + j - 2 * e)%nat with j by lia. }
  rewrite fmap_add_seq, Nat.add_0_r.
  assert (Houter : ∀ rs K0, square n K0 → NoDup rs → Forall (λ r, r < n)%nat rs →
    square n (fold_left inner rs K0)
    ∧ ∀ r c, at2 (fold_left inner rs K0) r c
             = if decide (r ∈ rs ∧ c ∈ seq (2 * e) 4)
               then at2 K0 r c + at2 kLocal (r - 2 * e) (c - 2 * e)
               else at2 K0 r c).
  { induction rs as [|r0 rs IH]; intros K0 HK0 Hnd Hrs; cbn [fold_left].
    - split; [done|]. intros r c. rewrite decide_False; [done|].
      by intros [?%elem_of_nil _].
    - apply NoDup_cons in Hnd as [Hr0 Hnd]. apply Forall_cons in Hrs as [Hr0n Hrs].
      destruct (Hinner K0 r0 HK0 Hr0n) as [Hsq1 Hat1].
      destruct (IH (inner K0 r0) Hsq1 Hnd Hrs) as [Hsq Hat].
      split; [done|]. intros r c. rewrite Hat, !Hat1.
      destruct (decide (r = r0)) as [->|Hne].
      + rewrite (decide_False (P := r0 ∈ rs ∧ _)) by (by intros [? _]).
        apply decide_ext. rewrite elem_of_cons. naive_solver.
      + rewrite !(decide_False (P := r = r0 ∧ _)) by (by intros [? _]).
        apply decide_ext. rewrite elem_of_cons. naive_solver. }
  apply Houter; [done|apply NoDup_seq|].
  apply Forall_forall. intros r Hr%elem_of_seq. lia.
Qed.

(** The entries of [F] after the scatter of equivalent loads on element [e]. *)
Lemma scatterLoad_spec e (eq F : vec) :
  (2 * e + 4 ≤ length F)%nat →
  length (scatterLoad (dofMap e) eq F) = length F
  ∧ ∀ r, rd (scatterLoad (dofMap e) eq F) r
         = if decide (r ∈ seq (2 * e) 4) then rd F r + rd eq (r - 2 * e) else rd F r.
Proof.
  intros He. unfold scatterLoad.
  rewrite (fold_left_reindex _
    (λ F r, <[r := rd F r + rd eq (r - 2 * e)]> F) (Nat.add (2 * e))).
  2:{ intros F0 i Hi%elem_of_seq. rewrite !dof_dofMap by lia.
      by replace (2 * e + i - 2 * e)%nat with i by lia. }
  rewrite fmap_add_seq, Nat.add_0_r.
  apply (fold_vec_update (λ F r, rd F r + rd eq (r - 2 * e))).
  - apply NoDup_seq.
  - apply Forall_forall. intros r Hr%elem_of_seq. lia.
  - intros v' v'' r H. by rewrite H.
Qed.

Lemma udlForElement_covering udls x1 x2 :
  udlForElement udls x1 x2 = coveringIntensity udls x1 x2.
Proof.
  unfold udlForElement.
  enough (H : ∀ acc,
    fold_left (λ sum load, sum + Udl.intensity load)
      (filter (λ load, Udl.start load ≤ x1 ∧ x2 ≤ Udl.end_ load) udls) acc
    = acc + coveringIntensity udls x1 x2) by (rewrite H; ring).
  induction udls as [|u udls IH]; intros acc; simpl; [ring|].
  rewrite filter_cons. case_decide; simpl; rewrite IH; ring.
Qed.

Lemma rd_eqForces w L i : rd (eqForces w L) i = rd (equivalentLoads w L) i.
Proof.
  destruct i as [|[|[|[|i]]]]; unfold rd; simpl; try done; unfold Qcdiv; ring.
Qed.

Lemma rd_equivalentLoads_zero L i : rd (equivalentLoads 0 L) i = 0.
Proof.
  destruct i as [|[|[|[|i]]]]; unfold rd; simpl; try done; unfold Qcdiv; ring.
Qed.

Lemma elem_of_seq_element e r : r ∈ seq (2 * e) 4 ↔ (2 * e ≤ r < 2 * e + 4)%nat.
Proof. rewrite elem_of_seq. lia. Qed.

(** One element of positive length. *)
Lemma elementStep_spec n E I udls nodes K F e K' F' :
  square n K → length F = n → (2 * e + 4 ≤ n)%nat →
  rd nodes e < rd nodes (e + 1) →
  elementStep E I udls nodes (K, F) e = (K', F') →
  square n K' ∧ length F' = n
  ∧ (∀ r c, at2 K' r c = at2 K r c + elementStiffness E I nodes e r c)
  ∧ (∀ r, rd F' r = rd F r + elementLoad udls nodes e r).
Proof.
  intros HK HF He Hlt. unfold elementStep.
  rewrite decide_False.
  2:{ apply Qclt_not_le. unfold Qcminus. rewrite <- (Qcplus_opp_r (rd nodes e)).
      by apply Qcplus_lt_mono_r. }
  intros [= <- <-].
  destruct (scatterStiffness_spec n e
    (beamElementStiffness E I (rd nodes (e + 1) - rd nodes e)) K HK He) as [Hsq Hat].
  assert (HeF : (2 * e + 4 ≤ length F)%nat) by lia.
  split; [done|]. split; [|split].
  - case_decide; [|done]. by rewrite (proj1 (scatterLoad_spec e _ F HeF)).
  - intros r c. rewrite Hat. unfold elementStiffness.
    rewrite (decide_ext (r ∈ seq (2 * e) 4 ∧ c ∈ seq (2 * e) 4)
               ((2 * e ≤ r < 2 * e + 4)%nat ∧ (2 * e ≤ c < 2 * e + 4)%nat))
      by (by rewrite !elem_of_seq_element).
    case_decide; ring.
  - intros r. unfold elementLoad.
    rewrite <- (decide_ext (r ∈ seq (2 * e) 4) (2 * e ≤ r < 2 * e + 4)%nat)
      by apply elem_of_seq_element.
    rewrite <- udlForElement_covering.
    destruct (decide (udlForElement udls _ _ ≠ 0)) as [Hw|Hw].
    + rewrite (proj2 (scatterLoad_spec e _ F HeF)).
      case_decide; [|ring]. by rewrite rd_eqForces.
    + apply dec_stable in Hw. rewrite Hw.
      case_decide; [|ring]. rewrite rd_equivalentLoads_zero. ring.
Qed.

Lemma StronglySorted_lookup_lt (l : vec) : ∀ i j x y,
  StronglySorted Qclt l → l !! i = Some x → l !! j = Some y → (i < j)%nat → x < y.
Proof.
  induction l as [|z l IH]; intros i j x y Hl Hx Hy Hij; [done|].
  apply StronglySorted_inv in Hl as [Hl Hz].
  destruct j as [|j]; [lia|]. simpl in Hy. destruct i as [|i].
  - simpl in Hx. injection Hx as ->. rewrite Forall_forall in Hz.
    apply Hz. by eapply list_elem_of_lookup_2.
  - simpl in Hx. apply (IH i j); auto with lia.
Qed.

(** Consecutive nodes of a strictly increasing mesh. *)
Lemma StronglySorted_rd_lt (l : vec) i :
  StronglySorted Qclt l → (i + 1 < length l)%nat → rd l i < rd l (i + 1).
Proof.
  intros Hl Hi.
  destruct (lookup_lt_is_Some_2 l i) as [x Hx]; [lia|].
  destruct (lookup_lt_is_Some_2 l (i + 1)) as [y Hy]; [lia|].
  unfold rd. rewrite Hx, Hy. simpl.
  apply (StronglySorted_lookup_lt l i (i + 1)); auto with lia.
Qed.

Lemma square_zero n : square n (replicate n (replicate n 0)).
Proof.
  split; [apply length_replicate|].
  apply Forall_replicate, length_replicate.
Qed.

Lemma at2_zero n r c : at2 (replicate n (replicate n 0)) r c = 0.
Proof.
  unfold at2, row.
  destruct (replicate n (replicate n 0) !! r) as [v|] eqn:Hv; [|done].
  apply lookup_replicate in Hv as [-> _]. apply rd_replicate.
Qed.

Section assembled.
Variable inp : Input.t.

Lemma nodeCount_pos : (1 ≤ nodeCount inp)%nat.
Proof.
  assert (H0 : 0 ∈ nodePositions inp).
  { unfold nodePositions. rewrite elem_of_uniqueSorted. apply elem_of_cons. by left. }
  unfold nodeCount. destruct (nodePositions inp); [by apply elem_of_nil in H0|].
  simpl. lia.
Qed.

(** The state of the assembly after the first [k] elements. *)
Lemma elementLoop_prefix k :
  (k ≤ nodeCount inp - 1)%nat →
  let st := fold_left
    (elementStep (Input.E inp) (Input.I inp) (Input.udls inp) (nodePositions inp))
    (seq 0 k)
    (replicate (dofCount inp) (replicate (dofCount inp) 0), replicate (dofCount inp) 0) in
  square (dofCount inp) st.1 ∧ length st.2 = dofCount inp
  ∧ (∀ r c, at2 st.1 r c
            = sumTo k (λ e, elementStiffness (Input.E inp) (Input.I inp)
                              (nodePositions inp) e r c))
  ∧ (∀ r, rd st.2 r
          = sumTo k (λ e, elementLoad (Input.udls inp) (nodePositions inp) e r)).
Proof.
  induction k as [|k IH]; intros Hk; cbv zeta.
  - simpl. split; [apply square_zero|]. split; [apply length_replicate|].
    split; [intros; apply at2_zero|intros; apply rd_replicate].
  - rewrite seq_S, fold_left_app. cbn [fold_left sumTo Nat.add].
    destruct IH as (HK & HF & Hat & Hrd); [lia|].
    destruct (fold_left _ (seq 0 k) _) as [K0 F0]; cbn [fst snd] in *.
    destruct (elementStep (Input.E inp) (Input.I inp) (Input.udls inp)
                (nodePositions inp) (K0, F0) k) as [K1 F1] eqn:Hstep.
    destruct (elementStep_spec (dofCount inp) (Input.E inp) (Input.I inp)
                (Input.udls inp) (nodePositions inp) K0 F0 k K1 F1 HK HF)
      as (HK1 & HF1 & Hat1 & Hrd1); [| |done|].
    + unfold dofCount. lia.
    + apply StronglySorted_rd_lt; [apply StronglySorted_uniqueSorted|].
      fold (nodeCount inp). lia.
    + cbn [fst snd]. split; [done|]. split; [done|]. split.
      * intros r c. by rewrite Hat1, Hat.
      * intros r. by rewrite Hrd1, Hrd.
Qed.

Lemma square_K : square (dofCount inp) (K inp).
Proof. apply (elementLoop_prefix (nodeCount inp - 1)). lia. Qed.

Lemma at2_K r c :
  at2 (K inp) r c
  = sumTo (nodeCount inp - 1)
      (λ e, elementStiffness (Input.E inp) (Input.I inp) (nodePositions inp) e r c).
Proof. apply (elementLoop_prefix (nodeCount inp - 1)). lia. Qed.

Lemma indexOf_lt (l : vec) x k : indexOf l x = Some k → (k < length l)%nat.
Proof.
  unfold indexOf. destruct (list_find _ l) as [[i y]|] eqn:Hfind; [|done].
  intros [= <-]. apply list_find_Some in Hfind as (Hi & _). by eapply lookup_lt_Some.
Qed.

Lemma pointLoadAt_cons nodes p loads r :
  pointLoadAt nodes (p :: loads) r
  = (if decide ((λ k, (k * 2)%nat) <$> indexOf nodes (PointLoad.position p) = Some r)
     then PointLoad.magnitude p else 0)
    + pointLoadAt nodes loads r.
Proof. unfold pointLoadAt. cbn [foldr]. case_decide; ring. Qed.

Lemma pointLoads_fold loads : ∀ F0 : vec,
  length F0 = dofCount inp →
  let F1 := fold_left (addPointLoad (nodePositions inp)) loads F0 in
  length F1 = dofCount inp
  ∧ ∀ r, rd F1 r = rd F0 r + pointLoadAt (nodePositions inp) loads r.
Proof.
  induction loads as [|p loads IH]; intros F0 HF0; cbn [fold_left].
  - split; [done|]. intros r. unfold pointLoadAt. simpl. ring.
  - destruct (IH (addPointLoad (nodePositions inp) F0 p)) as [Hlen Hrd].
    { unfold addPointLoad. destruct (indexOf _ _); [|done]. by rewrite length_insert. }
    split; [done|]. intros r. rewrite Hrd, pointLoadAt_cons. unfold addPointLoad.
    destruct (indexOf _ _) as [k|] eqn:Hk.
    + apply indexOf_lt in Hk. fold (nodeCount inp) in Hk.
      rewrite rd_insert by (rewrite HF0; unfold dofCount; lia).
      destruct (decide (r = (k * 2)%nat)) as [->|Hne].
      * rewrite decide_True by done. ring.
      * rewrite decide_False by (cbn; congruence). ring.
    + rewrite decide_False by done. ring.
Qed.


Lemma rd_F r :
  rd (F inp) r
  = sumTo (nodeCount inp - 1)
      (λ e, elementLoad (Input.udls inp) (nodePositions inp) e r)
    + pointLoadAt (nodePositions inp) (Input.pointLoads inp) r.
Proof.
  unfold F.
  destruct (elementLoop_prefix (nodeCount inp - 1)) as (_ & HF & _ & Hrd); [lia|].
  rewrite (proj2 (pointLoads_fold _ _ HF)). f_equal. apply Hrd.
Qed.

(** Every element matrix is symmetric, hence their sum. *)
Lemma symmetric_K : symmetric (K inp).
Proof.
  intros r c. rewrite !at2_K. apply sumTo_ext. intros e _.
  unfold elementStiffness.
  rewrite (decide_ext _ ((2 * e ≤ c < 2 * e + 4)%nat ∧ (2 * e ≤ r < 2 * e + 4)%nat))
    by tauto.
  case_decide; [|done]. apply symmetric_beamElementStiffness.
Qed.
End assembled.

(** ** Boundary condition reducer *)

Lemma partitionDofs_fold (c : gset nat) l : ∀ fr fx,
  fold_left
    (λ '(freeDofs, fixedDofs) i,
       if decide (i ∈ c) then (freeDofs, fixedDofs ++ [i])
       else (freeDofs ++ [i], fixedDofs))
    l (fr, fx)
  = (fr ++ filter (λ i, i ∉ c) l, fx ++ filter (λ i, i ∈ c) l).
Proof.
  induction l as [|i l IH]; intros fr fx; cbn [fold_left].
  - simpl. by rewrite !app_nil_r.
  - rewrite !filter_cons. destruct (decide (i ∈ c)) as [Hi|Hi].
    + rewrite IH, decide_False by (intros H; by apply H). by rewrite <- app_assoc.
    + rewrite IH, decide_True by done. by rewrite <- app_assoc.
Qed.

Lemma partitionDofs_filter (c : gset nat) n :
  partitionDofs c n
  = (filter (λ i, i ∉ c) (seq 0 n), filter (λ i, i ∈ c) (seq 0 n)).
Proof. unfold partitionDofs. by rewrite partitionDofs_fold. Qed.

Section reduced.
Variable inp : Input.t.

Lemma freeDofs_filter :
  freeDofs inp = filter (λ i, i ∉ constrained inp) (seq 0 (dofCount inp)).
Proof. unfold freeDofs. by rewrite partitionDofs_filter. Qed.

Lemma elem_of_freeDofs i :
  i ∈ freeDofs inp ↔ (i < dofCount inp)%nat ∧ i ∉ constrained inp.
Proof. rewrite freeDofs_filter, list_elem_of_filter, elem_of_seq. intuition lia. Qed.

Lemma NoDup_freeDofs : NoDup (freeDofs inp).
Proof. rewrite freeDofs_filter. apply NoDup_filter, NoDup_seq. Qed.

Lemma dof_freeDofs a :
  (a < length (freeDofs inp))%nat → freeDofs inp !! a = Some (dof (freeDofs inp) a).
Proof.
  intros Ha. unfold dof.
  by destruct (lookup_lt_is_Some_2 (freeDofs inp) a Ha) as [x ->].
Qed.

Lemma square_reducedK : square (length (freeDofs inp)) (reducedK inp).
Proof.
  unfold reducedK. split; [by rewrite length_fmap|].
  apply Forall_fmap, Forall_forall. intros r _. simpl. by rewrite length_fmap.
Qed.

Lemma length_reducedF : length (reducedF inp) = length (freeDofs inp).
Proof. unfold reducedF. by rewrite length_fmap. Qed.

Lemma at2_reducedK a b :
  (a < length (freeDofs inp))%nat → (b < length (freeDofs inp))%nat →
  at2 (reducedK inp) a b = at2 (K inp) (dof (freeDofs inp) a) (dof (freeDofs inp) b).
Proof.
  intros Ha Hb. unfold at2 at 1, row, rd, reducedK.
  rewrite list_lookup_fmap, (dof_freeDofs a Ha). simpl.
  by rewrite list_lookup_fmap, (dof_freeDofs b Hb).
Qed.

Lemma rd_reducedF a :
  (a < length (freeDofs inp))%nat →
  rd (reducedF inp) a = rd (F inp) (dof (freeDofs inp) a).
Proof.
  intros Ha. unfold rd at 1, reducedF.
  by rewrite list_lookup_fmap, (dof_freeDofs a Ha).
Qed.

(** The solver stage returns one displacement per free DOF. *)
Lemma freeDisplacements_returns :
  ∃ fd, freeDisplacements inp = Return fd ∧ length fd = length (freeDofs inp).
Proof.
  unfold freeDisplacements. case_decide as Hfree.
  - destruct (solveLinearSystem_returns (reducedK inp) (reducedF inp)) as (fd & Hfd & Hlen).
    + rewrite length_reducedF. by destruct square_reducedK as [-> _].
    + exists fd. by rewrite Hlen, length_reducedF.
  - exists []. split; [done|]. simpl. lia.
Qed.

(** ** Response recoverer *)

Lemma displacements_fold (fd : vec) (l : list nat) : ∀ d0 : vec,
  NoDup l → Forall (λ j, j < length d0)%nat l →
  let d := fold_left (λ d '(index, dof), <[dof := rd fd index]> d) (imap pair l) d0 in
  length d = length d0
  ∧ (∀ k j, l !! k = Some j → rd d j = rd fd k)
  ∧ (∀ j, j ∉ l → rd d j = rd d0 j).
Proof.
  induction l as [|x l IH] using rev_ind; intros d0 Hnd Hl; cbv zeta.
  - simpl. split; [done|]. split; [by intros k j ?|done].
  - apply NoDup_app in Hnd as (Hnd & Hx & _). apply Forall_app in Hl as [Hl Hxl].
    apply Forall_inv in Hxl.
    destruct (IH d0 Hnd Hl) as (Hlen & Hin & Hout).
    rewrite imap_app, fold_left_app. cbn [imap fold_left]. rewrite Nat.add_0_r.
    split; [by rewrite length_insert|]. split.
    + intros k j Hk. rewrite rd_insert by lia.
      apply lookup_app_Some in Hk as [Hk|[Hge Hk]].
      * rewrite decide_False; [by apply Hin|].
        intros ->. apply (Hx x); [by eapply list_elem_of_lookup_2|by left].
      * apply list_lookup_singleton_Some in Hk as [Hk ->].
        rewrite decide_True by done. f_equal. lia.
    + intros j Hj. rewrite rd_insert by lia.
      rewrite decide_False by (intros ->; apply Hj, elem_of_app; right; by left).
      apply Hout. intros ?. apply Hj, elem_of_app. by left.
Qed.

Lemma displacements_spec (fd : vec) :
  length (displacements inp fd) = dofCount inp
  ∧ (∀ a, (a < length (freeDofs inp))%nat →
       rd (displacements inp fd) (dof (freeDofs inp) a) = rd fd a)
  ∧ (∀ j, j ∉ freeDofs inp → rd (displacements inp fd) j = 0).
Proof.
  destruct (displacements_fold fd (freeDofs inp) (replicate (dofCount inp) 0))
    as (Hlen & Hin & Hout).
  - apply NoDup_freeDofs.
  - apply Forall_forall. intros j [Hj _]%elem_of_freeDofs. by rewrite length_replicate.
  - split; [by rewrite length_replicate in Hlen|]. split.
    + intros a Ha. apply Hin, dof_freeDofs, Ha.
    + intros j Hj. rewrite <- (rd_replicate (dofCount inp) j). by apply Hout.
Qed.

Lemma length_reactions d : length (reactions inp d) = dofCount inp.
Proof.
  unfold reactions. rewrite length_imap. by destruct (square_K inp) as [-> _].
Qed.

(** The reactions are [K·d − F], entry by entry. *)
Lemma rd_reactions d i :
  (i < dofCount inp)%nat →
  rd (reactions inp d) i
  = sumTo (dofCount inp) (λ j, at2 (K inp) i j * rd d j) - rd (F inp) i.
Proof.
  intros Hi. pose proof (square_K inp) as HK.
  pose proof (row_length _ _ i HK Hi) as Hrow.
  unfold rd at 1, reactions. rewrite list_lookup_imap.
  unfold at2, row in *. destruct HK as [HlenK _].
  destruct (lookup_lt_is_Some_2 (K inp) i) as [v Hv]; [lia|].
  rewrite Hv in *. simpl in *. by rewrite rowTimes_sumTo, Hrow.
Qed.

(** The analysis never throws. *)
Lemma assembleBeamModel_total :
  ∃ fd, freeDisplacements inp = Return fd
    ∧ length fd = length (freeDofs inp)
    ∧ assembleBeamModel inp
      = Return (Model.make (nodePositions inp) (displacements inp fd)
                  (reactions inp (displacements inp fd)) (K inp) (F inp)).
Proof.
  destruct freeDisplacements_returns as (fd & Hfd & Hlen).
  exists fd. split; [done|]. split; [done|].
  unfold assembleBeamModel. by rewrite Hfd.
Qed.
End reduced.

(** A sum whose terms vanish outside [P] is the sum over the indices that
    satisfy [P]. *)
Lemma sumTo_filter (P : nat → Prop) `{!∀ j, Decision (P j)} (t : nat → Qc) n :
  (∀ j, (j < n)%nat → ¬ P j → t j = 0) →
  sumTo n t
  = sumTo (length (filter P (seq 0 n))) (λ b, t (dof (filter P (seq 0 n)) b)).
Proof.
  induction n as [|n IH]; intros Ht; [done|].
  rewrite seq_S, filter_app, length_app. cbn [sumTo Nat.add].
  rewrite IH by auto with lia. rewrite filter_cons, filter_nil.
  destruct (decide (P n)) as [Hn|Hn]; cbn [length].
  - rewrite Nat.add_1_r. cbn [sumTo]. f_equal.
    + apply sumTo_ext. intros b Hb. unfold dof. by rewrite lookup_app_l.
    + unfold dof. by rewrite lookup_app_r, Nat.sub_diag.
  - rewrite Nat.add_0_r, app_nil_r, (Ht n) by (done || lia). ring.
Qed.

(** Equilibrium at the free DOFs, once the reduced system is solved. *)
Lemma reactions_free_zero (inp : Input.t) (fd : vec) i :
  length fd = length (freeDofs inp) →
  matVec (reducedK inp) fd = reducedF inp →
  i ∈ freeDofs inp →
  rd (reactions inp (displacements inp fd)) i = 0.
Proof.
  intros Hlen Hsol Hi.
  destruct (displacements_spec inp fd) as (Hd & Hin & Hout).
  pose proof (proj1 (elem_of_freeDofs inp i) Hi) as [Hdof _].
  apply list_elem_of_lookup_1 in Hi as [a Ha].
  pose proof (lookup_lt_Some _ _ _ Ha) as Hlt.
  assert (i = dof (freeDofs inp) a) as -> by (unfold dof; by rewrite Ha).
  rewrite rd_reactions by done.
  rewrite (sumTo_filter (λ j, j ∉ constrained inp)).
  2:{ intros j Hj Hc. rewrite Hout; [ring|].
      rewrite elem_of_freeDofs. tauto. }
  rewrite <- freeDofs_filter.
  rewrite (sumTo_ext _ _ (λ b, at2 (reducedK inp) a b * rd fd b)).
  2:{ intros b Hb. by rewrite at2_reducedK, Hin. }
  change (sumTo _ _) with (rowDot (length (freeDofs inp)) (reducedK inp) (rd fd) a).
  rewrite <- (rd_matVec _ _ _ _ (square_reducedK inp) Hlt), Hsol.
  rewrite rd_reducedF by done. ring.
Qed.

(** ** The properties of the design document *)




Lemma dofCount_ge_2 (inp : Input.t) : (2 ≤ dofCount inp)%nat.
Proof. pose proof (nodeCount_pos inp). unfold dofCount. lia. Qed.

Lemma freeDofs_no_supports (inp : Input.t) :
  Input.supports inp = [] → freeDofs inp = seq 0 (dofCount inp).
Proof.
  intros Hs. rewrite freeDofs_filter. unfold constrained. rewrite Hs. simpl.
  induction (seq 0 (dofCount inp)) as [|i l IH]; [done|].
  rewrite filter_cons, decide_True by set_solver. by rewrite IH.
Qed.

(** C2 (as the code has it): the solver stage returns one displacement per
    free DOF.  The solution is empty exactly when no DOF is free; without
    supports every one of the [2·nodeCount ≥ 2] DOFs is free and the solver
    is applied to the full system. *)
Theorem freeDisplacements_per_free_dof (inp : Input.t) :
  ∃ fd, freeDisplacements inp = Return fd
    ∧ length fd = length (freeDofs inp)
    ∧ (fd = [] ↔ freeDofs inp = [])
    ∧ (Input.supports inp = [] → length fd = dofCount inp ∧ (2 ≤ dofCount inp)%nat).
Proof.
  destruct (freeDisplacements_returns inp) as (fd & Hfd & Hlen).
  exists fd. split; [done|]. split; [done|]. split.
  - split; intros H; apply length_zero_iff_nil; apply length_zero_iff_nil in H; lia.
  - intros Hs. split; [|apply dofCount_ge_2].
    by rewrite Hlen, (freeDofs_no_supports inp Hs), length_seq.
Qed.

Lemma freeDisplacements_per_free_dof_witness :
  Input.supports unsupported = []
  ∧ ∃ fd, freeDisplacements unsupported = Return fd
      ∧ length fd = dofCount unsupported.
Proof.
  split; [reflexivity|].
  destruct (freeDisplacements_per_free_dof unsupported) as (fd & Hfd & _ & _ & Hall).
  exists fd. split; [exact Hfd|]. apply Hall. reflexivity.
Defined.

(** C2, counterexample: without supports no DOF is constrained, all four
    DOFs of the one-element beam are free, and the solver stage returns four
    displacements, not the empty solution. *)
Lemma unsupported_solution_not_empty :
  Input.supports unsupported = []
  ∧ constrained unsupported = ∅
  ∧ freeDofs unsupported = [0; 1; 2; 3]%nat
  ∧ freeDisplacements unsupported = Return [0; 0; 0; 0]
  ∧ freeDisplacements unsupported ≠ Return [].
Proof. split_and!; [reflexivity|compute_done..]. Qed.

(** C3 (as the code has it): the analysis never fails, whatever the span.
    It returns the model built on the sorted distinct breakpoints, with two
    DOFs per node. *)
Theorem assembleBeamModel_returns (inp : Input.t) :
  ∃ m, assembleBeamModel inp = Return m
    ∧ Model.nodePositions m = nodePositions inp
    ∧ length (Model.displacements m) = dofCount inp
    ∧ length (Model.reactions m) = dofCount inp
    ∧ Model.K m = K inp ∧ Model.F m = F inp.
Proof.
  destruct (assembleBeamModel_total inp) as (fd & _ & _ & ->).
  eexists. split; [done|]. simpl. split_and!; try done.
  - apply displacements_spec.
  - apply length_reactions.
Qed.

(** C3, counterexample: with span 0 the analysis returns a single node, no
    element and a zero system. *)
Lemma zeroSpan_returns :
  Input.span zeroSpan ≤ 0
  ∧ assembleBeamModel zeroSpan
    = Return (Model.make [0] [0; 0] [0; 0] [[0; 0]; [0; 0]] [0; 0]).
Proof. split; compute_done. Qed.

(** C5: the load vector is the sum, over the elements, of the equivalent
    nodal loads [[wL/2, wL²/12, wL/2, −wL²/12]] on the four DOFs of the
    element, with [w] the sum of the intensities of the loads that contain
    the element, plus the point loads; a load that does not contain the
    element does not change its [w]. *)
Theorem F_equivalent_loads :
  (∀ (inp : Input.t) r,
     rd (F inp) r
     = sumTo (nodeCount inp - 1)
         (λ e, elementLoad (Input.udls inp) (nodePositions inp) e r)
       + pointLoadAt (nodePositions inp) (Input.pointLoads inp) r)
  ∧ (∀ (before after : list Udl.t) (load : Udl.t) (x1 x2 : Qc),
       ¬ (Udl.start load ≤ x1 ∧ x2 ≤ Udl.end_ load) →
       udlForElement (before ++ load :: after) x1 x2
       = udlForElement (before ++ after) x1 x2).
Proof.
  split; [apply rd_F|].
  intros before after load x1 x2 Hpart. unfold udlForElement.
  by rewrite !filter_app, filter_cons, decide_False.
Qed.

Lemma F_equivalent_loads_witness :
  let half := Udl.make (1 / lit 2) 1 (lit 7) in
  ¬ (Udl.start half ≤ 0 ∧ 1 ≤ Udl.end_ half)
  ∧ udlForElement ([Udl.make 0 1 (lit 2)] ++ half :: []) 0 1
    = udlForElement ([Udl.make 0 1 (lit 2)] ++ []) 0 1.
Proof.
  assert (Hpart : ¬ (Udl.start (Udl.make (1 / lit 2) 1 (lit 7)) ≤ 0
                     ∧ 1 ≤ Udl.end_ (Udl.make (1 / lit 2) 1 (lit 7))))
    by compute_done.
  split; [exact Hpart|].
  exact (proj2 F_equivalent_loads [Udl.make 0 1 (lit 2)] []
           (Udl.make (1 / lit 2) 1 (lit 7)) 0 1 Hpart).
Defined.

(** C8: the global stiffness matrix is symmetric. *)
Theorem K_symmetric (inp : Input.t) :
  symmetric (K inp)
  ∧ ∃ m, assembleBeamModel inp = Return m ∧ Model.K m = K inp.
Proof.
  split; [apply symmetric_K|].
  destruct (assembleBeamModel_total inp) as (fd & _ & _ & ->).
  eexists. split; reflexivity.
Qed.

(** C6: the reactions are [K·d − F] over all DOFs, and they vanish at every
    free DOF when the reduced stiffness matrix is nonsingular. *)
Theorem reactions_equilibrium (inp : Input.t) :
  ∃ m, assembleBeamModel inp = Return m
    ∧ (∀ i, (i < dofCount inp)%nat →
         rd (Model.reactions m) i
         = sumTo (dofCount inp)
             (λ j, at2 (Model.K m) i j * rd (Model.displacements m) j)
           - rd (Model.F m) i)
    ∧ (nonsingular (reducedK inp) →
       ∀ i, i ∈ freeDofs inp → rd (Model.reactions m) i = 0).
Proof.
  destruct (assembleBeamModel_total inp) as (fd & Hfd & Hlen & ->).
  eexists. split; [done|]. simpl. split.
  - intros i Hi. by apply rd_reactions.
  - intros Hns i Hi.
    assert (Hfree : (0 < length (freeDofs inp))%nat).
    { destruct (freeDofs inp); [by apply elem_of_nil in Hi|simpl; lia]. }
    unfold freeDisplacements in Hfd. rewrite decide_True in Hfd by done.
    destruct (solveLinearSystem_solves (length (freeDofs inp)) (reducedK inp)
                (reducedF inp) (square_reducedK inp) (length_reducedF inp) Hns)
      as (b & Hb & _ & Hsol).
    rewrite Hfd in Hb. injection Hb as ->.
    by apply reactions_free_zero.
Qed.


Lemma reducedK_cantilever :
  reducedK cantilever = [[lit 12; - lit 6]; [- lit 6; lit 4]].
Proof. compute_done. Qed.

Lemma nonsingular_cantilever : nonsingular (reducedK cantilever).
Proof.
  rewrite reducedK_cantilever. intros x Hlen Hx.
  destruct x as [|x0 [|x1 [|? ?]]]; try discriminate Hlen.
  assert (Hsq : square 2 [[lit 12; - lit 6]; [- lit 6; lit 4]])
    by (split; [reflexivity|by repeat constructor]).
  pose proof (f_equal (λ v, rd v 0) Hx) as H0.
  pose proof (f_equal (λ v, rd v 1) Hx) as H1. cbv beta in H0, H1.
  rewrite (rd_matVec 2) in H0, H1 by (done || lia).
  unfold rowDot, at2, row, rd in H0, H1.
  cbn [sumTo lookup list_lookup default from_option id length replicate] in H0, H1.
  pose proof (Qeq_refl (this 0)) as E0. rewrite <- H0 in E0 at 1.
  pose proof (Qeq_refl (this 0)) as E1. rewrite <- H1 in E1 at 1.
  cbn [this Qcplus Qcmult Qcopp Q2Qc lit Qc_of_Z] in E0, E1.
  rewrite !Qred_correct in E0, E1. unfold inject_Z in E0, E1.
  assert (X0 : x0 = 0)
    by (apply Qc_is_canon; cbn [this Q2Qc]; rewrite Qred_correct; lra).
  assert (X1 : x1 = 0)
    by (apply Qc_is_canon; cbn [this Q2Qc]; rewrite Qred_correct; lra).
  by rewrite X0, X1.
Qed.

Lemma reactions_equilibrium_witness :
  nonsingular (reducedK cantilever)
  ∧ ∃ m, assembleBeamModel cantilever = Return m
      ∧ ∀ i, i ∈ freeDofs cantilever → rd (Model.reactions m) i = 0.
Proof.
  split; [apply nonsingular_cantilever|].
  destruct (reactions_equilibrium cantilever) as (m & Hm & _ & Hfree).
  exists m. split; [exact Hm|]. apply Hfree, nonsingular_cantilever.
Defined.

(** ** The solver on a store: what it leaves untouched *)

Lemma Forall_swap {A} (P : A → Prop) (l : list A) i j :
  Forall P l → Forall P (swap l i j).
Proof.
  intros Hl. unfold swap.
  destruct (l !! i) as [x|] eqn:Hx, (l !! j) as [y|] eqn:Hy; try done.
  apply Forall_insert; [apply Forall_insert; [done|]|].
  - by eapply (Forall_lookup_1 _ _ _ _ Hl).
  - by eapply (Forall_lookup_1 _ _ _ _ Hl).
Qed.

Section frame.
Variables (n0 : nat) (h0 : Heap.heap) (a b : Heap.loc).
Hypothesis a_fresh : (n0 ≤ a)%nat.
Hypothesis b_fresh : (n0 ≤ b)%nat.

Lemma framed_write_numbers h l v :
  (n0 ≤ l)%nat → framed n0 h0 h a → framed n0 h0 (<[l := Heap.Numbers v]> h) a.
Proof.
  intros Hl (Hlen & Hlow & Hrows). split; [by rewrite length_insert|]. split.
  - intros l' Hl'. rewrite list_lookup_insert_ne by lia. by apply Hlow.
  - unfold Heap.rowsAt, Heap.rows in *. destruct (decide (l = a)) as [->|Hne].
    + destruct (decide (a < length h)%nat).
      * rewrite list_lookup_insert_eq by done. by constructor.
      * by rewrite list_insert_ge by lia.
    + by rewrite list_lookup_insert_ne.
Qed.

Lemma framed_setEntry h k j x :
  framed n0 h0 h a → framed n0 h0 (Heap.setEntry a k j x h) a.
Proof.
  intros Hf. unfold Heap.setEntry.
  destruct (Heap.rowsAt h a !! k) as [r|] eqn:Hr; [|done].
  apply framed_write_numbers; [|done].
  destruct Hf as (_ & _ & Hrows). by eapply (Forall_lookup_1 _ _ _ _ Hrows).
Qed.

Lemma framed_setItem h k x :
  framed n0 h0 h a → framed n0 h0 (Heap.setItem b k x h) a.
Proof. intros Hf. by apply framed_write_numbers. Qed.

Lemma framed_swapItems h i m :
  framed n0 h0 h a → framed n0 h0 (Heap.swapItems b i m h) a.
Proof. intros Hf. by apply framed_write_numbers. Qed.

Lemma framed_swapRows h i m :
  framed n0 h0 h a → framed n0 h0 (Heap.swapRows a i m h) a.
Proof.
  intros (Hlen & Hlow & Hrows). unfold Heap.swapRows.
  split; [by rewrite length_insert|]. split.
  - intros l Hl. rewrite list_lookup_insert_ne by lia. by apply Hlow.
  - destruct (decide (a < length h)%nat).
    + unfold Heap.rowsAt at 1, Heap.rows. rewrite list_lookup_insert_eq by done.
      simpl. by apply Forall_swap.
    + by rewrite list_insert_ge by lia.
Qed.

Lemma framed_fold {A} (f : Heap.heap → A → Heap.heap) (l : list A) : ∀ h,
  (∀ h x, framed n0 h0 h a → framed n0 h0 (f h x) a) →
  framed n0 h0 h a → framed n0 h0 (fold_left f l h) a.
Proof.
  induction l as [|x l IH]; intros h Hf Hh; simpl; [done|].
  apply IH; [done|]. by apply Hf.
Qed.

Lemma framed_scaleRow size h i pivot :
  framed n0 h0 h a → framed n0 h0 (Heap.scaleRow size a i pivot h) a.
Proof.
  intros Hf. apply framed_fold; [|done]. intros. by apply framed_setEntry.
Qed.

Lemma framed_eliminateRow size h i k :
  framed n0 h0 h a → framed n0 h0 (Heap.eliminateRow size a b i k h) a.
Proof.
  intros Hf. apply framed_setItem, framed_fold; [|done].
  intros. by apply framed_setEntry.
Qed.

Lemma framed_pivotStep size h i :
  framed n0 h0 h a → framed n0 h0 (Heap.pivotStep size a b h i) a.
Proof.
  intros Hf. unfold Heap.pivotStep. apply framed_fold.
  - intros h' k Hf'. case_decide; [done|]. by apply framed_eliminateRow.
  - apply framed_setItem, framed_scaleRow.
    case_decide; [|done]. by apply framed_swapItems, framed_swapRows.
Qed.
End frame.

(** The copies of the rows are fresh objects. *)
Lemma copyRows_spec rs : ∀ h h' c,
  Heap.copyRows rs h = (h', c) →
  (∃ new, h' = h ++ new)
  ∧ ∀ rs', c = Return rs' → Forall (λ r, length h ≤ r)%nat rs'.
Proof.
  induction rs as [|r rs IH]; intros h h' c; simpl.
  - intros [= <- <-]. split; [exists []; by rewrite app_nil_r|].
    by intros rs' [= <-].
  - destruct (Heap.numbers h r) as [v|]; [|intros [= <- <-]].
    + destruct (Heap.copyRows rs (h ++ [Heap.Numbers v])) as [h1 c1] eqn:Hcopy.
      destruct (IH _ _ _ Hcopy) as [[new ->] Hfresh].
      destruct c1 as [rs1|e]; intros [= <- <-].
      * split; [exists ([Heap.Numbers v] ++ new); by rewrite app_assoc|].
        intros rs' [= <-]. constructor; [done|].
        eapply Forall_impl; [by apply Hfresh|]. simpl. intros r1.
        rewrite length_app. simpl. lia.
      * split; [exists ([Heap.Numbers v] ++ new); by rewrite app_assoc|done].
    + split; [exists []; by rewrite app_nil_r|done].
Qed.

Lemma framed_prefix h0 h a :
  framed (length h0) h0 h a → ∃ new, h = h0 ++ new.
Proof.
  intros (Hlen & Hlow & _). exists (drop (length h0) h).
  rewrite <- (take_drop (length h0) h) at 1. f_equal.
  apply list_eq. intros l. destruct (decide (l < length h0)%nat).
  - rewrite lookup_take_lt by done. by apply Hlow.
  - rewrite lookup_take_ge, lookup_ge_None_2 by lia. done.
Qed.

Lemma heap_solveLinearSystem_prefix (h : Heap.heap) (matrix vector : Heap.loc) :
  ∃ new, (Heap.solveLinearSystem matrix vector h).1 = h ++ new.
Proof.
  unfold Heap.solveLinearSystem.
  destruct (Heap.numbers h vector) as [v|]; [|exists []; by rewrite app_nil_r].
  destruct (Heap.rows h matrix) as [rs|]; [|exists []; by rewrite app_nil_r].
  destruct (Heap.copyRows rs h) as [h1 c] eqn:Hcopy.
  destruct (copyRows_spec rs h h1 c Hcopy) as [[new ->] Hfresh].
  destruct c as [rs'|e]; [|by exists new]. unfold Heap.alloc.
  case_decide.
  { exists (new ++ [Heap.Rows rs'] ++ [Heap.Numbers v]). simpl.
    by rewrite <- !app_assoc. }
  simpl. apply (framed_prefix h _ (length (h ++ new))).
  apply framed_fold.
  - intros h' i Hf. apply framed_pivotStep; [..|done]; rewrite !length_app; simpl; lia.
  - split; [rewrite !length_app; lia|]. split.
    + intros l Hl. by rewrite <- !app_assoc, lookup_app_l.
    + unfold Heap.rowsAt, Heap.rows.
      rewrite lookup_app_l by (rewrite !length_app; simpl; lia).
      rewrite lookup_app_r, Nat.sub_diag by done. simpl. by apply Hfresh.
Qed.

Lemma numbers_app h new l v :
  Heap.numbers h l = Some v → Heap.numbers (h ++ new) l = Some v.
Proof.
  unfold Heap.numbers. destruct (h !! l) as [o|] eqn:Ho; [|done].
  by rewrite (lookup_app_l_Some _ _ _ _ Ho).
Qed.

Lemma rows_app h new l rs :
  Heap.rows h l = Some rs → Heap.rows (h ++ new) l = Some rs.
Proof.
  unfold Heap.rows. destruct (h !! l) as [o|] eqn:Ho; [|done].
  by rewrite (lookup_app_l_Some _ _ _ _ Ho).
Qed.

Lemma matrixAt_app h new l m :
  Heap.matrixAt h l = Some m → Heap.matrixAt (h ++ new) l = Some m.
Proof.
  unfold Heap.matrixAt. destruct (Heap.rows h l) as [rs|] eqn:Hrs; [|done].
  rewrite (rows_app _ new _ _ Hrs). simpl. rewrite !mapM_Some.
  intros Hm. eapply Forall2_impl; [done|]. simpl. intros r v. apply numbers_app.
Qed.

(** C10: the call leaves every object of the caller's store as it was; in
    particular the matrix, its rows and the vector hold the same values
    after the call as before.  The solver only writes into the copies it
    allocates. *)
Theorem heap_solveLinearSystem_frame (h : Heap.heap) (matrix vector : Heap.loc) :
  let h' := (Heap.solveLinearSystem matrix vector h).1 in
  (∀ l o, h !! l = Some o → h' !! l = Some o)
  ∧ (∀ m, Heap.matrixAt h matrix = Some m → Heap.matrixAt h' matrix = Some m)
  ∧ (∀ v, Heap.numbers h vector = Some v → Heap.numbers h' vector = Some v).
Proof.
  destruct (heap_solveLinearSystem_prefix h matrix vector) as [new Hnew].
  cbv zeta. rewrite Hnew. split_and!.
  - intros l o. apply lookup_app_l_Some.
  - intros m. apply matrixAt_app.
  - intros v. apply numbers_app.
Qed.

Lemma heap_solveLinearSystem_frame_witness :
  let h' := (Heap.solveLinearSystem 3%nat 0%nat Heap.sampleHeap).1 in
  Heap.matrixAt Heap.sampleHeap 3%nat = Some [[lit 2; 1]; [1; lit 3]]
  ∧ Heap.numbers Heap.sampleHeap 0%nat = Some [lit 3; lit 5]
  ∧ Heap.matrixAt h' 3%nat = Some [[lit 2; 1]; [1; lit 3]]
  ∧ Heap.numbers h' 0%nat = Some [lit 3; lit 5].
Proof.
  destruct (heap_solveLinearSystem_frame Heap.sampleHeap 3%nat 0%nat) as (_ & Hm & Hv).
  split; [reflexivity|]. split; [reflexivity|].
  split; [apply Hm; reflexivity|apply Hv; reflexivity].
Defined.

(** ** The solver on a store computes what the solver on values computes *)

Lemma numbers_insert_ne (h : Heap.heap) l l' o :
  l ≠ l' → Heap.numbers (<[l := o]> h) l' = Heap.numbers h l'.
Proof. intros Hne. unfold Heap.numbers. by rewrite list_lookup_insert_ne. Qed.

Lemma rows_insert_ne (h : Heap.heap) l l' o :
  l ≠ l' → Heap.rows (<[l := o]> h) l' = Heap.rows h l'.
Proof. intros Hne. unfold Heap.rows. by rewrite list_lookup_insert_ne. Qed.

Lemma numbers_insert_eq (h : Heap.heap) l v :
  (l < length h)%nat → Heap.numbers (<[l := Heap.Numbers v]> h) l = Some v.
Proof. intros Hl. unfold Heap.numbers. by rewrite list_lookup_insert_eq. Qed.

Lemma rows_insert_eq (h : Heap.heap) l rs :
  (l < length h)%nat → Heap.rows (<[l := Heap.Rows rs]> h) l = Some rs.
Proof. intros Hl. unfold Heap.rows. by rewrite list_lookup_insert_eq. Qed.

Lemma numbers_lt (h : Heap.heap) l v : Heap.numbers h l = Some v → (l < length h)%nat.
Proof.
  unfold Heap.numbers. destruct (h !! l) as [o|] eqn:Ho; [|done].
  intros _. by eapply lookup_lt_Some.
Qed.

Lemma rows_lt (h : Heap.heap) l rs : Heap.rows h l = Some rs → (l < length h)%nat.
Proof.
  unfold Heap.rows. destruct (h !! l) as [o|] eqn:Ho; [|done].
  intros _. by eapply lookup_lt_Some.
Qed.

Lemma fold_left_ext {A B} (f g : A → B → A) (l : list B) : ∀ a,
  (∀ a x, f a x = g a x) → fold_left f l a = fold_left g l a.
Proof.
  induction l as [|x l IH]; intros a H; simpl; [done|]. by rewrite H, IH.
Qed.

Lemma NoDup_swap {A} (l : list A) i j : NoDup l → NoDup (swap l i j).
Proof.
  intros Hl. unfold swap.
  destruct (l !! i) as [x|] eqn:Hx, (l !! j) as [y|] eqn:Hy; try done.
  apply NoDup_alt. intros k1 k2 z H1 H2.
  pose proof (lookup_lt_Some _ _ _ Hx) as Hi.
  pose proof (lookup_lt_Some _ _ _ Hy) as Hj.
  assert (Hsw : ∀ k, <[j:=x]> (<[i:=y]> l) !! k = l !! transpose i j k).
  { intros k. rewrite <- (lookup_swap l i j k) by done. unfold swap. by rewrite Hx, Hy. }
  rewrite Hsw in H1, H2.
  pose proof (NoDup_lookup _ _ _ _ Hl H1 H2) as Heq.
  by rewrite <- (transpose_involutive i j k1), Heq, transpose_involutive.
Qed.

Lemma elem_of_swap {A} (l : list A) i j x : x ∈ swap l i j → x ∈ l.
Proof.
  unfold swap.
  destruct (l !! i) as [y|] eqn:Hy, (l !! j) as [z|] eqn:Hz; try done.
  intros [k Hk]%list_elem_of_lookup_1.
  pose proof (lookup_lt_Some _ _ _ Hy). pose proof (lookup_lt_Some _ _ _ Hz).
  assert (Hsw : <[j:=y]> (<[i:=z]> l) !! k = l !! transpose i j k).
  { rewrite <- (lookup_swap l i j k) by done. unfold swap. by rewrite Hy, Hz. }
  rewrite Hsw in Hk. by eapply list_elem_of_lookup_2.
Qed.

Lemma swap_ge {A} (l : list A) i j :
  (length l ≤ i)%nat ∨ (length l ≤ j)%nat → swap l i j = l.
Proof.
  intros [H|H]; unfold swap.
  - by rewrite (lookup_ge_None_2 l i).
  - rewrite (lookup_ge_None_2 l j) by done. by destruct (l !! i).
Qed.

Section represents.
Variables (a b : Heap.loc).

Lemma represents_entry h A B k i :
  represents h a b A B → Heap.entry h a k i = at2 A k i.
Proof.
  intros (rs & Hrows & _ & _ & _ & _ & Hall & _).
  unfold Heap.entry, Heap.rowsAt, at2, row. rewrite Hrows. simpl.
  destruct (rs !! k) as [r|] eqn:Hr.
  - destruct (Forall2_lookup_l _ _ _ _ _ Hall Hr) as (v & -> & Hv).
    unfold Heap.numbersAt. by rewrite Hv.
  - apply Forall2_length in Hall. apply lookup_ge_None in Hr.
    by rewrite lookup_ge_None_2 by lia.
Qed.

Lemma represents_item h A B k :
  represents h a b A B → Heap.item h b k = rd B k.
Proof.
  intros (rs & _ & _ & _ & _ & _ & _ & HB).
  unfold Heap.item, Heap.numbersAt. by rewrite HB.
Qed.

Lemma represents_setEntry h A B k j x :
  represents h a b A B → represents (Heap.setEntry a k j x h) a b (set2 A k j x) B.
Proof.
  intros (rs & Hrows & Hnd & Ha & Hb & Hab & Hall & HB).
  unfold Heap.setEntry, Heap.rowsAt, set2, row. rewrite Hrows. simpl.
  destruct (rs !! k) as [r|] eqn:Hr.
  - destruct (Forall2_lookup_l _ _ _ _ _ Hall Hr) as (v & Hv & Hnum).
    unfold Heap.numbersAt. rewrite Hnum, Hv. simpl.
    pose proof (list_elem_of_lookup_2 _ _ _ Hr) as Hin.
    exists rs. split_and!; try done.
    + rewrite rows_insert_ne; [done|by intros ->].
    + apply Forall2_same_length_lookup. split.
      { rewrite length_insert. by apply Forall2_length in Hall. }
      intros i r' v' Hr' Hv'. destruct (decide (i = k)) as [->|Hne].
      * rewrite Hr in Hr'. injection Hr' as <-.
        rewrite list_lookup_insert_eq in Hv' by (by eapply lookup_lt_Some).
        injection Hv' as <-. apply numbers_insert_eq. by eapply numbers_lt.
      * rewrite list_lookup_insert_ne in Hv' by done.
        rewrite numbers_insert_ne.
        -- by eapply (Forall2_lookup_lr _ _ _ i _ _ Hall).
        -- intros ->. apply Hne. by eapply (NoDup_lookup _ _ _ _ Hnd).
    + rewrite numbers_insert_ne; [done|by intros ->].
  - apply Forall2_length in Hall as Hlen. apply lookup_ge_None in Hr.
    rewrite list_insert_ge by lia. by exists rs.
Qed.

Lemma Forall2_numbers_frame (rs : list Heap.loc) (A : mat) (h h' : Heap.heap) :
  Forall2 (λ r v, Heap.numbers h r = Some v) rs A →
  (∀ r, r ∈ rs → Heap.numbers h' r = Heap.numbers h r) →
  Forall2 (λ r v, Heap.numbers h' r = Some v) rs A.
Proof.
  intros Hall Hsame. apply Forall2_same_length_lookup.
  split; [by apply Forall2_length in Hall|]. intros i r v Hr Hv.
  rewrite Hsame by (by eapply list_elem_of_lookup_2).
  by eapply (Forall2_lookup_lr _ _ _ i _ _ Hall).
Qed.

Lemma represents_setItem h A B k x :
  represents h a b A B → represents (Heap.setItem b k x h) a b A (<[k := x]> B).
Proof.
  intros (rs & Hrows & Hnd & Ha & Hb & Hab & Hall & HB).
  unfold Heap.setItem, Heap.numbersAt. rewrite HB. simpl.
  exists rs. split_and!; try done.
  - by rewrite rows_insert_ne.
  - apply (Forall2_numbers_frame _ _ h); [done|].
    intros r Hr. apply numbers_insert_ne. by intros ->.
  - apply numbers_insert_eq. by eapply numbers_lt.
Qed.

Lemma represents_swapItems h A B i m :
  represents h a b A B → represents (Heap.swapItems b i m h) a b A (swap B i m).
Proof.
  intros (rs & Hrows & Hnd & Ha & Hb & Hab & Hall & HB).
  unfold Heap.swapItems, Heap.numbersAt. rewrite HB. simpl.
  exists rs. split_and!; try done.
  - by rewrite rows_insert_ne.
  - apply (Forall2_numbers_frame _ _ h); [done|].
    intros r Hr. apply numbers_insert_ne. by intros ->.
  - apply numbers_insert_eq. by eapply numbers_lt.
Qed.

Lemma represents_swapRows h A B i m :
  represents h a b A B → represents (Heap.swapRows a i m h) a b (swap A i m) B.
Proof.
  intros (rs & Hrows & Hnd & Ha & Hb & Hab & Hall & HB).
  unfold Heap.swapRows, Heap.rowsAt. rewrite Hrows. simpl.
  pose proof (Forall2_length _ _ _ Hall) as Hlen.
  exists (swap rs i m). split_and!; try done.
  - apply rows_insert_eq. by eapply rows_lt.
  - by apply NoDup_swap.
  - intros Hin. by apply Ha, (elem_of_swap rs i m).
  - intros Hin. by apply Hb, (elem_of_swap rs i m).
  - assert (Hrs : ∀ r, r ∈ rs →
      Heap.numbers (<[a := Heap.Rows (swap rs i m)]> h) r = Heap.numbers h r).
    { intros r Hr. apply numbers_insert_ne. by intros ->. }
    pose proof (Forall2_numbers_frame _ _ _ _ Hall Hrs) as Hall'.
    destruct (decide (i < length rs)%nat) as [Hi|Hi];
      [destruct (decide (m < length rs)%nat) as [Hm|Hm]|].
    + apply Forall2_same_length_lookup. split; [by rewrite !length_swap|].
      intros k r v. rewrite !lookup_swap by lia. intros Hr Hv.
      by eapply (Forall2_lookup_lr _ _ _ _ _ _ Hall').
    + rewrite (swap_ge rs), (swap_ge A) in * by lia. done.
    + rewrite (swap_ge rs), (swap_ge A) in * by lia. done.
  - by rewrite numbers_insert_ne.
Qed.

Lemma selectPivotRow_represents h A B size i :
  represents h a b A B → Heap.selectPivotRow size a i h = selectPivotRow size A i.
Proof.
  intros Hrep. unfold Heap.selectPivotRow, selectPivotRow.
  apply fold_left_ext. intros maxRow k.
  by rewrite !(represents_entry h A B).
Qed.

(** A loop on the store against the same loop on the matrix. *)
Lemma represents_fold_mat {X} (fh : Heap.heap → X → Heap.heap) (fp : mat → X → mat)
    (B : vec) (l : list X) :
  (∀ h A x, represents h a b A B → represents (fh h x) a b (fp A x) B) →
  ∀ h A, represents h a b A B →
    represents (fold_left fh l h) a b (fold_left fp l A) B.
Proof.
  intros Hstep. induction l as [|x l IH]; intros h A Hrep; simpl; [done|].
  by apply IH, Hstep.
Qed.

(** A loop on the store against the same loop on the matrix and the
    vector. *)
Lemma represents_fold_pair {X} (fh : Heap.heap → X → Heap.heap)
    (fp : mat * vec → X → mat * vec) (l : list X) :
  (∀ h A B x, represents h a b A B →
     represents (fh h x) a b (fp (A, B) x).1 (fp (A, B) x).2) →
  ∀ h A B, represents h a b A B →
    represents (fold_left fh l h) a b (fold_left fp l (A, B)).1 (fold_left fp l (A, B)).2.
Proof.
  intros Hstep. induction l as [|x l IH]; intros h A B Hrep; simpl; [done|].
  specialize (Hstep h A B x Hrep). destruct (fp (A, B) x) as [A1 B1]. by apply IH.
Qed.

Lemma scaleRow_represents h A B size i pivot :
  represents h a b A B →
  represents (Heap.scaleRow size a i pivot h) a b (scaleRow size i pivot A) B.
Proof.
  apply represents_fold_mat. clear h A. intros h A j Hrep.
  rewrite (represents_entry h A B) by done. by apply represents_setEntry.
Qed.

Lemma eliminateRow_represents h A B size i k :
  represents h a b A B →
  represents (Heap.eliminateRow size a b i k h) a b
    (eliminateRow size i k (A, B)).1 (eliminateRow size i k (A, B)).2.
Proof.
  intros Hrep. unfold Heap.eliminateRow, eliminateRow. cbn [fst snd].
  rewrite (represents_entry h A B) by done.
  set (factor := at2 A k i).
  assert (Hloop : represents
    (fold_left (λ h j, Heap.setEntry a k j
                  (Heap.entry h a k j - factor * Heap.entry h a i j) h)
       (seq i (size - i)) h) a b
    (fold_left (λ A j, set2 A k j (at2 A k j - factor * at2 A i j))
       (seq i (size - i)) A) B).
  { apply represents_fold_mat; [|done]. intros h' A' j Hrep'.
    rewrite !(represents_entry h' A' B) by done. by apply represents_setEntry. }
  rewrite !(represents_item _ _ _ _ Hloop).
  by apply represents_setItem.
Qed.
End represents.

Section represents_steps.
Variables (a b : Heap.loc).

Lemma pivotStep_represents h A B size i :
  represents h a b A B →
  represents (Heap.pivotStep size a b h i) a b
    (pivotStep size (A, B) i).1 (pivotStep size (A, B) i).2.
Proof.
  intros Hrep. unfold Heap.pivotStep, pivotStep.
  rewrite (selectPivotRow_represents a b h A B) by done.
  set (maxRow := selectPivotRow size A i).
  assert (Hex : ∃ h1 A1 B1,
    (if decide (maxRow ≠ i)
     then Heap.swapItems b i maxRow (Heap.swapRows a i maxRow h) else h) = h1
    ∧ (if decide (maxRow ≠ i) then (swap A i maxRow, swap B i maxRow) else (A, B))
      = (A1, B1)
    ∧ represents h1 a b A1 B1).
  { case_decide; eexists _, _, _; split_and!; try done.
    by apply represents_swapItems, represents_swapRows. }
  destruct Hex as (h1 & A1 & B1 & -> & -> & Hrep1).
  rewrite !(represents_entry a b h1 A1 B1) by done.
  set (pivot := if decide (at2 A1 i i = 0) then epsilon else at2 A1 i i).
  pose proof (scaleRow_represents a b h1 A1 B1 size i pivot Hrep1) as Hrep2.
  rewrite (represents_item a b _ _ _ _ Hrep2).
  apply (represents_setItem a b _ _ _ i (rd B1 i / pivot)) in Hrep2.
  apply represents_fold_pair; [|done].
  intros h' A' B' k Hrep'. case_decide; [done|].
  by apply eliminateRow_represents.
Qed.

Lemma solver_represents h A B size is_ :
  represents h a b A B →
  represents (fold_left (Heap.pivotStep size a b) is_ h) a b
    (fold_left (pivotStep size) is_ (A, B)).1 (fold_left (pivotStep size) is_ (A, B)).2.
Proof.
  apply represents_fold_pair. intros h' A' B' i. apply pivotStep_represents.
Qed.
End represents_steps.

(** The copy of a well-formed matrix. *)
Lemma copyRows_Some rs : ∀ (m : mat) h,
  Forall2 (λ r v, Heap.numbers h r = Some v) rs m →
  Heap.copyRows rs h
  = (h ++ (Heap.Numbers <$> m), Return (seq (length h) (length m))).
Proof.
  induction rs as [|r rs IH]; intros m h Hall.
  - apply Forall2_nil_inv_l in Hall as ->. simpl. by rewrite app_nil_r.
  - apply Forall2_cons_inv_l in Hall as (v & m' & Hv & Hall & ->).
    cbn [Heap.copyRows]. rewrite Hv. unfold Heap.alloc.
    rewrite (IH m' (h ++ [Heap.Numbers v])).
    + rewrite length_app, Nat.add_1_r, <- app_assoc. done.
    + eapply Forall2_impl; [done|]. simpl. intros r' v'. apply numbers_app.
Qed.

(** The solver on a store returns a reference to the vector that the
    solver on values returns, and throws when it throws. *)
Lemma heap_solveLinearSystem_refines (h : Heap.heap) (matrix vector : Heap.loc)
    (m : mat) (v : vec) :
  Heap.matrixAt h matrix = Some m → Heap.numbers h vector = Some v →
  match solveLinearSystem m v with
  | Return x =>
      ∃ h' bl, Heap.solveLinearSystem matrix vector h = (h', Return bl)
               ∧ Heap.numbers h' bl = Some x
  | Throw e => ∃ h', Heap.solveLinearSystem matrix vector h = (h', Throw e)
  end.
Proof.
  unfold Heap.matrixAt. intros Hm Hv.
  destruct (Heap.rows h matrix) as [rs|] eqn:Hrs; [|done].
  simpl in Hm. apply mapM_Some in Hm.
  unfold Heap.solveLinearSystem, solveLinearSystem.
  rewrite Hv, Hrs, (copyRows_Some rs m h Hm). unfold Heap.alloc.
  rewrite length_seq. case_decide as Hsize; [by eexists|].
  eexists _, _. split; [done|].
  set (h1 := h ++ (Heap.Numbers <$> m)).
  set (a := length h1).
  set (h2 := h1 ++ [Heap.Rows (seq (length h) (length m))]).
  set (b := length h2).
  assert (Hrep : represents (h2 ++ [Heap.Numbers v]) a b m v).
  { assert (Ha : a = (length h + length m)%nat)
      by (unfold a, h1; by rewrite length_app, length_fmap).
    assert (Hb : b = S a) by (unfold b, h2; rewrite length_app; simpl; lia).
    exists (seq (length h) (length m)). split_and!.
    - unfold Heap.rows. rewrite lookup_app_l by (fold b; lia).
      unfold h2. by rewrite lookup_app_r, Nat.sub_diag by done.
    - apply NoDup_seq.
    - rewrite elem_of_seq. lia.
    - rewrite elem_of_seq. lia.
    - lia.
    - apply Forall2_same_length_lookup. split; [by rewrite length_seq|].
      intros i r w [-> Hi]%lookup_seq Hw. unfold Heap.numbers, h2, h1.
      rewrite <- !app_assoc, lookup_app_r by lia.
      rewrite lookup_app_l by (rewrite length_fmap; lia).
      replace (length h + i - length h)%nat with i by lia.
      by rewrite list_lookup_fmap, Hw.
    - unfold Heap.numbers. by rewrite lookup_app_r, Nat.sub_diag by done. }
  destruct (solver_represents a b _ _ _ (length v) (seq 0 (length v)) Hrep)
    as (_ & _ & _ & _ & _ & _ & _ & Hres).
  done.
Qed.

(** * Further properties of the code *)

(** ** The linear solver *)












(** ** The assembled system without loads *)



Lemma rowTimes_zeros n (row : vec) : rowTimes (replicate n 0) row = 0.
Proof.
  rewrite rowTimes_sumTo. rewrite (sumTo_ext _ _ (λ _, 0)); [apply sumTo_zero|].
  intros j _. rewrite rd_replicate. ring.
Qed.



(** ** The mesh *)

(** X4: the mesh holds the breakpoints and nothing else, and it has at
    least one node and at most one node per breakpoint. *)
Theorem nodePositions_exactly_breakpoints (inp : Input.t) :
  (∀ x, x ∈ nodePositions inp ↔ x ∈ breakpoints inp)
  ∧ (1 ≤ nodeCount inp ≤ length (breakpoints inp))%nat.
Proof.
  split; [intros x; apply elem_of_uniqueSorted|]. split; [apply nodeCount_pos|].
  unfold nodeCount, nodePositions. fold (breakpoints inp).
  rewrite uniqueSorted_Permutation.
  apply submseteq_length, NoDup_submseteq; [apply NoDup_setOf|].
  intros x. by rewrite elem_of_setOf.
Qed.

(** X5: the mesh depends on the set of values only, not on their order or
    multiplicity; in particular sorting a mesh again changes nothing. *)
Theorem uniqueSorted_canonical (values values' : vec) :
  (∀ x, x ∈ values ↔ x ∈ values') → uniqueSorted values = uniqueSorted values'.
Proof.
  intros Hsame.
  apply (StronglySorted_unique_strong Qclt);
    [|apply StronglySorted_uniqueSorted..|].
  - intros x1 x2 _ _ H12 H21. destruct (Qclt_not_le _ _ H12). by apply Qclt_le_weak.
  - apply NoDup_Permutation; [apply NoDup_uniqueSorted..|].
    intros x. by rewrite !elem_of_uniqueSorted.
Qed.

Lemma uniqueSorted_canonical_witness :
  (∀ x, x ∈ uniqueSorted [lit 3; 1; lit 3; 0] ↔ x ∈ [lit 3; 1; lit 3; 0])
  ∧ uniqueSorted (uniqueSorted [lit 3; 1; lit 3; 0]) = uniqueSorted [lit 3; 1; lit 3; 0].
Proof.
  assert (H : ∀ x, x ∈ uniqueSorted [lit 3; 1; lit 3; 0] ↔ x ∈ [lit 3; 1; lit 3; 0])
    by (intros x; apply elem_of_uniqueSorted).
  split; [exact H|].
  exact (uniqueSorted_canonical (uniqueSorted [lit 3; 1; lit 3; 0])
           [lit 3; 1; lit 3; 0] H).
Defined.

Lemma indexOf_Some (l : vec) x k :
  NoDup l → indexOf l x = Some k ↔ l !! k = Some x.
Proof.
  intros Hnd. unfold indexOf. split.
  - destruct (list_find _ l) as [[i y]|] eqn:Hfind; [|done].
    intros [= <-]. by apply list_find_Some in Hfind as (Hi & -> & _).
  - intros Hk.
    destruct (list_find (λ y, y = x) l) as [[i y]|] eqn:Hfind.
    + apply list_find_Some in Hfind as (Hi & -> & _). simpl. f_equal.
      by eapply (NoDup_lookup l).
    + apply list_find_None in Hfind. rewrite Forall_forall in Hfind.
      destruct (Hfind x); [by eapply list_elem_of_lookup_2|done].
Qed.

(** X6: [indexOf] never misses: every support, every point load and every
    end of a distributed load sits on a node of the mesh, so no load and no
    support is dropped by the assembler. *)
Theorem indexOf_breakpoint (inp : Input.t) (x : Qc) :
  x ∈ breakpoints inp →
  ∃ k, indexOf (nodePositions inp) x = Some k
       ∧ (k < nodeCount inp)%nat
       ∧ nodePositions inp !! k = Some x.
Proof.
  intros Hx. apply elem_of_uniqueSorted in Hx.
  apply list_elem_of_lookup_1 in Hx as [k Hk]. exists k. split_and!.
  - apply indexOf_Some; [apply NoDup_uniqueSorted|done].
  - by eapply lookup_lt_Some.
  - done.
Qed.

Lemma indexOf_breakpoint_witness :
  1 ∈ breakpoints cantilever
  ∧ ∃ k, indexOf (nodePositions cantilever) 1 = Some k
         ∧ (k < nodeCount cantilever)%nat
         ∧ nodePositions cantilever !! k = Some 1.
Proof.
  assert (H : 1 ∈ breakpoints cantilever) by (apply list_elem_of_In; compute; tauto).
  split; [exact H|]. exact (indexOf_breakpoint cantilever 1 H).
Defined.

(** ** Boundary conditions *)

Lemma elem_of_addSupport nodes (c : gset nat) s i :
  i ∈ addSupport nodes c s
  ↔ i ∈ c ∨ ∃ k, indexOf nodes (Support.position s) = Some k ∧ constrains s k i.
Proof.
  unfold addSupport, constrains.
  destruct (indexOf nodes (Support.position s)) as [k|]; [|naive_solver].
  destruct (Support.type s); repeat case_decide; try naive_solver;
    set_unfold; naive_solver.
Qed.

Lemma elem_of_addSupport_fold nodes supports : ∀ (c : gset nat) i,
  i ∈ fold_left (addSupport nodes) supports c
  ↔ i ∈ c ∨ ∃ s k, s ∈ supports
                   ∧ indexOf nodes (Support.position s) = Some k ∧ constrains s k i.
Proof.
  induction supports as [|s supports IH]; intros c i; cbn [fold_left].
  - split; [by left|]. intros [?|(s & k & Hs & _)]; [done|by apply elem_of_nil in Hs].
  - rewrite IH, elem_of_addSupport. split.
    + intros [[?|(k & ? & ?)]|(s' & k & ? & ? & ?)]; [by left|right..].
      * exists s, k. split_and!; [by left|done..].
      * exists s', k. split_and!; [by right|done..].
    + intros [?|(s' & k & [->|?]%elem_of_cons & ? & ?)].
      * by left; left.
      * left; right. by exists k.
      * right. by exists s', k.
Qed.

(** X7: a DOF is constrained exactly when a support sits on its node and
    is fixed (both DOFs of the node) or pinned or a roller (the vertical
    DOF); a support of type free constrains nothing. *)
Theorem constrained_by_supports (inp : Input.t) (i : nat) :
  i ∈ constrained inp
  ↔ ∃ s k, s ∈ Input.supports inp
           ∧ nodePositions inp !! k = Some (Support.position s)
           ∧ constrains s k i.
Proof.
  unfold constrained. rewrite elem_of_addSupport_fold. split.
  - intros [H|(s & k & Hs & Hk & Hc)]; [by apply not_elem_of_empty in H|].
    exists s, k. split_and!; [done| |done].
    by apply (indexOf_Some _ _ _ (NoDup_uniqueSorted _)).
  - intros (s & k & Hs & Hk & Hc). right. exists s, k. split_and!; [done| |done].
    by apply (indexOf_Some _ _ _ (NoDup_uniqueSorted _)).
Qed.

Lemma StronglySorted_filter_seq (P : nat → Prop) `{!∀ i, Decision (P i)} j n :
  StronglySorted lt (filter P (seq j n)).
Proof.
  revert j. induction n as [|n IH]; intros j; simpl; [constructor|].
  rewrite filter_cons. case_decide; [|apply IH]. constructor; [apply IH|].
  apply Forall_forall. intros k [_ Hk%elem_of_seq]%list_elem_of_filter. lia.
Qed.

Lemma fixedDofs_filter (inp : Input.t) :
  fixedDofs inp = filter (λ i, i ∈ constrained inp) (seq 0 (dofCount inp)).
Proof. unfold fixedDofs. by rewrite partitionDofs_filter. Qed.

(** X8: the free and the fixed DOFs split the DOFs [0 .. dofCount - 1]:
    each list is increasing, a DOF is fixed exactly when it is constrained,
    free otherwise, and together they are all the DOFs. *)
Theorem freeDofs_fixedDofs_partition (inp : Input.t) :
  StronglySorted lt (freeDofs inp)
  ∧ StronglySorted lt (fixedDofs inp)
  ∧ (∀ i, i ∈ freeDofs inp ↔ (i < dofCount inp)%nat ∧ i ∉ constrained inp)
  ∧ (∀ i, i ∈ fixedDofs inp ↔ (i < dofCount inp)%nat ∧ i ∈ constrained inp)
  ∧ freeDofs inp ++ fixedDofs inp ≡ₚ seq 0 (dofCount inp).
Proof.
  rewrite freeDofs_filter, fixedDofs_filter. split_and!.
  - apply StronglySorted_filter_seq.
  - apply StronglySorted_filter_seq.
  - intros i. rewrite list_elem_of_filter, elem_of_seq. intuition lia.
  - intros i. rewrite list_elem_of_filter, elem_of_seq. intuition lia.
  - rewrite <- (filter_app_complement (λ i, i ∉ constrained inp)
                  (seq 0 (dofCount inp))) at 3.
    f_equiv. apply reflexive_eq, list_filter_iff. intros i. split.
    + by intros ? ?.
    + intros H. by apply dec_stable.
Qed.

(** X9: the displacement vector has one entry per DOF, and it is zero at
    every constrained DOF, whatever the solver returned. *)
Theorem displacements_zero_at_constrained (inp : Input.t) :
  ∃ m, assembleBeamModel inp = Return m
    ∧ length (Model.displacements m) = dofCount inp
    ∧ ∀ i, i ∈ constrained inp → rd (Model.displacements m) i = 0.
Proof.
  destruct (assembleBeamModel_total inp) as (fd & _ & _ & ->).
  eexists. split; [done|]. simpl.
  destruct (displacements_spec inp fd) as (Hlen & _ & Hout).
  split; [done|]. intros i Hi. apply Hout. rewrite elem_of_freeDofs. tauto.
Qed.

(** ** Rigid motions and equilibrium *)

Lemma sumTo_add a b f : sumTo (a + b) f = sumTo a f + sumTo b (λ i, f (a + i)%nat).
Proof.
  induction b as [|b IH]; simpl.
  - rewrite Nat.add_0_r. ring.
  - rewrite Nat.add_succ_r. simpl. rewrite IH. ring.
Qed.

Lemma sumTo_swap n m (f : nat → nat → Qc) :
  sumTo n (λ c, sumTo m (λ e, f e c)) = sumTo m (λ e, sumTo n (λ c, f e c)).
Proof.
  induction n as [|n IH]; simpl; [by rewrite sumTo_zero|].
  by rewrite sumTo_plus, IH.
Qed.

Lemma sumTo_scale_r n c f : sumTo n (λ j, f j * c) = sumTo n f * c.
Proof.
  rewrite (sumTo_ext _ _ (λ j, c * f j)) by (intros; ring).
  rewrite sumTo_scale. ring.
Qed.



(** A sum whose terms vanish outside the four DOFs of element [e]. *)
Lemma sumTo_element n e f :
  (2 * e + 4 ≤ n)%nat →
  (∀ c, ¬ (2 * e ≤ c < 2 * e + 4)%nat → f c = 0) →
  sumTo n f = f (2 * e)%nat + f (2 * e + 1)%nat + f (2 * e + 2)%nat + f (2 * e + 3)%nat.
Proof.
  intros He Hf.
  replace n with (2 * e + (4 + (n - (2 * e + 4))))%nat by lia.
  rewrite sumTo_add, sumTo_add.
  rewrite (sumTo_ext (2 * e) _ (λ _, 0)) by (intros; apply Hf; lia).
  rewrite (sumTo_ext (n - _) _ (λ _, 0)) by (intros; apply Hf; lia).
  rewrite !sumTo_zero. cbn [sumTo]. rewrite Nat.add_0_r. ring.
Qed.

Lemma rigid_vertical α β nodes k :
  rigid α β nodes (2 * k) = α + β * rd nodes k.
Proof.
  unfold rigid. rewrite Nat.even_mul. change (Nat.even 2) with true. cbn [orb].
  by rewrite (Nat.mul_comm 2 k), Nat.div_mul by done.
Qed.

Lemma rigid_rotation α β nodes k : rigid α β nodes (2 * k + 1) = β.
Proof.
  unfold rigid. rewrite Nat.add_1_r, Nat.even_succ, Nat.odd_mul.
  change (Nat.odd 2) with false. done.
Qed.

Lemma lit_12 : lit 12 = lit 6 + lit 6.
Proof. compute_done. Qed.

Lemma lit_6 : lit 6 = lit 4 + lit 2.
Proof. compute_done. Qed.

Lemma lit_4 : lit 4 = lit 2 + lit 2.
Proof. compute_done. Qed.

(** X10: an element resists no rigid motion: the stiffness matrix of an
    element from [x1] to [x2 > x1] maps the nodal values
    [(α + β·x1, β, α + β·x2, β)] of a rigid motion to zero. *)
Theorem beamElementStiffness_rigid (E I x1 x2 α β : Qc) :
  x1 < x2 →
  matVec (beamElementStiffness E I (x2 - x1)) [α + β * x1; β; α + β * x2; β]
  = [0; 0; 0; 0].
Proof.
  intros _. unfold matVec, beamElementStiffness, rowTimes.
  cbn [fmap list_fmap imap fold_left rd lookup list_lookup default from_option id
       Nat.add compose].
  rewrite lit_12, lit_6.
  repeat match goal with |- _ :: _ = _ :: _ => f_equal end; unfold Qcdiv; ring.
Qed.

Lemma beamElementStiffness_rigid_witness :
  matVec (beamElementStiffness (lit 3) (lit 5) (lit 2 - 0)) [1 + lit 7 * 0; lit 7; 1 + lit 7 * lit 2; lit 7]
  = [0; 0; 0; 0].
Proof. apply beamElementStiffness_rigid. reflexivity. Defined.

Lemma beamElementStiffness_row_rigid (E I x1 x2 α β : Qc) ρ :
  let kLocal := beamElementStiffness E I (x2 - x1) in
  at2 kLocal ρ 0 * (α + β * x1) + at2 kLocal ρ 1 * β
  + at2 kLocal ρ 2 * (α + β * x2) + at2 kLocal ρ 3 * β = 0.
Proof.
  cbv zeta. destruct (decide (ρ < 4)%nat) as [Hρ|Hρ].
  - unfold beamElementStiffness, at2, row, rd.
    destruct ρ as [|[|[|[|ρ]]]]; [..|lia];
      cbn [lookup list_lookup default from_option id];
      rewrite ?lit_12, ?lit_6; unfold Qcdiv; ring.
  - assert (Hrow : ∀ d, at2 (beamElementStiffness E I (x2 - x1)) ρ d = 0).
    { intros d. unfold at2, row. by rewrite lookup_ge_None_2 by (simpl; lia). }
    rewrite !Hrow. ring.
Qed.

Lemma elementStiffness_rigid (E I α β : Qc) (nodes : vec) n e r :
  (2 * e + 4 ≤ n)%nat →
  sumTo n (λ c, elementStiffness E I nodes e r c * rigid α β nodes c) = 0.
Proof.
  intros He. rewrite (sumTo_element n e) by
    (done || (intros c Hc; unfold elementStiffness;
              rewrite decide_False by tauto; ring)).
  unfold elementStiffness.
  destruct (decide (2 * e ≤ r < 2 * e + 4)%nat) as [Hr|Hr].
  - rewrite !decide_True by lia.
    replace (2 * e + 2)%nat with (2 * (e + 1))%nat by lia.
    replace (2 * e + 3)%nat with (2 * (e + 1) + 1)%nat by lia.
    rewrite !rigid_vertical, !rigid_rotation.
    replace (2 * e - 2 * e)%nat with 0%nat by lia.
    replace (2 * e + 1 - 2 * e)%nat with 1%nat by lia.
    replace (2 * (e + 1) - 2 * e)%nat with 2%nat by lia.
    replace (2 * (e + 1) + 1 - 2 * e)%nat with 3%nat by lia.
    apply beamElementStiffness_row_rigid.
  - rewrite !decide_False by tauto. ring.
Qed.

Section rigid.
Variable inp : Input.t.
Variables α β : Qc.

Lemma K_row_rigid r :
  sumTo (dofCount inp) (λ c, at2 (K inp) r c * rigid α β (nodePositions inp) c) = 0.
Proof.
  rewrite (sumTo_ext _ _ (λ c, sumTo (nodeCount inp - 1)
    (λ e, elementStiffness (Input.E inp) (Input.I inp) (nodePositions inp) e r c
          * rigid α β (nodePositions inp) c))).
  2:{ intros c _. by rewrite at2_K, sumTo_scale_r. }
  rewrite sumTo_swap. rewrite (sumTo_ext _ _ (λ _, 0)); [apply sumTo_zero|].
  intros e He. apply elementStiffness_rigid. unfold dofCount. lia.
Qed.


End rigid.

(** X11: the assembled stiffness matrix resists no rigid motion: it maps
    the nodal values of every rigid motion of the mesh to zero, so the
    system without supports is singular for every input. *)
Theorem K_rigid_motion (inp : Input.t) :
  (∀ α β, matVec (K inp) (rigid α β (nodePositions inp) <$> seq 0 (dofCount inp))
          = replicate (dofCount inp) 0)
  ∧ ¬ nonsingular (K inp).
Proof.
  assert (Hker : ∀ α β,
    matVec (K inp) (rigid α β (nodePositions inp) <$> seq 0 (dofCount inp))
    = replicate (dofCount inp) 0).
  { intros α β. pose proof (square_K inp) as HK.
    apply vec_eq; [rewrite length_matVec, length_replicate; by destruct HK|].
    rewrite length_matVec. destruct HK as [HlenK HrowsK]. rewrite HlenK.
    intros r Hr. rewrite (rd_matVec (dofCount inp)), rd_replicate by done.
    rewrite <- (K_row_rigid inp α β r). apply sumTo_ext. intros c Hc.
    by rewrite rd_fmap_seq. }
  split; [done|]. intros Hns.
  pose proof (dofCount_ge_2 inp) as Hdof.
  destruct (square_K inp) as [HlenK _].
  specialize (Hns (rigid 1 0 (nodePositions inp) <$> seq 0 (dofCount inp))).
  rewrite length_fmap, length_seq, HlenK in Hns.
  specialize (Hns eq_refl (Hker 1 0)).
  pose proof (f_equal (λ v, rd v 0) Hns) as H0. cbv beta in H0.
  rewrite rd_fmap_seq, rd_replicate in H0 by lia.
  unfold rigid in H0. simpl in H0. rewrite Qcmult_0_l, Qcplus_0_r in H0.
  discriminate H0.
Qed.


(** ** The resultant of the loads *)

(** A sum whose terms vanish outside [e] and [e + 1]. *)
Lemma sumTo_pair n e f :
  (e + 2 ≤ n)%nat → (∀ k, k ≠ e → k ≠ (e + 1)%nat → f k = 0) →
  sumTo n f = f e + f (e + 1)%nat.
Proof.
  intros He Hf. replace n with (e + (2 + (n - (e + 2))))%nat by lia.
  rewrite sumTo_add, sumTo_add.
  rewrite (sumTo_ext e _ (λ _, 0)) by (intros; apply Hf; lia).
  rewrite (sumTo_ext (n - _) _ (λ _, 0)) by (intros; apply Hf; lia).
  rewrite !sumTo_zero. cbn [sumTo]. rewrite Nat.add_0_r. ring.
Qed.

Lemma lit_2 : lit 2 = 1 + 1.
Proof. compute_done. Qed.

Lemma two_nonzero : (1 + 1 : Qc) ≠ 0.
Proof. compute_done. Qed.

(** The work of the loads of one element in a rigid motion. *)
Lemma elementLoad_rigidWork udls nodes n e α β :
  (e + 2 ≤ n)%nat →
  sumTo n (λ k, (α + β * rd nodes k) * elementLoad udls nodes e (2 * k)
                + β * elementLoad udls nodes e (2 * k + 1))
  = coveringIntensity udls (rd nodes e) (rd nodes (e + 1))
    * (rigidPotential α β (rd nodes (e + 1)) - rigidPotential α β (rd nodes e)).
Proof.
  intros He. rewrite (sumTo_pair n e).
  - unfold elementLoad. rewrite !decide_True by lia.
    replace (2 * e - 2 * e)%nat with 0%nat by lia.
    replace (2 * e + 1 - 2 * e)%nat with 1%nat by lia.
    replace (2 * (e + 1) - 2 * e)%nat with 2%nat by lia.
    replace (2 * (e + 1) + 1 - 2 * e)%nat with 3%nat by lia.
    unfold equivalentLoads, rigidPotential, rd.
    cbn [lookup list_lookup default from_option id].
    rewrite lit_12, lit_6, lit_4, lit_2. field. compute_done.
  - done.
  - intros k Hk Hk'. unfold elementLoad. rewrite !decide_False by lia. ring.
Qed.

Section sorted_nodes.
Variable nodes : vec.
Hypothesis nodes_sorted : StronglySorted Qclt nodes.

Lemma nodes_le_iff a b x y :
  nodes !! a = Some x → nodes !! b = Some y → x ≤ y ↔ (a ≤ b)%nat.
Proof.
  intros Ha Hb. split.
  - intros Hxy. destruct (decide (a ≤ b)%nat) as [|Hn]; [done|].
    destruct (Qclt_not_le y x); [|done].
    apply (StronglySorted_lookup_lt nodes b a); auto with lia.
  - intros Hab. destruct (decide (a = b)) as [->|Hne].
    + rewrite Ha in Hb. injection Hb as ->. apply Qcle_refl.
    + apply Qclt_le_weak, (StronglySorted_lookup_lt nodes a b); auto with lia.
Qed.

Lemma NoDup_sorted_nodes : NoDup nodes.
Proof.
  apply NoDup_alt. intros a b x Ha Hb.
  destruct (decide (a = b)) as [|Hne]; [done|]. exfalso.
  destruct (decide (a < b)%nat).
  - by destruct (Qclt_not_eq _ _ (StronglySorted_lookup_lt nodes a b x x
                                    nodes_sorted Ha Hb ltac:(lia))).
  - by destruct (Qclt_not_eq _ _ (StronglySorted_lookup_lt nodes b a x x
                                    nodes_sorted Hb Ha ltac:(lia))).
Qed.

(** The increments of a function over the elements between the nodes [i]
    and [j] add up to its increment between these nodes. *)
Lemma increments_telescope (φ : Qc → Qc) i j m :
  (i ≤ j)%nat →
  sumTo m (λ e, if decide (i ≤ e ∧ e + 1 ≤ j)%nat
                then φ (rd nodes (e + 1)) - φ (rd nodes e) else 0)
  = if decide (i ≤ m)%nat then φ (rd nodes (Nat.min m j)) - φ (rd nodes i) else 0.
Proof.
  intros Hij. induction m as [|m IH]; cbn [sumTo].
  - case_decide; [|done]. replace i with 0%nat by lia. simpl. ring.
  - rewrite IH. clear IH.
    destruct (decide (i ≤ m ∧ m + 1 ≤ j)%nat) as [Hm|Hm].
    + rewrite !decide_True by lia.
      replace (Nat.min m j) with m by lia.
      replace (Nat.min (S m) j) with (m + 1)%nat by lia. ring.
    + destruct (decide (i ≤ m)%nat) as [Him|Him].
      * rewrite decide_True by lia.
        replace (Nat.min (S m) j) with (Nat.min m j) by lia. ring.
      * destruct (decide (i ≤ S m)%nat) as [HiS|HiS]; [|ring].
        replace (Nat.min (S m) j) with i by lia. ring.
Qed.

(** On a mesh that has the two ends of a load as nodes, the elements the
    load contains make up the load. *)
Lemma covered_increments (φ : Qc → Qc) (load : Udl.t) :
  Udl.start load ∈ nodes → Udl.end_ load ∈ nodes →
  sumTo (length nodes - 1)
    (λ e, if decide (Udl.start load ≤ rd nodes e ∧ rd nodes (e + 1) ≤ Udl.end_ load)
          then Udl.intensity load * (φ (rd nodes (e + 1)) - φ (rd nodes e)) else 0)
  = if decide (Udl.start load ≤ Udl.end_ load)
    then Udl.intensity load * (φ (Udl.end_ load) - φ (Udl.start load)) else 0.
Proof.
  intros [i Hi]%list_elem_of_lookup_1 [j Hj]%list_elem_of_lookup_1.
  pose proof (lookup_lt_Some _ _ _ Hi) as Hilt.
  pose proof (lookup_lt_Some _ _ _ Hj) as Hjlt.
  assert (Hcov : ∀ e, (e < length nodes - 1)%nat →
    (Udl.start load ≤ rd nodes e ∧ rd nodes (e + 1) ≤ Udl.end_ load)
    ↔ (i ≤ e ∧ e + 1 ≤ j)%nat).
  { intros e He.
    destruct (lookup_lt_is_Some_2 nodes e) as [x Hx]; [lia|].
    destruct (lookup_lt_is_Some_2 nodes (e + 1)) as [y Hy]; [lia|].
    unfold rd. rewrite Hx, Hy. simpl.
    by rewrite (nodes_le_iff i e _ _ Hi Hx), (nodes_le_iff (e + 1) j _ _ Hy Hj). }
  rewrite (sumTo_ext _ _ (λ e, Udl.intensity load
    * (if decide (i ≤ e ∧ e + 1 ≤ j)%nat
       then φ (rd nodes (e + 1)) - φ (rd nodes e) else 0))).
  2:{ intros e He. rewrite (decide_ext _ _ _ _ (Hcov e He)). case_decide; ring. }
  rewrite sumTo_scale.
  rewrite (decide_ext _ _ _ _ (nodes_le_iff i j _ _ Hi Hj)).
  destruct (decide (i ≤ j)%nat) as [Hij|Hij].
  - rewrite increments_telescope, decide_True by lia.
    replace (Nat.min (length nodes - 1) j) with j by lia.
    unfold rd. by rewrite Hi, Hj.
  - rewrite (sumTo_ext _ _ (λ _, 0)); [rewrite sumTo_zero; ring|].
    intros e _. rewrite decide_False by lia. done.
Qed.

Lemma coveringIntensity_cons u udls x1 x2 :
  coveringIntensity (u :: udls) x1 x2
  = (if decide (Udl.start u ≤ x1 ∧ x2 ≤ Udl.end_ u) then Udl.intensity u else 0)
    + coveringIntensity udls x1 x2.
Proof. unfold coveringIntensity. cbn [foldr]. case_decide; ring. Qed.

Lemma distributed_rigidWork (udls : list Udl.t) α β :
  (∀ u, u ∈ udls → Udl.start u ∈ nodes ∧ Udl.end_ u ∈ nodes) →
  sumTo (length nodes - 1)
    (λ e, coveringIntensity udls (rd nodes e) (rd nodes (e + 1))
          * (rigidPotential α β (rd nodes (e + 1)) - rigidPotential α β (rd nodes e)))
  = α * foldr (λ load acc, distributedResultant load + acc) 0 udls
    + β * foldr (λ load acc, distributedMoment load + acc) 0 udls.
Proof.
  induction udls as [|u udls IH]; intros Hin.
  - simpl. rewrite (sumTo_ext _ _ (λ _, 0)); [rewrite sumTo_zero; ring|].
    intros e _. unfold coveringIntensity. simpl. ring.
  - cbn [foldr]. destruct (Hin u) as [Hs He]; [by left|].
    pose proof (covered_increments (rigidPotential α β) u Hs He) as Hu.
    assert (Hsplit : (if decide (Udl.start u ≤ Udl.end_ u)
                      then Udl.intensity u
                           * (rigidPotential α β (Udl.end_ u)
                              - rigidPotential α β (Udl.start u))
                      else 0)
                     = α * distributedResultant u + β * distributedMoment u).
    { unfold distributedResultant, distributedMoment, rigidPotential.
      case_decide; unfold Qcdiv; ring. }
    rewrite Hsplit in Hu.
    transitivity (α * distributedResultant u + β * distributedMoment u
                  + (α * foldr (λ load acc, distributedResultant load + acc) 0 udls
                     + β * foldr (λ load acc, distributedMoment load + acc) 0 udls));
      [|ring].
    rewrite <- IH by (intros u' Hu'; apply Hin; by right).
    rewrite <- Hu, <- sumTo_plus. clear Hu Hsplit IH.
    apply sumTo_ext. intros e _. rewrite coveringIntensity_cons. case_decide; ring.
Qed.

Lemma pointLoads_rigidWork (loads : list PointLoad.t) α β :
  (∀ p, p ∈ loads → PointLoad.position p ∈ nodes) →
  sumTo (length nodes)
    (λ k, (α + β * rd nodes k) * pointLoadAt nodes loads (2 * k)
          + β * pointLoadAt nodes loads (2 * k + 1))
  = α * foldr (λ load acc, PointLoad.magnitude load + acc) 0 loads
    + β * foldr (λ load acc, PointLoad.position load * PointLoad.magnitude load + acc)
            0 loads.
Proof.
  pose proof NoDup_sorted_nodes as Hnd.
  induction loads as [|p loads IH]; intros Hin.
  - simpl. rewrite (sumTo_ext _ _ (λ _, 0)); [rewrite sumTo_zero; ring|].
    intros k _. unfold pointLoadAt. simpl. ring.
  - cbn [foldr].
    transitivity ((α + β * PointLoad.position p) * PointLoad.magnitude p
                  + (α * foldr (λ load acc, PointLoad.magnitude load + acc) 0 loads
                     + β * foldr (λ load acc,
                                    PointLoad.position load * PointLoad.magnitude load
                                    + acc) 0 loads)); [|ring].
    rewrite <- IH by (intros p' Hp'; apply Hin; by right).
    destruct (list_elem_of_lookup_1 _ _ (Hin p ltac:(by left))) as [i Hi].
    pose proof (proj2 (indexOf_Some nodes _ i Hnd) Hi) as Hidx.
    rewrite (sumTo_ext _ _ (λ k,
      (if decide (k = i) then (α + β * PointLoad.position p) * PointLoad.magnitude p
       else 0)
      + ((α + β * rd nodes k) * pointLoadAt nodes loads (2 * k)
         + β * pointLoadAt nodes loads (2 * k + 1)))).
    + rewrite sumTo_plus. f_equal.
      rewrite (sumTo_single _ _ (λ _, (α + β * PointLoad.position p)
                                       * PointLoad.magnitude p)).
      by rewrite decide_True by (by eapply lookup_lt_Some).
    + intros k _. rewrite !pointLoadAt_cons, Hidx. simpl.
      rewrite (decide_False (P := Some (i * 2)%nat = Some (2 * k + 1)%nat))
        by (intros [= H]; lia).
      destruct (decide (k = i)) as [->|Hne].
      * rewrite decide_True by (f_equal; lia). unfold rd. rewrite Hi. simpl. ring.
      * rewrite decide_False by (intros [= H]; lia). ring.
Qed.
End sorted_nodes.

(** The work of the load vector in a rigid motion is the work of the
    loads. *)
Lemma rigidWork_F (inp : Input.t) (α β : Qc) :
  rigidWork α β (nodePositions inp) (F inp)
  = α * totalLoad inp + β * totalMoment inp.
Proof.
  pose proof (StronglySorted_uniqueSorted (breakpoints inp)) as Hsorted.
  fold (nodePositions inp) in Hsorted.
  unfold rigidWork. fold (nodeCount inp).
  rewrite (sumTo_ext _ _ (λ k,
    sumTo (nodeCount inp - 1)
      (λ e, (α + β * rd (nodePositions inp) k)
            * elementLoad (Input.udls inp) (nodePositions inp) e (2 * k)
            + β * elementLoad (Input.udls inp) (nodePositions inp) e (2 * k + 1))
    + ((α + β * rd (nodePositions inp) k)
       * pointLoadAt (nodePositions inp) (Input.pointLoads inp) (2 * k)
       + β * pointLoadAt (nodePositions inp) (Input.pointLoads inp) (2 * k + 1)))).
  2:{ intros k _. rewrite !rd_F, sumTo_plus, !sumTo_scale. ring. }
  rewrite sumTo_plus, sumTo_swap.
  rewrite (sumTo_ext (nodeCount inp - 1) _ (λ e,
    coveringIntensity (Input.udls inp) (rd (nodePositions inp) e)
      (rd (nodePositions inp) (e + 1))
    * (rigidPotential α β (rd (nodePositions inp) (e + 1))
       - rigidPotential α β (rd (nodePositions inp) e))))
    by (intros e He; apply elementLoad_rigidWork; lia).
  unfold nodeCount.
  rewrite distributed_rigidWork, pointLoads_rigidWork; [unfold totalLoad, totalMoment; ring|done| |done|].
  - intros p Hp. apply elem_of_uniqueSorted. do 2 right. rewrite !elem_of_app.
    right; left. by apply list_elem_of_fmap_2.
  - intros u Hu.
    split; apply elem_of_uniqueSorted; do 2 right;
      rewrite !elem_of_app; do 2 right;
      apply list_elem_of_bind; exists u; (split; [|done]);
      rewrite !elem_of_cons; tauto.
Qed.

Lemma rigidWork_vertical (nodes v : vec) :
  rigidWork 1 0 nodes v = sumTo (length nodes) (λ k, rd v (2 * k)).
Proof. unfold rigidWork. apply sumTo_ext. intros k _. ring. Qed.

Lemma rigidWork_moment (nodes v : vec) :
  rigidWork 0 1 nodes v
  = sumTo (length nodes) (λ k, rd nodes k * rd v (2 * k) + rd v (2 * k + 1)).
Proof. unfold rigidWork. apply sumTo_ext. intros k _. ring. Qed.

(** X13: the load vector is statically equivalent to the loads: its
    vertical entries add up to the resultant of the point loads and of the
    distributed loads over their full lengths, and its moment about the
    origin is the moment of these loads.  The ends of a distributed load are
    nodes, so no part of it falls on an element it covers only partly. *)
Theorem F_statically_equivalent (inp : Input.t) :
  sumTo (nodeCount inp) (λ k, rd (F inp) (2 * k)) = totalLoad inp
  ∧ sumTo (nodeCount inp)
      (λ k, rd (nodePositions inp) k * rd (F inp) (2 * k) + rd (F inp) (2 * k + 1))
    = totalMoment inp.
Proof.
  unfold nodeCount. rewrite <- rigidWork_vertical, <- rigidWork_moment.
  rewrite !rigidWork_F. split; ring.
Qed.


(** ** Input normalisation *)

Lemma Qc_not_lt_le (a b : Qc) : ¬ a < b → b ≤ a.
Proof. apply Qcnot_lt_le. Qed.

Lemma max_ge_l a b : a ≤ Math.max a b.
Proof.
  unfold Math.max. case_decide; [by apply Qclt_le_weak|apply Qcle_refl].
Qed.

Lemma max_ge_r a b : b ≤ Math.max a b.
Proof.
  unfold Math.max. case_decide; [apply Qcle_refl|by apply Qcnot_lt_le].
Qed.

Lemma min_le_l a b : Math.min a b ≤ a.
Proof.
  unfold Math.min. case_decide; [by apply Qclt_le_weak|apply Qcle_refl].
Qed.

Lemma min_le_r a b : Math.min a b ≤ b.
Proof.
  unfold Math.min. case_decide; [apply Qcle_refl|by apply Qcnot_lt_le].
Qed.

Lemma max_l a b : b ≤ a → Math.max a b = a.
Proof.
  intros Hba. unfold Math.max. case_decide; [|done].
  by destruct (Qclt_not_le a b).
Qed.

Lemma max_r a b : a ≤ b → Math.max a b = b.
Proof.
  intros Hab. unfold Math.max. case_decide; [done|].
  apply Qcle_antisym; [done|by apply Qcnot_lt_le].
Qed.

Lemma min_l a b : a ≤ b → Math.min a b = a.
Proof.
  intros Hab. unfold Math.min. case_decide; [|done].
  by destruct (Qclt_not_le b a).
Qed.

Lemma min_r a b : b ≤ a → Math.min a b = b.
Proof.
  intros Hba. unfold Math.min. case_decide; [done|].
  apply Qcle_antisym; [by apply Qcnot_lt_le|done].
Qed.

Lemma clamp_le_max value lo hi : clamp value lo hi ≤ hi.
Proof. apply min_le_r. Qed.

Lemma clamp_ge_min value lo hi : lo ≤ hi → lo ≤ clamp value lo hi.
Proof.
  intros Hlh. unfold clamp, Math.min. case_decide; [done|apply max_ge_r].
Qed.

Lemma clamp_id value lo hi : lo ≤ value → value ≤ hi → clamp value lo hi = value.
Proof. intros Hlo Hhi. unfold clamp. by rewrite max_l, min_l. Qed.

Lemma clamp_idempotent value lo hi :
  clamp (clamp value lo hi) lo hi = clamp value lo hi.
Proof.
  destruct (decide (lo ≤ hi)) as [Hlh|Hlh].
  - apply clamp_id; [by apply clamp_ge_min|apply clamp_le_max].
  - apply Qcnot_le_lt in Hlh.
    assert (Hc : ∀ v, lo ≤ v → Math.min v hi = hi).
    { intros v Hv. apply min_r, Qclt_le_weak, Qclt_le_trans with lo; done. }
    unfold clamp. rewrite (Hc (Math.max value lo)) by apply max_ge_r.
    apply Hc, max_ge_r.
Qed.

(** X15: [clamp] brings a value into the interval [[min, max]], and
    changes no value of the interval. *)
Theorem clamp_within (value lo hi : Qc) :
  lo ≤ hi →
  lo ≤ clamp value lo hi ∧ clamp value lo hi ≤ hi
  ∧ (clamp value lo hi = value ↔ lo ≤ value ∧ value ≤ hi).
Proof.
  intros Hlh. split; [by apply clamp_ge_min|]. split; [apply clamp_le_max|].
  split.
  - intros <-. split; [by apply clamp_ge_min|apply clamp_le_max].
  - intros [??]. by apply clamp_id.
Qed.

Lemma clamp_within_witness :
  lit 0 ≤ clamp (lit 7) (lit 0) (lit 5) ∧ clamp (lit 7) (lit 0) (lit 5) ≤ lit 5
  ∧ (clamp (lit 7) (lit 0) (lit 5) = lit 7 ↔ lit 0 ≤ lit 7 ∧ lit 7 ≤ lit 5).
Proof. apply clamp_within. compute_done. Defined.

(** *** The stable sort *)

Section sortBy.
Context {A : Type} (key : A → Qc).

Lemma insertBy_Permutation x l : insertBy key x l ≡ₚ x :: l.
Proof.
  induction l as [|y l IH]; [done|]. cbn [insertBy]. case_decide; [|done].
  rewrite IH. apply Permutation_swap.
Qed.

Lemma sortBy_Permutation l : sortBy key l ≡ₚ l.
Proof.
  induction l as [|x l IH]; [done|]. unfold sortBy in *. cbn [foldr].
  by rewrite insertBy_Permutation, IH.
Qed.

Lemma insertBy_sorted x l :
  StronglySorted (keyLe key) l → StronglySorted (keyLe key) (insertBy key x l).
Proof.
  induction 1 as [|y l Hl IH Hy]; cbn [insertBy].
  - repeat constructor.
  - case_decide as Hyx.
    + constructor; [done|]. rewrite insertBy_Permutation.
      constructor; [by apply Qclt_le_weak|done].
    + apply Qcnot_lt_le in Hyx. constructor; [by constructor|].
      constructor; [done|]. eapply Forall_impl; [done|].
      intros z Hz. by apply Qcle_trans with (key y).
Qed.

Lemma sortBy_sorted l : StronglySorted (keyLe key) (sortBy key l).
Proof.
  induction l as [|x l IH]; [constructor|]. by apply insertBy_sorted.
Qed.

(** Stability: a sorted list is left as it is. *)
Lemma sortBy_id l : StronglySorted (keyLe key) l → sortBy key l = l.
Proof.
  induction 1 as [|x l Hl IH Hx]; [done|]. unfold sortBy in *. cbn [foldr].
  rewrite IH. destruct l as [|y l]; [done|]. cbn [insertBy].
  rewrite decide_False; [done|]. apply Qcle_not_lt. by inversion Hx.
Qed.

Lemma sortBy_idempotent l : sortBy key (sortBy key l) = sortBy key l.
Proof. apply sortBy_id, sortBy_sorted. Qed.

(** Sorting after a change that keeps the keys is that change after
    sorting. *)
Lemma sortBy_fmap (f : A → A) l :
  (∀ x, key (f x) = key x) → sortBy key (f <$> l) = f <$> sortBy key l.
Proof.
  intros Hf. induction l as [|x l IH]; [done|]. unfold sortBy in *.
  cbn [fmap list_fmap foldr]. change (list_fmap A A f l) with (f <$> l).
  rewrite IH. clear IH. generalize (foldr (insertBy key) [] l). intros s.
  induction s as [|y s IH]; [done|]. cbn [fmap list_fmap insertBy].
  rewrite !Hf. case_decide; [|done]. cbn [fmap list_fmap]. f_equal. apply IH.
Qed.
End sortBy.

Lemma normalizeSupports_range supports span s :
  0 ≤ span → s ∈ normalizeSupports supports span →
  0 ≤ Support.position s ∧ Support.position s ≤ span.
Proof.
  intros Hspan Hs. unfold normalizeSupports in Hs. rewrite sortBy_Permutation in Hs.
  apply list_elem_of_fmap in Hs as (s0 & -> & _). simpl.
  split; [by apply clamp_ge_min|apply clamp_le_max].
Qed.

(** X16: for a span that is not negative, [normalizeSupports] returns the
    supports with their positions clamped, in increasing order of position:
    every position is within the span, no support is lost or added, and the
    types are kept. *)
Theorem normalizeSupports_sorted_within_span (supports : list Support.t) (span : Qc) :
  0 ≤ span →
  StronglySorted (λ a b, Support.position a ≤ Support.position b)
    (normalizeSupports supports span)
  ∧ normalizeSupports supports span ≡ₚ clampSupport span <$> supports
  ∧ ∀ s, s ∈ normalizeSupports supports span →
      0 ≤ Support.position s ∧ Support.position s ≤ span.
Proof.
  intros Hspan. split; [apply sortBy_sorted|].
  split; [apply sortBy_Permutation|].
  intros s Hs. by apply (normalizeSupports_range supports).
Qed.

Lemma normalizeSupports_sorted_within_span_witness :
  let supports := [Support.make (lit 9) roller; Support.make (- lit 1) pinned] in
  StronglySorted (λ a b, Support.position a ≤ Support.position b)
    (normalizeSupports supports (lit 5))
  ∧ normalizeSupports supports (lit 5) ≡ₚ clampSupport (lit 5) <$> supports
  ∧ ∀ s, s ∈ normalizeSupports supports (lit 5) →
      0 ≤ Support.position s ∧ Support.position s ≤ lit 5.
Proof. apply normalizeSupports_sorted_within_span. compute_done. Defined.

Lemma normalizeUdls_elem load udls span :
  load ∈ normalizeUdls udls span →
  ∃ load0, load0 ∈ udls
    ∧ Udl.start load = Math.min (clamp (Udl.start load0) 0 span)
                                (clamp (Udl.end_ load0) 0 span)
    ∧ Udl.end_ load = Math.max (clamp (Udl.start load0) 0 span)
                               (clamp (Udl.end_ load0) 0 span)
    ∧ Udl.intensity load = Udl.intensity load0.
Proof.
  unfold normalizeUdls. rewrite sortBy_Permutation.
  intros (load0 & -> & Hin)%list_elem_of_fmap. by exists load0.
Qed.

Lemma min_le_max a b : Math.min a b ≤ Math.max a b.
Proof. apply Qcle_trans with a; [apply min_le_l|apply max_ge_l]. Qed.

Lemma min_cases a b : Math.min a b = a ∨ Math.min a b = b.
Proof. unfold Math.min. case_decide; auto. Qed.

Lemma max_cases a b : Math.max a b = a ∨ Math.max a b = b.
Proof. unfold Math.max. case_decide; auto. Qed.

Lemma normalizeUdls_range udls span :
  0 ≤ span → ∀ load, load ∈ normalizeUdls udls span →
  0 ≤ Udl.start load ∧ Udl.start load ≤ Udl.end_ load ∧ Udl.end_ load ≤ span.
Proof.
  intros Hspan load (load0 & _ & -> & -> & _)%normalizeUdls_elem.
  split; [|split; [apply min_le_max|]].
  - destruct (min_cases (clamp (Udl.start load0) 0 span)
                        (clamp (Udl.end_ load0) 0 span)) as [->| ->];
      by apply clamp_ge_min.
  - destruct (max_cases (clamp (Udl.start load0) 0 span)
                        (clamp (Udl.end_ load0) 0 span)) as [->| ->];
      apply clamp_le_max.
Qed.

(** X17: for a span that is not negative, every load that
    [normalizeUdls] returns starts before it ends and lies within the span,
    and the loads are in increasing order of start. *)
Theorem normalizeUdls_ordered_within_span (udls : list Udl.t) (span : Qc) :
  0 ≤ span →
  StronglySorted (λ a b, Udl.start a ≤ Udl.start b) (normalizeUdls udls span)
  ∧ length (normalizeUdls udls span) = length udls
  ∧ ∀ load, load ∈ normalizeUdls udls span →
      0 ≤ Udl.start load ∧ Udl.start load ≤ Udl.end_ load ∧ Udl.end_ load ≤ span.
Proof.
  intros Hspan. split; [apply sortBy_sorted|]. split.
  { unfold normalizeUdls. by rewrite sortBy_Permutation, length_fmap. }
  by apply normalizeUdls_range.
Qed.

Lemma normalizeUdls_ordered_within_span_witness :
  let udls := [Udl.make (lit 9) (lit 2) 1; Udl.make (- lit 1) (lit 3) 1] in
  StronglySorted (λ a b, Udl.start a ≤ Udl.start b) (normalizeUdls udls (lit 5))
  ∧ length (normalizeUdls udls (lit 5)) = length udls
  ∧ ∀ load, load ∈ normalizeUdls udls (lit 5) →
      0 ≤ Udl.start load ∧ Udl.start load ≤ Udl.end_ load ∧ Udl.end_ load ≤ lit 5.
Proof. apply normalizeUdls_ordered_within_span. compute_done. Defined.

Lemma sortBy_fmap_fixpoint {A} (key : A → Qc) (f : A → A) (l : list A) :
  (∀ x, x ∈ l → f x = x) → sortBy key (f <$> sortBy key l) = sortBy key l.
Proof.
  intros Hf. rewrite <- (sortBy_idempotent key l) at 2. f_equal.
  rewrite <- (list_fmap_id (sortBy key l)) at 2. apply list_fmap_ext.
  intros i x Hx. apply Hf. rewrite <- (sortBy_Permutation key l).
  by eapply list_elem_of_lookup_2.
Qed.

(** X18: the three normalisations are idempotent: what they return is
    left as it is when it is normalised again, at any span. *)
Theorem normalize_idempotent (span : Qc) (supports : list Support.t)
    (loads : list PointLoad.t) (udls : list Udl.t) :
  normalizeSupports (normalizeSupports supports span) span
  = normalizeSupports supports span
  ∧ normalizeLoads (normalizeLoads loads span) span = normalizeLoads loads span
  ∧ normalizeUdls (normalizeUdls udls span) span = normalizeUdls udls span.
Proof.
  split; [|split].
  - unfold normalizeSupports. apply sortBy_fmap_fixpoint.
    intros x (x0 & -> & _)%list_elem_of_fmap. unfold clampSupport. simpl.
    by rewrite clamp_idempotent.
  - unfold normalizeLoads. apply sortBy_fmap_fixpoint.
    intros x (x0 & -> & _)%list_elem_of_fmap. simpl. by rewrite clamp_idempotent.
  - unfold normalizeUdls. apply sortBy_fmap_fixpoint.
    intros x (x0 & -> & _)%list_elem_of_fmap. simpl.
    set (s := clamp (Udl.start x0) 0 span). set (e := clamp (Udl.end_ x0) 0 span).
    assert (Hs : clamp (Math.min s e) 0 span = Math.min s e).
    { destruct (min_cases s e) as [->| ->]; apply clamp_idempotent. }
    assert (He : clamp (Math.max s e) 0 span = Math.max s e).
    { destruct (max_cases s e) as [->| ->]; apply clamp_idempotent. }
    rewrite Hs, He. f_equal.
    + apply min_l, min_le_max.
    + apply max_r, min_le_max.
Qed.

(** ** The pipeline of [App] *)







(** *** The mesh of the pipeline *)

Lemma StronglySorted_head (l : vec) x :
  StronglySorted Qclt l → x ∈ l → (∀ y, y ∈ l → x ≤ y) → head l = Some x.
Proof.
  intros Hl Hx Hmin. destruct l as [|y l]; [by apply elem_of_nil in Hx|].
  simpl. f_equal. apply elem_of_cons in Hx as [->|Hx]; [done|].
  apply StronglySorted_inv in Hl as [_ Hy].
  rewrite Forall_forall in Hy. specialize (Hy x Hx).
  destruct (Qclt_not_le _ _ Hy). apply Hmin. by left.
Qed.

Lemma StronglySorted_last (l : vec) x :
  StronglySorted Qclt l → x ∈ l → (∀ y, y ∈ l → y ≤ x) → last l = Some x.
Proof.
  intros Hl Hx Hmax. induction Hl as [|y l Hl IH Hy].
  - by apply elem_of_nil in Hx.
  - destruct l as [|z l]; simpl.
    + apply elem_of_cons in Hx as [->|Hx]; [done|by apply elem_of_nil in Hx].
    + apply IH.
      * apply elem_of_cons in Hx as [->|Hx]; [|done].
        rewrite Forall_forall in Hy. specialize (Hy z ltac:(by left)).
        destruct (Qclt_not_le _ _ Hy). apply Hmax. right. by left.
      * intros y' Hy'. apply Hmax. by right.
Qed.

Lemma breakpoints_modelInput_within span E width depth supports pointLoads udls x :
  0 ≤ span →
  x ∈ breakpoints (modelInput span E width depth supports pointLoads udls) →
  0 ≤ x ∧ x ≤ span.
Proof.
  intros Hspan. unfold breakpoints, modelInput.
  cbn [Input.span Input.supports Input.pointLoads Input.udls].
  rewrite !elem_of_cons, !elem_of_app.
  intros [->|[->|[Hx|[Hx|Hx]]]].
  - split; [apply Qcle_refl|done].
  - split; [done|apply Qcle_refl].
  - apply list_elem_of_fmap in Hx as (s & -> & Hs).
    by apply (normalizeSupports_range supports span).
  - apply list_elem_of_fmap in Hx as (p & -> & Hp).
    apply list_elem_of_fmap in Hp as (p0 & -> & Hp). simpl.
    unfold normalizedPointLoads, normalizeLoads in Hp.
    rewrite sortBy_Permutation in Hp.
    apply list_elem_of_fmap in Hp as (p1 & -> & _). simpl.
    split; [by apply clamp_ge_min|apply clamp_le_max].
  - apply list_elem_of_bind in Hx as (u & Hx & Hu).
    apply list_elem_of_fmap in Hu as (u0 & -> & Hu). simpl in Hx.
    destruct (normalizeUdls_range udls span Hspan u0 Hu) as (H0 & Hse & He).
    rewrite !elem_of_cons in Hx. destruct Hx as [->|[->|Hx]].
    + split; [done|]. by apply Qcle_trans with (Udl.end_ u0).
    + split; [|done]. by apply Qcle_trans with (Udl.start u0).
    + by apply elem_of_nil in Hx.
Qed.

(** X20: for a span that is not negative, the mesh of the pipeline spans
    the beam: its first node is [0], its last node is the span, and every
    node is within the span. *)
Theorem beamResults_mesh_spans_beam (span E width depth : Qc)
    (supports : list Support.t) (pointLoads : list PointLoad.t)
    (udls : list Udl.t) :
  0 ≤ span →
  let nodes := nodePositions (modelInput span E width depth supports pointLoads udls) in
  head nodes = Some 0 ∧ last nodes = Some span
  ∧ ∀ x, x ∈ nodes → 0 ≤ x ∧ x ≤ span.
Proof.
  intros Hspan nodes.
  assert (Hin : ∀ x, x ∈ nodes → 0 ≤ x ∧ x ≤ span).
  { intros x Hx. unfold nodes, nodePositions in Hx.
    rewrite elem_of_uniqueSorted in Hx.
    by eapply breakpoints_modelInput_within. }
  pose proof (StronglySorted_uniqueSorted
    (breakpoints (modelInput span E width depth supports pointLoads udls))) as Hs.
  split; [|split; [|done]].
  - apply StronglySorted_head; [done| |intros y Hy; by apply Hin].
    apply elem_of_uniqueSorted. by left.
  - apply StronglySorted_last; [done| |intros y Hy; by apply Hin].
    apply elem_of_uniqueSorted. right. by left.
Qed.

Lemma beamResults_mesh_spans_beam_witness :
  let nodes := nodePositions (modelInput (lit 4) 1 1 1
                 [Support.make (lit 9) roller] [] []) in
  head nodes = Some 0 ∧ last nodes = Some (lit 4)
  ∧ ∀ x, x ∈ nodes → 0 ≤ x ∧ x ≤ lit 4.
Proof. apply beamResults_mesh_spans_beam. compute_done. Defined.

(** ** The diagrams *)

Lemma lit_3 : lit 3 = 1 + 1 + 1.
Proof. compute_done. Qed.

Lemma num_nonzero (n : nat) : n ≠ 0%nat → num n ≠ 0.
Proof.
  intros Hn Hz. unfold num, lit, Qc_of_Z in Hz.
  apply (f_equal this) in Hz. change (inject_Z (Z.of_nat n) = 0%Q) in Hz.
  injection Hz. lia.
Qed.

Lemma half_twice (a : Qc) : a / lit 2 + a / lit 2 = a.
Proof. rewrite lit_2. field. apply two_nonzero. Qed.

(** The first sample of an element is at its start, with the displacement
    of the node and the end forces [V1] and [M1]. *)
Lemma samplePoint_first x1 L v1 t1 v2 t2 w V1 M1 sample :
  samplePoint x1 L v1 t1 v2 t2 w V1 M1 sample 0 = Sample.make x1 v1 M1 V1.
Proof.
  unfold samplePoint. assert (num 0 = 0) as -> by compute_done. unfold Qcdiv.
  f_equal; ring.
Qed.

(** The last sample of an element is at its end, with the displacement of
    that node. *)
Lemma samplePoint_last x1 L v1 t1 v2 t2 w V1 M1 sample :
  sample ≠ 0%nat → L ≠ 0 →
  samplePoint x1 L v1 t1 v2 t2 w V1 M1 sample sample
  = Sample.make (x1 + L) v2 (M1 + V1 * L - (w * L * L) / lit 2) (V1 - w * L).
Proof.
  intros Hs HL. unfold samplePoint.
  assert (Hx : num sample / num sample * L = L).
  { field. by apply num_nonzero. }
  rewrite !Hx. assert (Hxi : L / L = 1) by by (field).
  rewrite !Hxi, lit_3, lit_2. f_equal; ring.
Qed.


Section diagram.
Variables (span E I : Qc) (udls : list Udl.t) (nodes d : vec) (sample : nat).
Hypothesis nodes_sorted : StronglySorted Qclt nodes.

Lemma length_elementSamples e :
  length (elementSamples E I udls nodes d sample e) = (sample + 1)%nat.
Proof. unfold elementSamples. by rewrite length_fmap, length_seq. Qed.

Lemma diagramStep_fold (l : list nat) (results : list Sample.t) :
  (∀ e, e ∈ l → (e + 1 < length nodes)%nat) →
  fold_left (diagramStep E I udls nodes d sample) l results
  = results ++ mjoin (elementSamples E I udls nodes d sample <$> l).
Proof.
  revert results. induction l as [|e l IH]; intros results Hl.
  - simpl. by rewrite app_nil_r.
  - cbn [fold_left fmap list_fmap mjoin list_join]. rewrite IH.
    + unfold diagramStep. rewrite decide_False; [by rewrite app_assoc|].
      apply Qclt_not_le. unfold Qcminus.
      apply (proj1 (Qclt_minus_iff (rd nodes e) (rd nodes (e + 1)))).
      apply StronglySorted_rd_lt; [done|]. apply Hl. by left.
    + intros e' He'. apply Hl. by right.
Qed.

Notation rawDiagram := (diagramLoop nodes d E I udls sample).

Lemma rawDiagram_join :
  rawDiagram
  = mjoin (elementSamples E I udls nodes d sample <$> seq 0 (length nodes - 1)).
Proof.
  unfold diagramLoop. rewrite diagramStep_fold; [done|].
  intros e [_ He]%elem_of_seq. lia.
Qed.

Lemma length_rawDiagram :
  length rawDiagram = ((length nodes - 1) * (sample + 1))%nat.
Proof.
  rewrite rawDiagram_join, length_join.
  rewrite (sum_list_fmap_same (sample + 1)).
  - by rewrite length_fmap, length_seq.
  - apply Forall_fmap, Forall_forall. intros e _. apply length_elementSamples.
Qed.

Lemma lookup_rawDiagram e i :
  (e + 1 < length nodes)%nat → (i ≤ sample)%nat →
  rawDiagram !! (e * (sample + 1) + i)%nat
  = elementSamples E I udls nodes d sample e !! i.
Proof.
  intros He Hi. rewrite rawDiagram_join.
  destruct (lookup_lt_is_Some_2 (elementSamples E I udls nodes d sample e) i)
    as [p Hp]; [rewrite length_elementSamples; lia|].
  rewrite Hp. apply join_lookup_Some_same_length'.
  - apply Forall_fmap, Forall_forall. intros e' _. apply length_elementSamples.
  - lia.
  - eexists. split; [|done]. rewrite list_lookup_fmap, lookup_seq_lt by lia. done.
Qed.
End diagram.

Lemma lookup_elementSamples E I udls nodes d sample e i :
  (i ≤ sample)%nat →
  elementSamples E I udls nodes d sample e !! i
  = Some (samplePoint (rd nodes e) (rd nodes (e + 1) - rd nodes e)
            (rd d (2 * e)) (rd d (2 * e + 1))
            (rd d (2 * (e + 1))) (rd d (2 * (e + 1) + 1))
            (udlForElement udls (rd nodes e) (rd nodes (e + 1)))
            (rd (localForces
                   (beamElementStiffness E I (rd nodes (e + 1) - rd nodes e))
                   [rd d (2 * e); rd d (2 * e + 1);
                    rd d (2 * (e + 1)); rd d (2 * (e + 1) + 1)]
                   (eqForces (udlForElement udls (rd nodes e) (rd nodes (e + 1)))
                             (rd nodes (e + 1) - rd nodes e))) 0)
            (rd (localForces
                   (beamElementStiffness E I (rd nodes (e + 1) - rd nodes e))
                   [rd d (2 * e); rd d (2 * e + 1);
                    rd d (2 * (e + 1)); rd d (2 * (e + 1) + 1)]
                   (eqForces (udlForElement udls (rd nodes e) (rd nodes (e + 1)))
                             (rd nodes (e + 1) - rd nodes e))) 1)
            sample i).
Proof.
  intros Hi. unfold elementSamples.
  by rewrite list_lookup_fmap, lookup_seq_lt by lia.
Qed.

Lemma length_setLastX span results :
  length (setLastX span results) = length results.
Proof. unfold setLastX. case_decide; [apply length_alter|done]. Qed.

(** [setLastX] changes the abscissa of the last sample, and nothing else. *)
Lemma lookup_setLastX span results j p :
  results !! j = Some p →
  ∃ p', setLastX span results !! j = Some p'
    ∧ Sample.deflection p' = Sample.deflection p
    ∧ Sample.moment p' = Sample.moment p
    ∧ Sample.shear p' = Sample.shear p
    ∧ Sample.x p' = if decide (j = length results - 1)%nat then span
                    else Sample.x p.
Proof.
  intros Hj. pose proof (lookup_lt_Some _ _ _ Hj) as Hlt.
  unfold setLastX. rewrite decide_True by lia.
  destruct (decide (j = length results - 1)%nat) as [->|Hne].
  - rewrite list_lookup_alter_eq, Hj. by eexists.
  - rewrite list_lookup_alter_ne, Hj by done. by eexists.
Qed.

Section diagram_properties.
Variables (span E I : Qc) (udls : list Udl.t) (nodes d : vec) (sample : nat).
Hypothesis nodes_sorted : StronglySorted Qclt nodes.

Notation diagram := (buildDiagram span nodes d E I udls sample).
Notation length_of e := (rd nodes (e + 1) - rd nodes e).
Notation forces e :=
  (localForces (beamElementStiffness E I (length_of e))
     [rd d (2 * e); rd d (2 * e + 1); rd d (2 * (e + 1)); rd d (2 * (e + 1) + 1)]
     (eqForces (udlForElement udls (rd nodes e) (rd nodes (e + 1))) (length_of e))).

Lemma length_of_nonzero e : (e + 1 < length nodes)%nat → length_of e ≠ 0.
Proof.
  intros He Hz. pose proof (StronglySorted_rd_lt nodes e nodes_sorted He) as Hlt.
  apply (proj1 (Qclt_minus_iff _ _)) in Hlt. unfold Qcminus in Hz.
  rewrite Hz in Hlt. by apply Qclt_not_eq in Hlt.
Qed.

(** The first and the last sample of the element [e]. *)
Lemma buildDiagram_element_ends e :
  (0 < sample)%nat → (e + 1 < length nodes)%nat →
  ∃ p q,
    diagram !! (e * (sample + 1))%nat = Some p
    ∧ diagram !! (e * (sample + 1) + sample)%nat = Some q
    ∧ Sample.x p = rd nodes e
    ∧ Sample.x q = (if decide (e + 2 = length nodes)%nat then span
                    else rd nodes (e + 1))
    ∧ Sample.deflection p = rd d (2 * e)
    ∧ Sample.deflection q = rd d (2 * (e + 1))
    ∧ Sample.shear p = rd (forces e) 0
    ∧ Sample.moment p = rd (forces e) 1
    ∧ Sample.shear q
      = rd (forces e) 0 - udlForElement udls (rd nodes e) (rd nodes (e + 1)) * length_of e
    ∧ Sample.moment q
      = rd (forces e) 1 + rd (forces e) 0 * length_of e
        - (udlForElement udls (rd nodes e) (rd nodes (e + 1)) * length_of e * length_of e)
          / lit 2.
Proof.
  intros Hs He.
  pose proof (lookup_rawDiagram E I udls nodes d sample nodes_sorted e 0 He
                ltac:(lia)) as Hp.
  pose proof (lookup_rawDiagram E I udls nodes d sample nodes_sorted e sample He
                ltac:(lia)) as Hq.
  rewrite lookup_elementSamples in Hp, Hq by lia. rewrite Nat.add_0_r in Hp.
  rewrite samplePoint_first in Hp.
  rewrite samplePoint_last in Hq by (by apply length_of_nonzero || lia).
  apply (lookup_setLastX span) in Hp as (p & Hp & Hpd & Hpm & Hps & Hpx).
  apply (lookup_setLastX span) in Hq as (q & Hq & Hqd & Hqm & Hqs & Hqx).
  rewrite (length_rawDiagram E I udls nodes d sample nodes_sorted) in Hpx, Hqx.
  exists p, q. unfold buildDiagram. split; [done|]. split; [done|].
  cbn [Sample.x Sample.deflection Sample.moment Sample.shear] in *.
  rewrite Hpd, Hpm, Hps, Hqd, Hqm, Hqs, Hpx, Hqx.
  repeat split.
  - rewrite decide_False; [done|]. nia.
  - destruct (decide (e + 2 = length nodes)%nat) as [Hlast|Hlast].
    + rewrite decide_True; [done|]. nia.
    + rewrite decide_False; [ring|]. nia.
Qed.
End diagram_properties.

Lemma StronglySorted_0_4 : StronglySorted Qclt [0; lit 4].
Proof. repeat constructor. Qed.

(** X21: on a strictly increasing mesh no element is skipped: the diagram
    has [sample + 1] samples for each of the [nodeCount - 1] elements. *)
Theorem buildDiagram_length (span E I : Qc) (udls : list Udl.t)
    (nodes d : vec) (sample : nat) :
  StronglySorted Qclt nodes →
  length (buildDiagram span nodes d E I udls sample)
  = ((length nodes - 1) * (sample + 1))%nat.
Proof.
  intros Hsorted. unfold buildDiagram. rewrite length_setLastX.
  by apply length_rawDiagram.
Qed.

Lemma buildDiagram_length_witness :
  length (buildDiagram (lit 4) [0; lit 4] [0; 0; 1; 0] 1 1 [] defaultSample)
  = ((2 - 1) * (defaultSample + 1))%nat.
Proof. apply buildDiagram_length. exact StronglySorted_0_4. Defined.

(** X22: the deflection diagram passes through the nodal displacements:
    on a strictly increasing mesh that ends at the span, the first sample of
    each element is at its first node and the last at its second node, each
    with the displacement of that node. *)
Theorem buildDiagram_through_nodes (span E I : Qc) (udls : list Udl.t)
    (nodes d : vec) (sample e : nat) :
  StronglySorted Qclt nodes → last nodes = Some span →
  (0 < sample)%nat → (e + 1 < length nodes)%nat →
  ∃ p q,
    buildDiagram span nodes d E I udls sample !! (e * (sample + 1))%nat = Some p
    ∧ buildDiagram span nodes d E I udls sample !! (e * (sample + 1) + sample)%nat
      = Some q
    ∧ Sample.x p = rd nodes e ∧ Sample.deflection p = rd d (2 * e)
    ∧ Sample.x q = rd nodes (e + 1) ∧ Sample.deflection q = rd d (2 * (e + 1)).
Proof.
  intros Hsorted Hlast Hs He.
  destruct (buildDiagram_element_ends span E I udls nodes d sample Hsorted e Hs He)
    as (p & q & Hp & Hq & Hpx & Hqx & Hpd & Hqd & _).
  exists p, q. repeat split; try done.
  rewrite Hqx. case_decide as Hend; [|done].
  rewrite last_lookup in Hlast. unfold rd.
  replace (e + 1)%nat with (pred (length nodes)) by lia. by rewrite Hlast.
Qed.

Lemma buildDiagram_through_nodes_witness :
  ∃ p q,
    buildDiagram (lit 4) [0; lit 4] [0; 0; 1; 0] 1 1 [] 2 !! 0%nat = Some p
    ∧ buildDiagram (lit 4) [0; lit 4] [0; 0; 1; 0] 1 1 [] 2 !! 2%nat = Some q
    ∧ Sample.x p = 0 ∧ Sample.deflection p = 0
    ∧ Sample.x q = lit 4 ∧ Sample.deflection q = 1.
Proof.
  exact (buildDiagram_through_nodes (lit 4) 1 1 [] [0; lit 4] [0; 0; 1; 0] 2 0
           StronglySorted_0_4 eq_refl ltac:(lia) ltac:(simpl; lia)).
Defined.



(** X24: in exact arithmetic the last assignment of [buildDiagram],
    [results[results.length - 1].x = span], changes nothing when the mesh
    is strictly increasing and ends at the span: the last sample is already
    at the span. *)
Theorem buildDiagram_last_abscissa (span E I : Qc) (udls : list Udl.t)
    (nodes d : vec) (sample : nat) :
  StronglySorted Qclt nodes → last nodes = Some span → (0 < sample)%nat →
  buildDiagram span nodes d E I udls sample
  = diagramLoop nodes d E I udls sample.
Proof.
  intros Hsorted Hlast Hs. unfold buildDiagram, setLastX.
  case_decide as Hlen; [|done].
  rewrite (length_rawDiagram E I udls nodes d sample Hsorted) in *.
  assert (He : (length nodes - 2 + 1 < length nodes)%nat) by nia.
  pose proof (lookup_rawDiagram E I udls nodes d sample Hsorted _ sample He
                ltac:(lia)) as Hq.
  rewrite lookup_elementSamples in Hq by lia.
  rewrite samplePoint_last in Hq
    by (by apply length_of_nonzero || lia).
  replace ((length nodes - 2) * (sample + 1) + sample)%nat
    with ((length nodes - 1) * (sample + 1) - 1)%nat in Hq by nia.
  apply list_eq. intros j.
  destruct (decide (j = (length nodes - 1) * (sample + 1) - 1)%nat) as [->|Hne].
  - rewrite list_lookup_alter_eq, Hq. simpl. do 2 f_equal.
    rewrite last_lookup in Hlast. unfold rd.
    replace (length nodes - 2 + 1)%nat with (pred (length nodes)) by lia.
    rewrite Hlast. simpl. ring.
  - by rewrite list_lookup_alter_ne.
Qed.

Lemma buildDiagram_last_abscissa_witness :
  buildDiagram (lit 4) [0; lit 4] [0; 0; 1; 0] 1 1 [] 2
  = diagramLoop [0; lit 4] [0; 0; 1; 0] 1 1 [] 2.
Proof.
  exact (buildDiagram_last_abscissa (lit 4) 1 1 [] [0; lit 4] [0; 0; 1; 0] 2
           StronglySorted_0_4 eq_refl ltac:(lia)).
Defined.

(** *** The samples lie on the beam *)

Lemma num_le (i j : nat) : (i ≤ j)%nat → num i ≤ num j.
Proof.
  intros Hij. unfold num, lit, Qc_of_Z, Qcle. cbn [this].
  rewrite <- Zle_Qle. lia.
Qed.

Lemma num_pos (n : nat) : (0 < n)%nat → 0 < num n.
Proof.
  intros Hn. unfold num, lit, Qc_of_Z, Qclt. cbn [this Q2Qc].
  change (Qred 0) with (inject_Z 0). rewrite <- Zlt_Qlt. lia.
Qed.

Lemma fraction_range (i sample : nat) :
  (0 < sample)%nat → (i ≤ sample)%nat →
  0 ≤ num i / num sample ∧ num i / num sample ≤ 1.
Proof.
  intros Hs Hi. pose proof (num_pos sample Hs) as Hpos.
  assert (Hr : num i / num sample * num sample = num i).
  { field. by apply Qclt_not_eq, not_eq_sym in Hpos. }
  split; apply Qcmult_lt_0_le_reg_r with (num sample); try done; rewrite Hr.
  - rewrite Qcmult_0_l. assert (num 0 = 0) as <- by compute_done.
    apply num_le. lia.
  - rewrite Qcmult_1_l. by apply num_le.
Qed.

Lemma samplePoint_x_range x1 L v1 t1 v2 t2 w V1 M1 sample i :
  (0 < sample)%nat → (i ≤ sample)%nat → 0 ≤ L →
  x1 ≤ Sample.x (samplePoint x1 L v1 t1 v2 t2 w V1 M1 sample i)
  ∧ Sample.x (samplePoint x1 L v1 t1 v2 t2 w V1 M1 sample i) ≤ x1 + L.
Proof.
  intros Hs Hi HL. destruct (fraction_range i sample Hs Hi) as [H0 H1].
  unfold samplePoint. cbn [Sample.x]. split.
  - rewrite <- (Qcplus_0_r x1) at 1. apply Qcplus_le_compat; [apply Qcle_refl|].
    rewrite <- (Qcmult_0_l L). by apply Qcmult_le_compat_r.
  - apply Qcplus_le_compat; [apply Qcle_refl|].
    rewrite <- (Qcmult_1_l L) at 2. by apply Qcmult_le_compat_r.
Qed.

(** Every sample of a diagram is a sample of an element, but for the
    abscissa of the last one. *)
Lemma elem_of_buildDiagram span E I udls nodes d sample p :
  StronglySorted Qclt nodes → p ∈ buildDiagram span nodes d E I udls sample →
  ∃ e i p0, (e + 1 < length nodes)%nat ∧ (i ≤ sample)%nat
    ∧ elementSamples E I udls nodes d sample e !! i = Some p0
    ∧ (Sample.x p = span ∨ Sample.x p = Sample.x p0)
    ∧ Sample.deflection p = Sample.deflection p0
    ∧ Sample.moment p = Sample.moment p0
    ∧ Sample.shear p = Sample.shear p0.
Proof.
  intros Hsorted [j Hj]%list_elem_of_lookup_1.
  pose proof (lookup_lt_Some _ _ _ Hj) as Hlt.
  unfold buildDiagram in Hj, Hlt. rewrite length_setLastX in Hlt.
  destruct (lookup_lt_is_Some_2 _ _ Hlt) as [p0 Hp0].
  destruct (lookup_setLastX span _ _ _ Hp0) as (p' & Hp' & Hd & Hm & Hs & Hx).
  rewrite Hj in Hp'. injection Hp' as <-.
  rewrite (rawDiagram_join E I udls nodes d sample Hsorted) in Hp0.
  apply (join_lookup_Some_same_length (sample + 1)) in Hp0
    as (e & l & i & Hl & Hi & _).
  - rewrite list_lookup_fmap in Hl.
    destruct (seq 0 (length nodes - 1) !! e) as [e'|] eqn:He; [|done].
    apply lookup_seq in He as [-> He]. injection Hl as <-.
    pose proof (lookup_lt_Some _ _ _ Hi) as Hilt.
    rewrite length_elementSamples in Hilt.
    exists e, i, p0. split; [lia|]. split; [lia|]. split; [done|].
    split; [case_decide; auto|done].
  - apply Forall_fmap, Forall_forall. intros e' _. apply length_elementSamples.
Qed.

(** X25: for a span that is not negative, the pipeline of [App] returns
    [81] samples for each element of the mesh, and every sample lies on the
    beam. *)
Theorem beamResults_samples_on_beam (span E width depth : Qc)
    (supports : list Support.t) (pointLoads : list PointLoad.t)
    (udls : list Udl.t) :
  0 ≤ span →
  ∃ model diagrams,
    beamResults span E width depth supports pointLoads udls
    = Return (model, diagrams)
    ∧ length diagrams = ((length (Model.nodePositions model) - 1) * 81)%nat
    ∧ ∀ p, p ∈ diagrams → 0 ≤ Sample.x p ∧ Sample.x p ≤ span.
Proof.
  intros Hspan. unfold beamResults.
  set (inp := modelInput span E width depth supports pointLoads udls).
  destruct (assembleBeamModel_total inp) as (fd & _ & _ & ->).
  do 2 eexists. split; [done|]. cbn [Model.nodePositions Model.displacements].
  pose proof (StronglySorted_uniqueSorted (breakpoints inp)) as Hsorted.
  fold (nodePositions inp) in Hsorted.
  assert (Hin : ∀ k, (k < length (nodePositions inp))%nat →
            0 ≤ rd (nodePositions inp) k ∧ rd (nodePositions inp) k ≤ span).
  { intros k Hk. destruct (lookup_lt_is_Some_2 _ _ Hk) as [x Hx].
    unfold rd. rewrite Hx. simpl.
    apply (breakpoints_modelInput_within span E width depth supports pointLoads udls);
      [done|].
    apply elem_of_uniqueSorted. by eapply list_elem_of_lookup_2. }
  split; [unfold buildDiagram; rewrite length_setLastX; by apply length_rawDiagram|].
  intros p Hp.
  apply elem_of_buildDiagram in Hp
    as (e & i & p0 & He & Hi & Hp0 & Hx & _); [|done].
  destruct Hx as [->| ->]; [split; [done|apply Qcle_refl]|].
  rewrite lookup_elementSamples in Hp0 by done. injection Hp0 as <-.
  pose proof (StronglySorted_rd_lt _ e Hsorted He) as Hlt.
  edestruct (samplePoint_x_range (rd (nodePositions inp) e)
               (rd (nodePositions inp) (e + 1) - rd (nodePositions inp) e))
    as [Hlo Hhi]; [| exact Hi | |].
  { unfold defaultSample. lia. }
  { unfold Qcminus. apply (proj1 (Qcle_minus_iff _ _)). by apply Qclt_le_weak. }
  split.
  - eapply Qcle_trans; [|exact Hlo]. apply Hin. lia.
  - eapply Qcle_trans; [exact Hhi|].
    replace (rd (nodePositions inp) e
             + (rd (nodePositions inp) (e + 1) - rd (nodePositions inp) e))
      with (rd (nodePositions inp) (e + 1)) by ring.
    apply Hin. lia.
Qed.

Lemma beamResults_samples_on_beam_witness :
  ∃ model diagrams,
    beamResults (lit 4) 1 1 1 [] [] [] = Return (model, diagrams)
    ∧ length diagrams = ((length (Model.nodePositions model) - 1) * 81)%nat
    ∧ ∀ p, p ∈ diagrams → 0 ≤ Sample.x p ∧ Sample.x p ≤ lit 4.
Proof. apply beamResults_samples_on_beam. compute_done. Defined.

(** *** The reactions at the supports *)

(** X26: the reaction shown for a support is always read from the model:
    every support sits on a node, so that the fallback [0] for a support off
    the mesh is never taken; the moment is read for a fixed support and is
    [0] for any other. *)
Theorem supportReactions_at_nodes (span E width depth : Qc)
    (supports : list Support.t) (pointLoads : list PointLoad.t)
    (udls : list Udl.t) :
  ∃ model diagrams,
    beamResults span E width depth supports pointLoads udls
    = Return (model, diagrams)
    ∧ ∀ support reaction moment,
        (support, reaction, moment) ∈ supportReactions span supports model →
        ∃ k, Model.nodePositions model !! k = Some (Support.position support)
          ∧ reaction = rd (Model.reactions model) (k * 2) / lit 1000
          ∧ moment = if decide (Support.type support = fixed)
                     then rd (Model.reactions model) (k * 2 + 1) / lit 1000000
                     else 0.
Proof.
  unfold beamResults.
  set (inp := modelInput span E width depth supports pointLoads udls).
  destruct (assembleBeamModel_total inp) as (fd & _ & _ & ->).
  do 2 eexists. split; [done|]. intros support reaction moment Hin.
  unfold supportReactions in Hin.
  apply list_elem_of_fmap in Hin as (s & Heq & Hs).
  unfold supportReaction in Heq. cbn [Model.nodePositions Model.reactions] in *.
  assert (Hnode : Support.position s ∈ nodePositions inp).
  { apply elem_of_uniqueSorted. do 2 right. apply elem_of_app. left.
    by apply list_elem_of_fmap_2. }
  apply list_elem_of_lookup_1 in Hnode as [k Hk].
  pose proof (proj2 (indexOf_Some (nodePositions inp) _ k (NoDup_uniqueSorted _)) Hk)
    as Hidx.
  rewrite Hidx in Heq. injection Heq as -> -> ->. by exists k.
Qed.

(** *** The ends of the beam *)

Lemma clamp_eq_min p span : 0 < span → clamp p 0 span = 0 ↔ p ≤ 0.
Proof.
  intros Hspan. unfold clamp. split.
  - intros Hc. apply Qcnot_lt_le. intros Hp.
    rewrite max_l in Hc by by apply Qclt_le_weak.
    destruct (min_cases p span) as [Hm|Hm]; rewrite Hm in Hc; subst;
      by eapply Qclt_not_eq.
  - intros Hp. rewrite max_r by done. apply min_l. by apply Qclt_le_weak.
Qed.

Lemma clamp_eq_max p span : 0 < span → clamp p 0 span = span ↔ span ≤ p.
Proof.
  intros Hspan. unfold clamp. split.
  - intros Hc. pose proof (min_le_l (Math.max p 0) span) as Hle.
    rewrite Hc in Hle. destruct (max_cases p 0) as [Hm|Hm]; rewrite Hm in Hle.
    + done.
    + by destruct (Qclt_not_le _ _ Hspan).
  - intros Hp. rewrite max_l.
    + by apply min_r.
    + apply Qclt_le_weak. by apply Qclt_le_trans with span.
Qed.

Lemma StronglySorted_keyLe_head {A} (key : A → Qc) (l : list A) first x :
  StronglySorted (keyLe key) l → head l = Some first → x ∈ l → key first ≤ key x.
Proof.
  intros Hl Hfirst Hx. destruct l as [|y l]; [done|]. injection Hfirst as ->.
  apply elem_of_cons in Hx as [->|Hx]; [apply Qcle_refl|].
  apply StronglySorted_inv in Hl as [_ Hy]. rewrite Forall_forall in Hy. by apply Hy.
Qed.

Lemma StronglySorted_keyLe_last {A} (key : A → Qc) (l : list A) final x :
  StronglySorted (keyLe key) l → last l = Some final → x ∈ l → key x ≤ key final.
Proof.
  intros Hl. revert x. induction Hl as [|y l Hl IH Hy]; intros x Hfinal Hx; [done|].
  destruct l as [|z l].
  - injection Hfinal as <-. apply elem_of_cons in Hx as [->|Hx];
      [apply Qcle_refl|by apply elem_of_nil in Hx].
  - change (last (y :: z :: l)) with (last (z :: l)) in Hfinal.
    apply elem_of_cons in Hx as [->|Hx]; [|by apply IH].
    rewrite Forall_forall in Hy. apply Qcle_trans with (key z).
    + apply Hy. by left.
    + apply IH; [done|by left].
Qed.

(** X27: for a positive span, [App] reports a support at the start
    exactly when some support is entered at a position of [0] or less, and a
    support at the end exactly when some support is entered at the span or
    beyond; the type of the support plays no part, so that a support of type
    [free] counts. *)
Theorem isCantilever_ends (span : Qc) (supports : list Support.t) :
  0 < span →
  (isCantileverStart span supports = false
   ↔ ∃ s, s ∈ supports ∧ Support.position s ≤ 0)
  ∧ (isCantileverEnd span supports = false
     ↔ ∃ s, s ∈ supports ∧ span ≤ Support.position s).
Proof.
  intros Hspan. pose proof (Qclt_le_weak _ _ Hspan) as Hspan'.
  pose proof (sortBy_sorted Support.position (clampSupport span <$> supports))
    as Hsorted.
  fold (normalizeSupports supports span) in Hsorted.
  assert (Hin : ∀ s, s ∈ normalizeSupports supports span
            ↔ ∃ s0, s = clampSupport span s0 ∧ s0 ∈ supports).
  { intros s. unfold normalizeSupports. rewrite sortBy_Permutation.
    apply list_elem_of_fmap. }
  unfold isCantileverStart, isCantileverEnd, normalizedSupports. split.
  - destruct (normalizeSupports supports span) as [|first rest].
    + split; [done|]. intros (s & Hs & _).
      assert (Hc : clampSupport span s ∈ @nil Support.t) by (apply Hin; eauto).
      by apply elem_of_nil in Hc.
    + rewrite bool_decide_eq_false. split.
      * intros Hfirst. apply Qcnot_lt_le in Hfirst.
        destruct (proj1 (Hin first)) as (s0 & -> & Hs0); [by left|].
        exists s0. split; [done|]. apply (clamp_eq_min _ span Hspan).
        apply Qcle_antisym; [done|]. by apply clamp_ge_min.
      * intros (s & Hs & Hpos). apply Qcle_not_lt.
        apply Qcle_trans with (Support.position (clampSupport span s)).
        -- apply (StronglySorted_keyLe_head Support.position (first :: rest));
             [done|done|]. apply Hin. eauto.
        -- simpl. rewrite (proj2 (clamp_eq_min _ span Hspan) Hpos). apply Qcle_refl.
  - destruct (last (normalizeSupports supports span)) as [final|] eqn:Hlast.
    + rewrite bool_decide_eq_false. split.
      * intros Hfinal. apply Qcnot_lt_le in Hfinal.
        destruct (proj1 (Hin final)) as (s0 & -> & Hs0).
        { rewrite last_lookup in Hlast. by eapply list_elem_of_lookup_2. }
        exists s0. split; [done|]. apply (clamp_eq_max _ span Hspan).
        apply Qcle_antisym; [apply clamp_le_max|done].
      * intros (s & Hs & Hpos). apply Qcle_not_lt.
        apply Qcle_trans with (Support.position (clampSupport span s)).
        -- simpl. rewrite (proj2 (clamp_eq_max _ span Hspan) Hpos). apply Qcle_refl.
        -- apply (StronglySorted_keyLe_last Support.position
                    (normalizeSupports supports span)); [done|done|].
           apply Hin. eauto.
    + split; [done|]. intros (s & Hs & _).
      assert (Hc : clampSupport span s ∈ normalizeSupports supports span)
        by (apply Hin; eauto).
      apply last_None in Hlast. rewrite Hlast in Hc. by apply elem_of_nil in Hc.
Qed.

Lemma isCantilever_ends_witness :
  let supports := [Support.make (lit 9) free] in
  (isCantileverStart (lit 4) supports = false
   ↔ ∃ s, s ∈ supports ∧ Support.position s ≤ 0)
  ∧ (isCantileverEnd (lit 4) supports = false
     ↔ ∃ s, s ∈ supports ∧ lit 4 ≤ Support.position s).
Proof. apply isCantilever_ends. compute_done. Defined.

(** ** The polyline of a diagram *)

Lemma maxAbs_ge_floor data : 1 / lit 1000000 ≤ Plot.maxAbs data.
Proof.
  unfold Plot.maxAbs. induction data as [|p data IH]; [apply Qcle_refl|].
  cbn [fmap list_fmap foldr]. eapply Qcle_trans; [exact IH|apply max_ge_r].
Qed.

Lemma maxAbs_ge_abs data p : p ∈ data → abs (Point.value p) ≤ Plot.maxAbs data.
Proof.
  unfold Plot.maxAbs. induction data as [|q data IH]; intros Hp.
  - by apply elem_of_nil in Hp.
  - cbn [fmap list_fmap foldr]. apply elem_of_cons in Hp as [->|Hp].
    + apply max_ge_l.
    + eapply Qcle_trans; [by apply IH|apply max_ge_r].
Qed.

Lemma maxAbs_pos data : 0 < Plot.maxAbs data.
Proof.
  apply Qclt_le_trans with (1 / lit 1000000); [compute_done|apply maxAbs_ge_floor].
Qed.

(** A quotient by a positive number, between the bounds of its numerator. *)
Lemma quotient_range (v m lo hi : Qc) :
  0 < m → lo * m ≤ v → v ≤ hi * m → lo ≤ v / m ∧ v / m ≤ hi.
Proof.
  intros Hm Hlo Hhi.
  assert (Hr : v / m * m = v) by (field; by apply Qclt_not_eq, not_eq_sym in Hm).
  split; apply Qcmult_lt_0_le_reg_r with m; try done; by rewrite Hr.
Qed.

Lemma scaled_range (r c lo : Qc) :
  0 ≤ r → r ≤ 1 → 0 ≤ c → lo ≤ lo + r * c ∧ lo + r * c ≤ lo + c.
Proof.
  intros H0 H1 Hc. split.
  - rewrite <- (Qcplus_0_r lo) at 1. apply Qcplus_le_compat; [apply Qcle_refl|].
    rewrite <- (Qcmult_0_l c). by apply Qcmult_le_compat_r.
  - apply Qcplus_le_compat; [apply Qcle_refl|].
    rewrite <- (Qcmult_1_l c) at 2. by apply Qcmult_le_compat_r.
Qed.

Lemma centred_range (h c r : Qc) :
  - (1) ≤ r → r ≤ 1 → 0 ≤ c → h - c ≤ h - r * c ∧ h - r * c ≤ h + c.
Proof.
  intros Hlo Hhi Hc. unfold Qcminus. split.
  - apply Qcplus_le_compat; [apply Qcle_refl|]. apply Qcopp_le_compat.
    rewrite <- (Qcmult_1_l c) at 2. by apply Qcmult_le_compat_r.
  - apply Qcplus_le_compat; [apply Qcle_refl|].
    replace (- (r * c)) with (- r * c) by ring.
    rewrite <- (Qcmult_1_l c) at 2. apply Qcmult_le_compat_r; [|done].
    apply Qcopp_le_compat in Hlo. by rewrite Qcopp_involutive in Hlo.
Qed.

(** X28: the polyline of a diagram stays in the plot: every ordinate is
    between the padding and the height less the padding, whatever the
    values; and every abscissa between the padding and the width less the
    padding when the abscissae of the data run from [0] to that of the last
    point. *)
Theorem polyline_within_plot (data : list Point.t) (p : Point.t) :
  p ∈ data →
  (Plot.padding ≤ (Plot.point data p).2
   ∧ (Plot.point data p).2 ≤ Plot.height - Plot.padding)
  ∧ ∀ final, last data = Some final → 0 < Point.x final →
      0 ≤ Point.x p → Point.x p ≤ Point.x final →
      Plot.padding ≤ (Plot.point data p).1
      ∧ (Plot.point data p).1 ≤ Plot.width - Plot.padding.
Proof.
  intros Hp. unfold Plot.point. cbn [fst snd]. split.
  - pose proof (maxAbs_pos data) as Hm.
    pose proof (maxAbs_ge_abs data p Hp) as Habs. unfold abs in Habs.
    apply Qcabs.Qcabs_Qcle_condition in Habs as [Hlo Hhi].
    destruct (quotient_range (Point.value p) (Plot.maxAbs data) (- (1)) 1)
      as [Hr0 Hr1]; [done| | |].
    { by replace (- (1) * Plot.maxAbs data) with (- Plot.maxAbs data) by ring. }
    { by rewrite Qcmult_1_l. }
    assert (Hc : 0 ≤ Plot.height / lit 2 - Plot.padding) by compute_done.
    destruct (centred_range (Plot.height / lit 2)
                (Plot.height / lit 2 - Plot.padding)
                (Point.value p / Plot.maxAbs data) Hr0 Hr1 Hc) as [Hy0 Hy1].
    split.
    + eapply Qcle_trans; [|exact Hy0].
      replace (Plot.height / lit 2 - (Plot.height / lit 2 - Plot.padding))
        with Plot.padding by ring.
      apply Qcle_refl.
    + eapply Qcle_trans; [exact Hy1|].
      replace (Plot.height / lit 2 + (Plot.height / lit 2 - Plot.padding))
        with (Plot.height - Plot.padding)
        by (rewrite <- (half_twice Plot.height) at 1; ring).
      apply Qcle_refl.
  - intros final Hfinal Hpos Hx0 Hx1. rewrite Hfinal. cbn [fmap option_fmap option_map default].
    destruct (quotient_range (Point.x p) (Point.x final) 0 1) as [Hr0 Hr1];
      [done|by rewrite Qcmult_0_l|by rewrite Qcmult_1_l|].
    assert (Hc : 0 ≤ Plot.width - lit 2 * Plot.padding) by compute_done.
    destruct (scaled_range (Point.x p / Point.x final)
                (Plot.width - lit 2 * Plot.padding) Plot.padding Hr0 Hr1 Hc)
      as [Hlo Hhi].
    split; [done|]. eapply Qcle_trans; [exact Hhi|].
    replace (Plot.padding + (Plot.width - lit 2 * Plot.padding))
      with (Plot.width - Plot.padding) by (rewrite lit_2; ring).
    apply Qcle_refl.
Qed.

Lemma polyline_within_plot_witness :
  let data := [Point.make 0 (lit 3); Point.make (lit 4) (- lit 5)] in
  let p := Point.make (lit 4) (- lit 5) in
  (Plot.padding ≤ (Plot.point data p).2
   ∧ (Plot.point data p).2 ≤ Plot.height - Plot.padding)
  ∧ ∀ final, last data = Some final → 0 < Point.x final →
      0 ≤ Point.x p → Point.x p ≤ Point.x final →
      Plot.padding ≤ (Plot.point data p).1
      ∧ (Plot.point data p).1 ≤ Plot.width - Plot.padding.
Proof. apply polyline_within_plot. right. left. Defined.

(** ** The extrema of the scaled diagrams *)






